(** * ROSVOT pitch-track to note transcription: the engine of
    [module/sub/c_rosvot_to_midi.py] and the coverage analysis of
    [module/sub/d_analyze_midi_results.py].

    Python floats are modelled as exact rationals ([Q]); a frame of the F0
    array is a finite rational or NaN.  Comparisons are the boolean ones the
    code evaluates.  [np.log2] is taken at its exact real value
    ([hz_to_midi_note], justified by [hz_to_midi_note_real]).  Reading and
    writing MIDI and JSON files, printing and plotting are not modelled: the
    functions below work on the note lists and arrays those files hold. *)

From Stdlib Require Import ZArith QArith Qminmax Qpower Qabs Qround.
From Stdlib Require Import List Bool String Lia Permutation Sorted.
From Stdlib Require Import Reals Qreals R_Ifp Rpower Psatz.
Import ListNotations.

Local Open Scope Z_scope.
Local Open Scope Q_scope.

(** ** Floats *)

Definition Qlt_bool (a b : Q) : bool := negb (Qle_bool b a).

(** Python's [max(a, b)] returns [b] only when [b > a]; [min(a, b)] returns
    [b] only when [b < a]. *)
Definition pymax (a b : Q) : Q := if Qlt_bool a b then b else a.
Definition pymin (a b : Q) : Q := if Qlt_bool b a then b else a.

(** [int(x)] on a float: truncation toward zero. *)
Definition int_of_float (x : Q) : Z :=
  if Qle_bool 0 x then Qfloor x else Qceiling x.

(** [_getenv_float(name, default)]: the environment value parsed as a float,
    the default when the variable is unset or does not parse. *)
Definition _getenv_float (value : option Q) (default : Q) : Q :=
  match value with
  | Some v => v
  | None => default
  end.

(** The environment variables the engine reads, already parsed. *)
Record Env : Type := mkEnv {
  MIN_NOTE_S : option Q;
  BRIDGE_GAP_MS : option Q;
  MERGE_GAP_S : option Q;
  FORCE_SPLIT_PHONEMES : list string
}.

Definition default_env : Env :=
  {| MIN_NOTE_S := None; BRIDGE_GAP_MS := None; MERGE_GAP_S := None;
     FORCE_SPLIT_PHONEMES := [] |}.

(** ** Records of the engine *)

(** [pretty_midi.Note(velocity, pitch, start, end)]. *)
Record Note : Type := mkNote {
  velocity : Z;
  pitch : Z;
  start : Q;
  end_ : Q
}.

Definition set_end (n : Note) (e : Q) : Note :=
  {| velocity := velocity n; pitch := pitch n; start := start n; end_ := e |}.

(** A frame of the F0 array: a float, possibly NaN.  Every comparison with NaN
    is false. *)
Inductive frame : Type :=
| Hz (q : Q)
| NaN.

(** [x > 0] on a frame. *)
Definition voiced (x : frame) : bool :=
  match x with
  | Hz q => Qlt_bool 0 q
  | NaN => false
  end.

(** An entry of [timestamps["phonemes"]]: [(start, end, label)]. *)
Definition phoneme : Type := (Q * Q * string)%type.

(** The [rosvot_metadata] dictionary, with the two keys the engine looks up. *)
Record metadata : Type := mkMetadata {
  wav_fn : option string;
  phonemes : option (list phoneme)
}.

Record MIDIConverter : Type := mkMIDIConverter {
  sample_rate : Z;
  hop_length : Z
}.

(** [label in labels] on strings. *)
Definition str_in (label : string) (labels : list string) : bool :=
  existsb (String.eqb label) labels.

(** ** Frequency to MIDI note *)

(** The largest [k] with [2^k <= q], for [0 < q]. *)
Definition Qfloor_log2 (q : Q) : Z :=
  let k0 := (Z.log2 (Qnum q) - Z.log2 (Zpos (Qden q)))%Z in
  if Qle_bool (Qpower 2 k0) q then k0 else (k0 - 1)%Z.

(** [int(x)] for [x = 69 + 12 * log2(r)], [0 < r]: the floor of [x] is
    [69 + floor(log2(r^12))]; [int] truncates toward zero, so a negative [x]
    that is not an integer goes one up from its floor. *)
Definition int_69_12log2 (r : Q) : Z :=
  let r12 := Qpower r 12 in
  let k := Qfloor_log2 r12 in
  let fl := (69 + k)%Z in
  if (0 <=? fl)%Z then fl
  else if Qeq_bool r12 (Qpower 2 k) then fl else (fl + 1)%Z.

(** [MIDIConverter.hz_to_midi_note]:
    [if hz <= 0: return 0; return int(69 + 12 * np.log2(hz / 440.0))].
    The logarithm is the exact real one; the binary64 result of the source can
    fall on the other side of an integer for inputs within rounding distance
    of a semitone boundary. *)
Definition hz_to_midi_note (hz : Q) : Z :=
  if Qle_bool hz 0 then 0%Z else int_69_12log2 (hz / 440).

(** The same conversion written over the real numbers, as the source has it. *)
Definition Rtrunc (x : R) : Z :=
  if Rle_dec 0 x then Int_part x else (- Int_part (- x))%Z.

Definition log2R (x : R) : R := (ln x / ln 2)%R.

Definition hz_to_midi_note_R (hz : R) : Z :=
  if Rle_dec hz 0 then 0%Z else Rtrunc (69 + 12 * log2R (hz / 440))%R.

(** The nearest-integer conversion the specification words:
    [round(69 + 12 * log2(hz / 440))], as a relation (either neighbour is
    accepted on a tie). *)
Definition nearest_semitone (hz : R) (p : Z) : Prop :=
  (Rabs (69 + 12 * log2R (hz / 440) - IZR p) <= 1 / 2)%R.

(** ** FrameTrack calibration *)

Section Calibrator.

(** [librosa.get_duration(filename=...)]; [None] when probing raises. *)
Variable get_duration : string -> option Q.

(** [MIDIConverter._infer_time_per_frame]. *)
Definition _infer_time_per_frame (pitch_data : list frame)
    (rosvot_metadata : option metadata) (default_tpf : Q) : Q :=
  match rosvot_metadata with
  | Some md =>
      match wav_fn md with
      | Some fn =>
          match get_duration fn with
          | Some dur =>
              let tpf_est := dur / inject_Z (Z.max 1 (Z.of_nat (List.length pitch_data))) in
              if Qle_bool 0.015 tpf_est && Qle_bool tpf_est 0.030
              then tpf_est else default_tpf
          | None => default_tpf
          end
      | None => default_tpf
      end
  | None => default_tpf
  end.

End Calibrator.

(** ** Gap bridging *)

(** [f0[j]], read only at indices the code has checked to be in range. *)
Definition frame_at (f0 : list frame) (j : Z) : frame :=
  nth (Z.to_nat j) f0 NaN.

(** [x if x > 0 else 0] on a frame. *)
Definition pos_or_zero (x : frame) : Q :=
  match x with
  | Hz q => if Qlt_bool 0 q then q else 0
  | NaN => 0
  end.

(** A bound of a numpy slice: negative bounds count from the end, and bounds
    are clipped to the array. *)
Definition slice_bound (len j : Z) : Z :=
  if (j <? 0)%Z then Z.max 0 (j + len) else Z.min j len.

Fixpoint set_range (l : list frame) (k a b : Z) (v : frame) : list frame :=
  match l with
  | [] => []
  | x :: tl =>
      (if (a <=? k)%Z && (k <? b)%Z then v else x) :: set_range tl (k + 1) a b v
  end.

(** [f0[a:b] = v]. *)
Definition set_slice (f0 : list frame) (a b : Z) (v : frame) : list frame :=
  let len := Z.of_nat (List.length f0) in
  set_range f0 0 (slice_bound len a) (slice_bound len b) v.

Record bridge_state : Type := mkBridge {
  bs_f0 : list frame;
  bs_run : Z;
  bs_start : Z
}.

(** One iteration of the loop of [_bridge_unvoiced_gaps] at index [i], where
    [x] is [voiced[i]]. *)
Definition bridge_step (max_gap_frames : Z) (st : bridge_state) (i : Z) (x : bool)
    : bridge_state :=
  let f0 := bs_f0 st in
  let run := bs_run st in
  let start := bs_start st in
  if negb x then
    {| bs_f0 := f0; bs_run := (run + 1)%Z;
       bs_start := if (run =? 0)%Z then i else start |}
  else
    if (0 <? run)%Z && (run <=? max_gap_frames)%Z then
      let left :=
        if (0 <=? start - 1)%Z then pos_or_zero (frame_at f0 (start - 1)) else 0 in
      let right :=
        if (i <? Z.of_nat (List.length f0))%Z then pos_or_zero (frame_at f0 i) else 0 in
      let fill :=
        if Qeq_bool right 0 then left
        else if Qeq_bool left 0 then right else (left + right) / 2 in
      {| bs_f0 := set_slice f0 start i (Hz (pymax fill 1e-6));
         bs_run := 0%Z; bs_start := start |}
    else
      {| bs_f0 := f0; bs_run := 0%Z; bs_start := start |}.

Fixpoint bridge_loop (max_gap_frames : Z) (vs : list bool) (i : Z)
    (st : bridge_state) : bridge_state :=
  match vs with
  | [] => st
  | x :: tl => bridge_loop max_gap_frames tl (i + 1) (bridge_step max_gap_frames st i x)
  end.

(** [MIDIConverter._bridge_unvoiced_gaps]: the voicing mask is taken from the
    input once, the copy [f0] is filled in place while scanning. *)
Definition _bridge_unvoiced_gaps (f0 : list frame) (max_gap_frames : Z) : list frame :=
  bs_f0 (bridge_loop max_gap_frames (map voiced f0) 0
           {| bs_f0 := f0; bs_run := 0%Z; bs_start := (-1)%Z |}).

(** ** Merging *)

(** The loop of [_merge_short_splits]: [prev] is [merged[-1]], the only note
    the loop updates. *)
Fixpoint merge_from (gap_thresh : Q) (prev : Note) (rest : list Note) : list Note :=
  match rest with
  | [] => [prev]
  | n :: tl =>
      if (pitch n =? pitch prev)%Z && Qle_bool (start n - end_ prev) gap_thresh
      then merge_from gap_thresh (set_end prev (end_ n)) tl
      else prev :: merge_from gap_thresh n tl
  end.

(** [MIDIConverter._merge_short_splits(notes, gap_thresh=None)]. *)
Definition _merge_short_splits (env : Env) (notes : list Note) (gap_thresh : option Q)
    : list Note :=
  let gap := match gap_thresh with
             | Some g => g
             | None => _getenv_float (MERGE_GAP_S env) 0.06
             end in
  match notes with
  | [] => notes
  | n0 :: tl => merge_from gap n0 tl
  end.

(** ** Segmentation *)

Record seg_state : Type := mkSeg {
  seg_notes : list Note;
  current_note : option Z;
  current_start_time : Q
}.

(** The float held by a voiced frame. *)
Definition hz_value (x : frame) : Q :=
  match x with
  | Hz q => q
  | NaN => 0
  end.

Section Segmenter.

Variable force_split_phonemes : list string.
Variable rosvot_metadata : option metadata.
Variable time_per_frame : Q.
Variable min_note_duration : Q.

(** [force_split_phonemes and rosvot_metadata and "phonemes" in rosvot_metadata]:
    the phoneme list the forced-cut tests scan, when all three hold. *)
Definition force_split_scan : option (list phoneme) :=
  match force_split_phonemes with
  | [] => None
  | _ :: _ =>
      match rosvot_metadata with
      | Some md => phonemes md
      | None => None
      end
  end.

(** The forced cut of the voiced branch: some phoneme with a configured label
    starts within one frame of [current_time]. *)
Definition force_cut_voiced (current_time : Q) : bool :=
  match force_split_scan with
  | Some phs =>
      existsb (fun '(ps, _, ph) =>
                 Qle_bool (Qabs (ps - current_time)) time_per_frame
                 && str_in ph force_split_phonemes) phs
  | None => false
  end.

(** The forced cut of the unvoiced branch: some phoneme with a configured
    label starts at or after [current_time]. *)
Definition force_cut_unvoiced (current_time : Q) : bool :=
  match force_split_scan with
  | Some phs =>
      existsb (fun '(ps, _, ph) =>
                 Qle_bool current_time ps && str_in ph force_split_phonemes) phs
  | None => false
  end.

(** The body of the frame loop of [create_midi_from_pitch] at index [i]. *)
Definition seg_step (st : seg_state) (i : Z) (pitch_hz : frame) : seg_state :=
  let current_time := inject_Z i * time_per_frame in
  if voiced pitch_hz then
    let midi_note := hz_to_midi_note (hz_value pitch_hz) in
    let force_cut := force_cut_voiced current_time in
    match current_note st with
    | None =>
        {| seg_notes := seg_notes st; current_note := Some midi_note;
           current_start_time := current_time |}
    | Some cur =>
        if Qlt_bool 0.5 (inject_Z (Z.abs (midi_note - cur))) || force_cut then
          let notes :=
            if Qle_bool min_note_duration (current_time - current_start_time st)
               || force_cut
            then seg_notes st ++ [mkNote 80 cur (current_start_time st) current_time]
            else seg_notes st in
          {| seg_notes := notes; current_note := Some midi_note;
             current_start_time := current_time |}
        else st
    end
  else
    match current_note st with
    | Some cur =>
        let force_cut := force_cut_unvoiced current_time in
        let notes :=
          if Qle_bool min_note_duration (current_time - current_start_time st)
             || force_cut
          then seg_notes st ++ [mkNote 80 cur (current_start_time st) current_time]
          else seg_notes st in
        {| seg_notes := notes; current_note := None;
           current_start_time := current_start_time st |}
    | None => st
    end.

Fixpoint seg_loop (frames : list frame) (i : Z) (st : seg_state) : seg_state :=
  match frames with
  | [] => st
  | x :: tl => seg_loop tl (i + 1) (seg_step st i x)
  end.

(** The note still open when the track ends. *)
Definition seg_finish (n_frames : Z) (st : seg_state) : list Note :=
  match current_note st with
  | Some cur =>
      let final_time := inject_Z n_frames * time_per_frame in
      if Qle_bool min_note_duration (final_time - current_start_time st)
      then seg_notes st ++ [mkNote 80 cur (current_start_time st) final_time]
      else seg_notes st
  | None => seg_notes st
  end.

Definition seg_init : seg_state :=
  {| seg_notes := []; current_note := None; current_start_time := 0 |}.

(** The notes the frame loop and the final flush put in [instrument.notes]. *)
Definition segment (pitch_data : list frame) : list Note :=
  seg_finish (Z.of_nat (List.length pitch_data)) (seg_loop pitch_data 0 seg_init).

End Segmenter.

Section PrimaryPass.

Variable get_duration : string -> option Q.
Variable env : Env.

(** [MIDIConverter.create_midi_from_pitch], up to the note list handed to the
    MIDI writer.  [None] is the failure return of a division by zero in the
    time-axis computations.  The writer itself is not modelled: when it
    refuses the notes (a pitch outside 0..127) the source returns [False]
    too, which this definition does not show. *)
Definition create_midi_from_pitch (self : MIDIConverter) (pitch_data : list frame)
    (min_note_duration : option Q) (rosvot_metadata : option metadata)
    : option (list Note) :=
  let min_note_duration :=
    match min_note_duration with
    | Some m => m
    | None => _getenv_float (MIN_NOTE_S env) 0.01
    end in
  let force_split_phonemes := FORCE_SPLIT_PHONEMES env in
  if (sample_rate self =? 0)%Z then None
  else
    let default_tpf := inject_Z (hop_length self) / inject_Z (sample_rate self) in
    let time_per_frame :=
      _infer_time_per_frame get_duration pitch_data rosvot_metadata default_tpf in
    if Qeq_bool time_per_frame 0 then None
    else
      let bridge_ms := _getenv_float (BRIDGE_GAP_MS env) 0.0 in
      let pitch_data :=
        _bridge_unvoiced_gaps pitch_data
          (int_of_float ((bridge_ms / 1000.0) / time_per_frame)) in
      let notes :=
        segment force_split_phonemes rosvot_metadata time_per_frame
                min_note_duration pitch_data in
      Some (_merge_short_splits env notes (Some (-(1))%Q)).

End PrimaryPass.

(** ** Coverage analysis *)

(** An entry of the list [_find_overlapping_notes] returns (the note name,
    derived from the pitch, is left out). *)
Record overlap_info : Type := mkOverlap {
  overlap_duration : Q;
  ov_pitch : Z
}.

(** [MIDIAnalyzer._find_overlapping_notes(start, end)] over [self.midi_notes]. *)
Fixpoint _find_overlapping_notes (midi_notes : list Note) (s e : Q)
    : list overlap_info :=
  match midi_notes with
  | [] => []
  | note :: tl =>
      if Qlt_bool (start note) e && Qlt_bool s (end_ note) then
        let overlap_start := pymax (start note) s in
        let overlap_end := pymin (end_ note) e in
        mkOverlap (overlap_end - overlap_start) (pitch note)
          :: _find_overlapping_notes tl s e
      else _find_overlapping_notes tl s e
  end.

(** Python's [sum] of the overlap durations. *)
Definition sum_overlap_duration (l : list overlap_info) : Q :=
  fold_left (fun acc o => acc + overlap_duration o) l 0.

(** [MIDIAnalyzer._calculate_coverage_ratio]; [None] is the division by zero
    of an empty interval. *)
Definition _calculate_coverage_ratio (s e : Q) (overlapping_notes : list overlap_info)
    : option Q :=
  match overlapping_notes with
  | [] => Some 0
  | _ :: _ =>
      let total_duration := e - s in
      let covered_duration := sum_overlap_duration overlapping_notes in
      if Qeq_bool total_duration 0 then None
      else Some (pymin (covered_duration / total_duration) 1.0)
  end.

(** The coverage ratio of an interval as [analyze_coverage] computes it. *)
Definition coverage_ratio (midi_notes : list Note) (s e : Q) : option Q :=
  _calculate_coverage_ratio s e (_find_overlapping_notes midi_notes s e).

(** The overlap in the specification's words:
    the sum over the notes of [max(0, min(note.end, e) - max(note.start, s))]. *)
Definition spec_overlap (midi_notes : list Note) (s e : Q) : Q :=
  fold_right (fun note acc => Qmax 0 (Qmin (end_ note) e - Qmax (start note) s) + acc)
             0 midi_notes.

(** [min(overlap / (e - s), 1.0)] in the specification's words. *)
Definition spec_coverage_ratio (midi_notes : list Note) (s e : Q) : Q :=
  Qmin (spec_overlap midi_notes s e / (e - s)) 1.

(** ** Micro-gap repair *)

(** The key [(n.start, n.end)] compared as Python compares tuples. *)
Definition key_le (a b : Note) : bool :=
  Qlt_bool (start a) (start b)
  || (Qeq_bool (start a) (start b) && Qle_bool (end_ a) (end_ b)).

Fixpoint insert_sorted (x : Note) (l : list Note) : list Note :=
  match l with
  | [] => [x]
  | y :: tl => if key_le x y then x :: l else y :: insert_sorted x tl
  end.

(** [sorted(notes, key=lambda n: (n.start, n.end))]: a stable sort. *)
Definition sorted_by_start_end (l : list Note) : list Note :=
  fold_right insert_sorted [] l.

(** The local [overlap(a0, a1, b0, b1)]. *)
Definition overlap (a0 a1 b0 b1 : Q) : Q :=
  pymax 0 (pymin a1 b1 - pymax a0 b0).

(** The local [find_prev_next(t)] over the sorted notes. *)
Fixpoint find_prev_next (notes : list Note) (t : Q) (prev : option Note)
    : option Note * option Note :=
  match notes with
  | [] => (prev, None)
  | n :: tl =>
      if Qle_bool (end_ n) t then find_prev_next tl t (Some n)
      else if Qle_bool t (start n) then (prev, Some n)
      else find_prev_next tl t prev
  end.

(** The loop that accumulates [cov] for the interval [[s, e)]. *)
Fixpoint covered (notes : list Note) (s e cov : Q) : Q :=
  match notes with
  | [] => cov
  | n :: tl =>
      if Qle_bool e (start n) then cov
      else if Qle_bool (end_ n) s then covered tl s e cov
      else covered tl s e (cov + overlap s e (start n) (end_ n))
  end.

(** A pitch candidate [(src, gap, pitch)]. *)
Definition candidate : Type := (string * Q * Z)%type.

Definition cand_gap (c : candidate) : Q := snd (fst c).

(** [min(candidates, key=lambda x: x[1])]: the first candidate of least gap. *)
Fixpoint min_by_gap (best : candidate) (cs : list candidate) : candidate :=
  match cs with
  | [] => best
  | c :: tl =>
      if Qlt_bool (cand_gap c) (cand_gap best) then min_by_gap c tl
      else min_by_gap best tl
  end.

(** The merge that follows the insertions: same pitch, gap at most 20 ms. *)
Fixpoint microfix_merge_from (m : Note) (rest : list Note) : list Note :=
  match rest with
  | [] => [m]
  | n :: tl =>
      if (pitch n =? pitch m)%Z && Qle_bool (start n - end_ m) 0.02
      then microfix_merge_from (set_end m (pymax (end_ m) (end_ n))) tl
      else m :: microfix_merge_from n tl
  end.

Definition microfix_merge (notes : list Note) : list Note :=
  match notes with
  | [] => []
  | n0 :: tl => microfix_merge_from n0 tl
  end.

Section Repair.

Variable min_phoneme_dur : Q.
Variable max_fill_dur : Q.
Variable min_overlap_for_covered : Q.
Variable max_neighbor_gap : Q.
Variable insert_velocity : Z.

(** The body of the loop over [phones]: the note to append, if any.  [notes]
    is the sorted copy taken before the loop. *)
Definition fill_note (notes : list Note) (ph : phoneme) : option Note :=
  let '(s, e, _) := ph in
  if Qlt_bool max_fill_dur (e - s) then None
  else
    let cov := covered notes s e 0 in
    if Qle_bool min_overlap_for_covered cov then None
    else
      let '(prev, nxt) := find_prev_next notes ((s + e) * 0.5) None in
      let candidates :=
        (match prev with
         | Some pv => [("prev"%string, pymax 0 (s - end_ pv), pitch pv)]
         | None => []
         end)
        ++ (match nxt with
            | Some nx => [("next"%string, pymax 0 (start nx - e), pitch nx)]
            | None => []
            end) in
      match candidates with
      | [] => None
      | c0 :: cs =>
          let '(_, gap, pitch) := min_by_gap c0 cs in
          if Qlt_bool max_neighbor_gap gap then None
          else
            let start_t := match prev with
                           | Some pv => pymax s (end_ pv)
                           | None => s
                           end in
            let end_t := match nxt with
                         | Some nx => pymin e (start nx)
                         | None => e
                         end in
            if Qlt_bool (end_t - start_t) min_phoneme_dur then None
            else Some (mkNote insert_velocity pitch start_t end_t)
      end.

(** The loop over [phones]: [inst.notes] after the appends, and [inserted]. *)
Fixpoint insert_loop (notes : list Note) (phones : list phoneme)
    (inst_notes : list Note) (inserted : Z) : list Note * Z :=
  match phones with
  | [] => (inst_notes, inserted)
  | ph :: tl =>
      match fill_note notes ph with
      | Some note => insert_loop notes tl (inst_notes ++ [note]) (inserted + 1)
      | None => insert_loop notes tl inst_notes inserted
      end
  end.

(** The voiced phonemes long enough to be looked at. *)
Definition voiced_phones (ts_phonemes : list phoneme) : list phoneme :=
  filter (fun '(s, e, _) => Qle_bool min_phoneme_dur (e - s))
    (filter (fun '(_, _, p) => negb (str_in p ["SP"; "AP"; ""]%string)) ts_phonemes).

(** [repair_micro_gaps_with_phonemes] on the notes of the first instrument
    ([inst_notes]) and [timestamps["phonemes"]]: the return value and the
    notes the MIDI file holds afterwards. *)
Definition repair_micro_gaps_with_phonemes (inst_notes : list Note)
    (ts_phonemes : list phoneme) : bool * list Note :=
  match voiced_phones ts_phonemes with
  | [] => (false, inst_notes)
  | phones =>
      let notes := sorted_by_start_end inst_notes in
      let '(appended, inserted) := insert_loop notes phones inst_notes 0 in
      if (0 <? inserted)%Z
      then (true, microfix_merge (sorted_by_start_end appended))
      else (false, inst_notes)
  end.

End Repair.

(** The repair with the default thresholds of the signature. *)
Definition repair_default : list Note -> list phoneme -> bool * list Note :=
  repair_micro_gaps_with_phonemes 0.025 0.25 0.01 0.14 64.

(** ** Predicates used in the statements *)

(** The test of the merge loop: [n] is absorbed by [prev]. *)
Definition merge_cond (gap_thresh : Q) (prev n : Note) : bool :=
  (pitch n =? pitch prev)%Z && Qle_bool (start n - end_ prev) gap_thresh.

(** Every note ends no later than every later note starts. *)
Definition time_ordered (l : list Note) : Prop :=
  ForallOrdPairs (fun a b => end_ a <= start b) l.

(** The invariant of the frame loop before frame [i]: the notes emitted so far
    are time-ordered and end no later than the open run starts (or than the
    current time when no run is open). *)
Definition seg_inv (time_per_frame : Q) (i : Z) (st : seg_state) : Prop :=
  time_ordered (seg_notes st)
  /\ match current_note st with
     | Some _ =>
         current_start_time st <= inject_Z i * time_per_frame
         /\ Forall (fun n => end_ n <= current_start_time st) (seg_notes st)
     | None =>
         Forall (fun n => end_ n <= inject_Z i * time_per_frame) (seg_notes st)
     end.

(** The invariant of the bridging loop before index [i], against the input
    [orig]: the copy has the input's length, agrees with it on every voiced
    frame, and an open unvoiced run [[start, i)] holds unvoiced input frames
    only. *)
Definition bridge_inv (orig : list frame) (i : Z) (st : bridge_state) : Prop :=
  List.length (bs_f0 st) = List.length orig
  /\ (forall j x, nth_error orig j = Some x -> voiced x = true ->
                  nth_error (bs_f0 st) j = Some x)
  /\ (0 <= bs_run st)%Z
  /\ ((0 < bs_run st)%Z ->
      (0 <= bs_start st)%Z /\ (bs_start st + bs_run st = i)%Z
      /\ forall j x, (bs_start st <= Z.of_nat j < i)%Z ->
                     nth_error orig j = Some x -> voiced x = false).

(** A frame that fails the voiced test, read as the unvoiced value 0. *)
Definition as_unvoiced (x : frame) : frame :=
  if voiced x then x else Hz 0.

(** Two frames the engine cannot tell apart: both unvoiced, or the same
    voiced value. *)
Definition same_voicing (x y : frame) : Prop :=
  voiced x = voiced y /\ (voiced x = true -> x = y).

(** Two bridging states that differ in unvoiced frame values only. *)
Definition bridge_sim (st st' : bridge_state) : Prop :=
  Forall2 same_voicing (bs_f0 st) (bs_f0 st')
  /\ bs_run st = bs_run st' /\ bs_start st = bs_start st'.

(** The track of the bridging scenario: 10 frames at 220 Hz, 2 unvoiced
    frames, 10 frames at 220 Hz. *)
Definition scenario_track : list frame :=
  repeat (Hz 220) 10 ++ repeat (Hz 0) 2 ++ repeat (Hz 220) 10.

(** Note [m] covers note [n]: same pitch, starts no later, ends no earlier. *)
Definition covers (n m : Note) : Prop :=
  pitch m = pitch n /\ start m <= start n /\ end_ n <= end_ m.

(** Starts do not decrease along the list. *)
Definition start_sorted (l : list Note) : Prop :=
  StronglySorted (fun a b => start a <= start b) l.

(** The notes the loop over [phones] appends, in order. *)
Definition inserted_notes (min_phoneme_dur max_fill_dur min_overlap_for_covered
    max_neighbor_gap : Q) (insert_velocity : Z) (notes : list Note)
    (phones : list phoneme) : list Note :=
  flat_map (fun ph =>
              match fill_note min_phoneme_dur max_fill_dur min_overlap_for_covered
                              max_neighbor_gap insert_velocity notes ph with
              | Some note => [note]
              | None => []
              end) phones.

(** The notes one call of the repair appends to [inst_notes]. *)
Definition repair_inserted (min_phoneme_dur max_fill_dur min_overlap_for_covered
    max_neighbor_gap : Q) (insert_velocity : Z) (inst_notes : list Note)
    (ts_phonemes : list phoneme) : list Note :=
  inserted_notes min_phoneme_dur max_fill_dur min_overlap_for_covered
    max_neighbor_gap insert_velocity (sorted_by_start_end inst_notes)
    (voiced_phones min_phoneme_dur ts_phonemes).

(** What the repair guarantees of a note [x] it inserts for the phoneme
    interval [[s, e)], against the notes [inst_notes] present before the
    pass. *)
Definition clipped_insert (min_phoneme_dur min_overlap_for_covered : Q)
    (insert_velocity : Z) (inst_notes : list Note) (s e : Q) (x : Note) : Prop :=
  velocity x = insert_velocity
  /\ s <= start x /\ end_ x <= e
  /\ min_phoneme_dur <= end_ x - start x
  /\ (forall pv, fst (find_prev_next (sorted_by_start_end inst_notes)
                                     ((s + e) * 0.5) None) = Some pv ->
                 end_ pv <= start x /\ end_ pv <= (s + e) * 0.5)
  /\ (forall nx, snd (find_prev_next (sorted_by_start_end inst_notes)
                                     ((s + e) * 0.5) None) = Some nx ->
                 end_ x <= start nx /\ (s + e) * 0.5 <= start nx)
  /\ (forall n, In n inst_notes ->
                overlap (start x) (end_ x) (start n) (end_ n)
                < min_overlap_for_covered).

(** ** Further predicates on the Segmenter *)

(** A note of the Segmenter on the frame grid: velocity 80, from frame [a]
    to frame [b] with [0 <= a < b <= i]. *)
Definition on_grid (time_per_frame : Q) (i : Z) (n : Note) : Prop :=
  velocity n = 80%Z
  /\ exists a b : Z,
       (0 <= a < b)%Z /\ (b <= i)%Z
       /\ start n = inject_Z a * time_per_frame
       /\ end_ n = inject_Z b * time_per_frame.

(** The grid invariant of the frame loop before frame [i]: emitted notes are
    on the grid, and an open run started at an earlier frame. *)
Definition grid_inv (time_per_frame : Q) (i : Z) (st : seg_state) : Prop :=
  Forall (on_grid time_per_frame i) (seg_notes st)
  /\ (forall cur, current_note st = Some cur ->
        exists a : Z, (0 <= a < i)%Z
                      /\ current_start_time st = inject_Z a * time_per_frame).

(** Every note emitted so far lasts at least [min_note_duration]. *)
Definition gate_inv (min_note_duration : Q) (st : seg_state) : Prop :=
  Forall (fun n => min_note_duration <= end_ n - start n) (seg_notes st).

(** ** The archived Segmenter

    [MIDIConverter.create_midi_from_pitch] of
    [archive/modules/full_pipeline_sofa_to_midi.py]: no calibration, no
    bridging, no forced cut and no merge. *)

Section LegacySegmenter.

Variable time_per_frame : Q.
Variable min_note_duration : Q.

(** The body of the archived frame loop at index [i]. *)
Definition legacy_seg_step (st : seg_state) (i : Z) (pitch_hz : frame) : seg_state :=
  let current_time := inject_Z i * time_per_frame in
  if voiced pitch_hz then
    let midi_note := hz_to_midi_note (hz_value pitch_hz) in
    match current_note st with
    | None =>
        {| seg_notes := seg_notes st; current_note := Some midi_note;
           current_start_time := current_time |}
    | Some cur =>
        if Qlt_bool 0.5 (inject_Z (Z.abs (midi_note - cur))) then
          let notes :=
            if Qle_bool min_note_duration (current_time - current_start_time st)
            then seg_notes st ++ [mkNote 80 cur (current_start_time st) current_time]
            else seg_notes st in
          {| seg_notes := notes; current_note := Some midi_note;
             current_start_time := current_time |}
        else st
    end
  else
    match current_note st with
    | Some cur =>
        let notes :=
          if Qle_bool min_note_duration (current_time - current_start_time st)
          then seg_notes st ++ [mkNote 80 cur (current_start_time st) current_time]
          else seg_notes st in
        {| seg_notes := notes; current_note := None;
           current_start_time := current_start_time st |}
    | None => st
    end.

Fixpoint legacy_seg_loop (frames : list frame) (i : Z) (st : seg_state) : seg_state :=
  match frames with
  | [] => st
  | x :: tl => legacy_seg_loop tl (i + 1) (legacy_seg_step st i x)
  end.

Definition legacy_segment (pitch_data : list frame) : list Note :=
  seg_finish time_per_frame min_note_duration
    (Z.of_nat (List.length pitch_data)) (legacy_seg_loop pitch_data 0 seg_init).

End LegacySegmenter.

(** The archived [create_midi_from_pitch], up to the note list handed to the
    MIDI writer; [None] is the failure return (division by a zero sample
    rate). *)
Definition legacy_create_midi_from_pitch (self : MIDIConverter)
    (pitch_data : list frame) (min_note_duration : Q) : option (list Note) :=
  if (sample_rate self =? 0)%Z then None
  else
    let time_per_frame := inject_Z (hop_length self) / inject_Z (sample_rate self) in
    Some (legacy_segment time_per_frame min_note_duration pitch_data).

(** A frame of the bridged track against the input frame: kept, or filled
    with a value of at least [1e-6]. *)
Definition kept_or_filled (x y : frame) : Prop :=
  y = x \/ exists q, y = Hz q /\ 1e-6 <= q.

(** ** Further predicates on merging and repair *)

(** The threshold [_merge_short_splits] works with. *)
Definition resolved_gap (env : Env) (gap_thresh : option Q) : Q :=
  match gap_thresh with
  | Some g => g
  | None => _getenv_float (MERGE_GAP_S env) 0.06
  end.

(** No note of the list would absorb its successor under [cond]. *)
Fixpoint no_adjacent (cond : Note -> Note -> bool) (l : list Note) : Prop :=
  match l with
  | [] => True
  | a :: tl =>
      match tl with
      | [] => True
      | b :: _ => cond a b = false
      end /\ no_adjacent cond tl
  end.

(** The test of the merge that closes the repair. *)
Definition microfix_cond (m n : Note) : bool :=
  (pitch n =? pitch m)%Z && Qle_bool (start n - end_ m) 0.02.

(** What the repair guarantees of the pitch and length of a note [x] it
    inserts for the phoneme interval [[s, e)]: the pitch is borrowed from a
    note [n] lying wholly before or wholly after the midpoint and no further
    than [max_neighbor_gap] from the interval. *)
Definition borrowed_pitch (max_fill_dur max_neighbor_gap : Q) (notes : list Note)
    (s e : Q) (x : Note) : Prop :=
  end_ x - start x <= max_fill_dur
  /\ exists n, In n notes /\ pitch x = pitch n
       /\ ((end_ n <= (s + e) * 0.5 /\ s - end_ n <= max_neighbor_gap)
           \/ ((s + e) * 0.5 <= start n /\ start n - e <= max_neighbor_gap)).

(** ** Coverage report *)

(** An entry of [word_coverage] or [phoneme_coverage]. *)
Record coverage_info : Type := mkCoverage {
  ci_index : Z;
  ci_label : string;
  ci_start : Q;
  ci_end : Q;
  ci_duration : Q;
  has_midi : bool;
  ci_coverage_ratio : Q;
  ci_midi_notes : list Z
}.

(** An entry of [missing_segments]. *)
Record missing_segment : Type := mkMissing {
  ms_start : Q;
  ms_end : Q;
  ms_duration : Q;
  ms_phoneme : string;
  ms_coverage_ratio : Q;
  ms_reason : string
}.

(** The loops of [analyze_coverage] over the words and over the phonemes:
    entries labelled [SP] are skipped; [None] when a coverage ratio fails. *)
Fixpoint coverage_loop (midi_notes : list Note) (items : list phoneme) (i : Z)
    : option (list coverage_info) :=
  match items with
  | [] => Some []
  | (s, e, label) :: tl =>
      if String.eqb label "SP" then coverage_loop midi_notes tl (i + 1)
      else
        let overlapping_notes := _find_overlapping_notes midi_notes s e in
        match _calculate_coverage_ratio s e overlapping_notes with
        | None => None
        | Some ratio =>
            match coverage_loop midi_notes tl (i + 1) with
            | None => None
            | Some rest =>
                Some (mkCoverage i label s e (e - s)
                        (match overlapping_notes with [] => false | _ :: _ => true end)
                        ratio (map ov_pitch overlapping_notes) :: rest)
            end
        end
  end.

(** [MIDIAnalyzer._find_missing_segments] over [timestamps_data['phonemes']]. *)
Fixpoint _find_missing_segments (midi_notes : list Note) (phonemes_ : list phoneme)
    : option (list missing_segment) :=
  match phonemes_ with
  | [] => Some []
  | (s, e, label) :: tl =>
      if String.eqb label "SP" then _find_missing_segments midi_notes tl
      else
        match coverage_ratio midi_notes s e with
        | None => None
        | Some ratio =>
            match _find_missing_segments midi_notes tl with
            | None => None
            | Some rest =>
                if Qlt_bool ratio 0.1 then
                  Some (mkMissing s e (e - s) label ratio
                          (if Qlt_bool 0 ratio then "low_coverage" else "no_midi")
                        :: rest)
                else Some rest
            end
        end
  end.

(** [sum(1 for w in coverage if w['has_midi'])]. *)
Definition count_with_midi (l : list coverage_info) : Z :=
  Z.of_nat (List.length (filter has_midi l)).

(** [count / len(coverage) if coverage else 0]. *)
Definition success_rate (l : list coverage_info) : Q :=
  match l with
  | [] => 0
  | _ :: _ => inject_Z (count_with_midi l) / inject_Z (Z.of_nat (List.length l))
  end.

(** [np.mean(ratios) if ratios else 0]. *)
Definition mean_coverage (l : list coverage_info) : Q :=
  match l with
  | [] => 0
  | _ :: _ =>
      fold_left (fun acc c => acc + ci_coverage_ratio c) l 0
      / inject_Z (Z.of_nat (List.length l))
  end.

Record statistics : Type := mkStatistics {
  word_success_rate : Q;
  phoneme_success_rate : Q;
  words_with_midi : Z;
  phonemes_with_midi : Z;
  avg_word_coverage : Q;
  avg_phoneme_coverage : Q;
  missing_segments_count : Z;
  total_missing_duration : Q
}.

(** [MIDIAnalyzer._calculate_statistics]. *)
Definition _calculate_statistics (word_coverage phoneme_coverage : list coverage_info)
    (missing_segments : list missing_segment) : statistics :=
  {| word_success_rate := success_rate word_coverage;
     phoneme_success_rate := success_rate phoneme_coverage;
     words_with_midi := count_with_midi word_coverage;
     phonemes_with_midi := count_with_midi phoneme_coverage;
     avg_word_coverage := mean_coverage word_coverage;
     avg_phoneme_coverage := mean_coverage phoneme_coverage;
     missing_segments_count := Z.of_nat (List.length missing_segments);
     total_missing_duration :=
       fold_left (fun acc seg => acc + ms_duration seg) missing_segments 0 |}.

(** The [timestamps_data] dictionary. *)
Record timestamps : Type := mkTimestamps {
  ts_words : list phoneme;
  ts_phonemes : list phoneme
}.

Record analysis_results : Type := mkResults {
  total_words : Z;
  total_phonemes : Z;
  total_midi_notes : Z;
  word_coverage : list coverage_info;
  phoneme_coverage : list coverage_info;
  missing_segments : list missing_segment;
  stats : statistics
}.

(** [MIDIAnalyzer.analyze_coverage]: [Some None] is the empty dictionary
    returned when the timestamps or the notes are missing, [None] a failure
    of a coverage ratio. *)
Definition analyze_coverage (timestamps_data : option timestamps)
    (midi_notes : list Note) : option (option analysis_results) :=
  match timestamps_data, midi_notes with
  | None, _ => Some None
  | _, [] => Some None
  | Some ts, _ :: _ =>
      match coverage_loop midi_notes (ts_words ts) 0 with
      | None => None
      | Some wc =>
          match coverage_loop midi_notes (ts_phonemes ts) 0 with
          | None => None
          | Some pc =>
              match _find_missing_segments midi_notes (ts_phonemes ts) with
              | None => None
              | Some ms =>
                  Some (Some
                    {| total_words := Z.of_nat (List.length (ts_words ts));
                       total_phonemes := Z.of_nat (List.length (ts_phonemes ts));
                       total_midi_notes := Z.of_nat (List.length midi_notes);
                       word_coverage := wc;
                       phoneme_coverage := pc;
                       missing_segments := ms;
                       stats := _calculate_statistics wc pc ms |})
              end
          end
      end
  end.

(** ** Notes of the singing-synthesis project ([json_to_vpr.py]) *)

(** [seconds_to_ticks(seconds, tempo, ticks_per_quarter)]. *)
Definition seconds_to_ticks (seconds tempo : Q) (ticks_per_quarter : Z) : Z :=
  int_of_float (seconds * (tempo / 60.0) * inject_Z ticks_per_quarter).

(** A note dictionary of the project file. *)
Record vpr_note : Type := mkVprNote {
  pos : Z;
  duration : Z;
  number : Z;
  lyric : string;
  vpr_phoneme : string;
  vpr_velocity : Z
}.

(** The loop of [merge_overlapping_notes] with [current_note] in hand. *)
Fixpoint merge_overlapping_from (current_note : vpr_note) (rest : list vpr_note)
    : list vpr_note :=
  match rest with
  | [] => [current_note]
  | next_note :: tl =>
      let current_end := (pos current_note + duration current_note)%Z in
      if (number next_note =? number current_note)%Z
         && (Z.abs (pos next_note - current_end) <=? 50)%Z
      then
        let new_end := (pos next_note + duration next_note)%Z in
        merge_overlapping_from
          {| pos := pos current_note;
             duration := (new_end - pos current_note)%Z;
             number := number current_note;
             lyric := if String.eqb (lyric current_note) (lyric next_note)
                      then lyric current_note
                      else String.append (lyric current_note) (lyric next_note);
             vpr_phoneme := vpr_phoneme current_note;
             vpr_velocity := vpr_velocity current_note |}
          tl
      else current_note :: merge_overlapping_from next_note tl
  end.

(** [merge_overlapping_notes]. *)
Definition merge_overlapping_notes (notes : list vpr_note) : list vpr_note :=
  match notes with
  | [] => notes
  | n0 :: tl => merge_overlapping_from n0 tl
  end.

(** An entry of [word_coverage] as read back from the report: every key may be
    missing. *)
Record word_data : Type := mkWordData {
  wd_has_midi : option bool;
  wd_word : option string;
  wd_start : option Q;
  wd_end : option Q;
  wd_midi_notes : option (list (option Z))
}.

Fixpoint insert_by_pos (x : vpr_note) (l : list vpr_note) : list vpr_note :=
  match l with
  | [] => [x]
  | y :: tl => if (pos x <=? pos y)%Z then x :: l else y :: insert_by_pos x tl
  end.

(** [notes.sort(key=lambda x: x['pos'])]: a stable sort. *)
Definition sort_by_pos (l : list vpr_note) : list vpr_note :=
  fold_right insert_by_pos [] l.

Section ExtractNotes.

(** [phoneme_mapping.get_phoneme], a table lookup. *)
Variable get_phoneme : string -> string.

(** The body of the loop of [extract_notes_from_json]: the note of one word,
    if any. *)
Definition note_of_word (tempo : Q) (w : word_data) : option vpr_note :=
  if negb (match wd_has_midi w with Some b => b | None => false end) then None
  else
    let word := match wd_word w with Some s => s | None => ""%string end in
    let start_time := match wd_start w with Some t => t | None => 0.0 end in
    let end_time := match wd_end w with Some t => t | None => 0.0 end in
    match (match wd_midi_notes w with Some l => l | None => [] end) with
    | [] => None
    | first_midi :: _ =>
        let start_tick := seconds_to_ticks start_time tempo 480 in
        let end_tick := seconds_to_ticks end_time tempo 480 in
        let duration := (end_tick - start_tick)%Z in
        if (duration <=? 0)%Z then None
        else
          let pitch := match first_midi with Some p => p | None => 60%Z end in
          Some {| pos := start_tick; duration := duration; number := pitch;
                  lyric := word; vpr_phoneme := get_phoneme word;
                  vpr_velocity := 64 |}
    end.

(** [extract_notes_from_json] on the [word_coverage] list of the report (the
    empty list when the key is missing). *)
Definition extract_notes_from_json (word_coverage_ : list word_data) (tempo : Q)
    : list vpr_note :=
  merge_overlapping_notes
    (sort_by_pos
       (flat_map (fun w => match note_of_word tempo w with
                           | Some n => [n]
                           | None => []
                           end) word_coverage_)).

End ExtractNotes.

(** The entry the report holds for a [coverage_info] of the analysis. *)
Definition word_data_of (c : coverage_info) : word_data :=
  {| wd_has_midi := Some (has_midi c);
     wd_word := Some (ci_label c);
     wd_start := Some (ci_start c);
     wd_end := Some (ci_end c);
     wd_midi_notes := Some (map Some (ci_midi_notes c)) |}.

(** Positions do not decrease along the list. *)
Definition pos_sorted (l : list vpr_note) : Prop :=
  StronglySorted (fun a b => (pos a <= pos b)%Z) l.

(** * Properties *)

(** ** Comparisons *)

Lemma Qlt_bool_iff (a b : Q) : Qlt_bool a b = true <-> a < b.
Proof.
  unfold Qlt_bool. rewrite negb_true_iff. split; intro H.
  - apply Qnot_le_lt. intro Hle. apply Qle_bool_iff in Hle. congruence.
  - destruct (Qle_bool b a) eqn:E; [|reflexivity].
    apply Qle_bool_iff in E. exfalso. exact (Qlt_not_le _ _ H E).
Qed.

Lemma Qlt_bool_false_iff (a b : Q) : Qlt_bool a b = false <-> b <= a.
Proof.
  unfold Qlt_bool. rewrite negb_false_iff. apply Qle_bool_iff.
Qed.

Lemma Qle_bool_false_iff (a b : Q) : Qle_bool a b = false <-> b < a.
Proof.
  rewrite <- Qlt_bool_iff. unfold Qlt_bool.
  destruct (Qle_bool a b); simpl; split; congruence.
Qed.

Lemma pymax_spec (a b : Q) :
  a <= pymax a b /\ b <= pymax a b /\ (pymax a b = a \/ pymax a b = b).
Proof.
  unfold pymax. destruct (Qlt_bool a b) eqn:E.
  - apply Qlt_bool_iff in E. repeat split; [lra|lra|now right].
  - apply Qlt_bool_false_iff in E. repeat split; [lra|lra|now left].
Qed.

Lemma pymin_spec (a b : Q) :
  pymin a b <= a /\ pymin a b <= b /\ (pymin a b = a \/ pymin a b = b).
Proof.
  unfold pymin. destruct (Qlt_bool b a) eqn:E.
  - apply Qlt_bool_iff in E. repeat split; [lra|lra|now right].
  - apply Qlt_bool_false_iff in E. repeat split; [lra|lra|now left].
Qed.

Lemma pymax_Qmax (a b : Q) : pymax a b == Qmax a b.
Proof.
  unfold pymax. destruct (Qlt_bool a b) eqn:E.
  - apply Qlt_bool_iff in E. symmetry. apply Q.max_r. lra.
  - apply Qlt_bool_false_iff in E. symmetry. apply Q.max_l. exact E.
Qed.

Lemma pymin_Qmin (a b : Q) : pymin a b == Qmin a b.
Proof.
  unfold pymin. destruct (Qlt_bool b a) eqn:E.
  - apply Qlt_bool_iff in E. symmetry. apply Q.min_r. lra.
  - apply Qlt_bool_false_iff in E. symmetry. apply Q.min_l. exact E.
Qed.

(** ** The pitch conversion against its real-number reading *)

Lemma Qfloor_log2_spec (q : Q) :
  0 < q -> 2 ^ Qfloor_log2 q <= q /\ q < 2 ^ (Qfloor_log2 q + 1).
Proof.
  intros Hq. destruct q as [n d].
  assert (Hn : (0 < n)%Z) by (unfold Qlt in Hq; simpl in Hq; lia).
  unfold Qfloor_log2. cbn [Qnum Qden].
  set (a := Z.log2 n). set (b := Z.log2 (Zpos d)).
  assert (Ha : (0 <= a)%Z) by apply Z.log2_nonneg.
  assert (Hb : (0 <= b)%Z) by apply Z.log2_nonneg.
  destruct (Z.log2_spec n Hn) as [Ha1 Ha2]. fold a in Ha1, Ha2.
  destruct (Z.log2_spec (Zpos d) eq_refl) as [Hb1 Hb2]. fold b in Hb1, Hb2.
  rewrite Z.pow_succ_r in Ha2, Hb2 by assumption.
  assert (H2 : ~ 2 == 0) by (intro H; discriminate H).
  set (A := 2 ^ a). set (B := 2 ^ b).
  assert (EA : inject_Z (2 ^ a) == A) by (apply Zpower_Qpower; exact Ha).
  assert (EB : inject_Z (2 ^ b) == B) by (apply Zpower_Qpower; exact Hb).
  assert (PA : 0 < A) by (apply Qpower_0_lt; reflexivity).
  assert (PB : 0 < B) by (apply Qpower_0_lt; reflexivity).
  set (N := inject_Z n). set (D := inject_Z (Zpos d)).
  assert (HA1 : A <= N) by (rewrite <- EA; unfold N; rewrite <- Zle_Qle; exact Ha1).
  assert (HA2 : N < 2 * A).
  { rewrite <- EA. unfold N. change 2 with (inject_Z 2). rewrite <- inject_Z_mult.
    rewrite <- Zlt_Qlt. exact Ha2. }
  assert (HB1 : B <= D) by (rewrite <- EB; unfold D; rewrite <- Zle_Qle; exact Hb1).
  assert (HB2 : D < 2 * B).
  { rewrite <- EB. unfold D. change 2 with (inject_Z 2). rewrite <- inject_Z_mult.
    rewrite <- Zlt_Qlt. exact Hb2. }
  assert (PD : 0 < D) by lra.
  assert (Eq : (n # d) * D == N).
  { rewrite (Qmake_Qdiv n d). fold N D. field. intro HD. rewrite HD in PD.
    discriminate PD. }
  set (x := n # d) in *.
  assert (EX : 2 ^ (a - b) * B == A).
  { unfold A, B. rewrite Qpower_minus by exact H2. field. fold B. lra. }
  assert (EX1 : 2 ^ (a - b + 1) == 2 * 2 ^ (a - b)).
  { rewrite Qpower_plus by exact H2. change (2 ^ 1) with 2. ring. }
  assert (EX2 : 2 * 2 ^ (a - b - 1) == 2 ^ (a - b)).
  { replace (a - b)%Z with ((a - b - 1) + 1)%Z at 2 by lia.
    rewrite Qpower_plus by exact H2. change (2 ^ 1) with 2. ring. }
  assert (PX : 0 < 2 ^ (a - b)) by (apply Qpower_0_lt; reflexivity).
  set (X := 2 ^ (a - b)) in *.
  destruct (Qle_bool X x) eqn:E.
  - apply Qle_bool_iff in E. split; [exact E|].
    rewrite EX1. nra.
  - apply Qle_bool_false_iff in E.
    replace (a - b - 1 + 1)%Z with (a - b)%Z by lia. fold X.
    split; [|exact E].
    set (Y := 2 ^ (a - b - 1)) in *. nra.
Qed.

Section RealSemantics.
Local Open Scope R_scope.

Lemma ln2_pos : 0 < ln 2.
Proof. pose proof ln_lt_2. lra. Qed.

Lemma Q2R_zero : Q2R 0 = 0.
Proof. unfold Q2R; simpl; lra. Qed.

Lemma Q2R_one : Q2R 1 = 1.
Proof. unfold Q2R; simpl; lra. Qed.

Lemma Q2R_two : Q2R 2 = 2.
Proof. unfold Q2R; simpl; lra. Qed.

Lemma Q2R_Qpower_positive (q : Q) (p : positive) :
  Q2R (Qpower_positive q p) = Q2R q ^ Pos.to_nat p.
Proof.
  induction p using Pos.peano_ind.
  - simpl. lra.
  - rewrite <- Pos.add_1_l, Pos2Nat.inj_add.
    rewrite (Qeq_eqR _ _ (Qpower_plus_positive q 1 p)).
    rewrite Q2R_mult, IHp. simpl. lra.
Qed.

Lemma Q2R_Qpower2 (k : Z) : Q2R (2 ^ k) = powerRZ 2 k.
Proof.
  destruct k as [|p|p]; simpl.
  - apply Q2R_one.
  - rewrite Q2R_Qpower_positive, Q2R_two. reflexivity.
  - rewrite Q2R_inv.
    + rewrite Q2R_Qpower_positive, Q2R_two. reflexivity.
    + apply Qpower_not_0_positive. intro H; discriminate H.
Qed.

Lemma ln_powerRZ2 (k : Z) : ln (powerRZ 2 k) = IZR k * ln 2.
Proof.
  rewrite powerRZ_Rpower by lra. unfold Rpower. apply ln_exp.
Qed.

Lemma Int_part_between (x : R) (z : Z) : IZR z <= x < IZR z + 1 -> Int_part x = z.
Proof.
  intros [H1 H2]. symmetry. apply Int_part_spec. lra.
Qed.

(** For [0 < r], [12 * log2 r] lies in [[k, k+1)] for [k = floor(log2(r^12))]. *)
Lemma log2R_12_bounds (r : Q) :
  (0 < r)%Q ->
  IZR (Qfloor_log2 (r ^ 12)) <= 12 * log2R (Q2R r) < IZR (Qfloor_log2 (r ^ 12)) + 1
  /\ ((r ^ 12 == 2 ^ Qfloor_log2 (r ^ 12))%Q <->
      12 * log2R (Q2R r) = IZR (Qfloor_log2 (r ^ 12))).
Proof.
  intros Hr.
  assert (HrR : 0 < Q2R r) by (rewrite <- Q2R_zero; apply Qlt_Rlt; exact Hr).
  assert (Hr12 : (0 < r ^ 12)%Q) by (apply Qpower_0_lt; exact Hr).
  destruct (Qfloor_log2_spec _ Hr12) as [Hlo Hhi].
  set (k := Qfloor_log2 (r ^ 12)) in *.
  assert (E12 : Q2R (r ^ 12) = Q2R r ^ 12).
  { change (r ^ 12)%Q with (Qpower_positive r 12). rewrite Q2R_Qpower_positive.
    reflexivity. }
  assert (L12 : ln (Q2R (r ^ 12)) = 12 * ln (Q2R r)).
  { rewrite E12, ln_pow by exact HrR. simpl INR. f_equal. lra. }
  assert (P12 : 0 < Q2R (r ^ 12)) by (rewrite <- Q2R_zero; apply Qlt_Rlt; exact Hr12).
  assert (Pk : forall j, 0 < powerRZ 2 j) by (intro j; apply powerRZ_lt; lra).
  pose proof ln2_pos as L2.
  assert (B1 : IZR k * ln 2 <= 12 * ln (Q2R r)).
  { rewrite <- L12, <- ln_powerRZ2. apply Qle_Rle in Hlo. rewrite Q2R_Qpower2 in Hlo.
    destruct Hlo as [Hlt|Heq].
    - left. apply ln_increasing; [apply Pk | exact Hlt].
    - right. rewrite Heq. reflexivity. }
  assert (B2 : 12 * ln (Q2R r) < (IZR k + 1) * ln 2).
  { rewrite <- L12, <- plus_IZR, <- ln_powerRZ2. apply Qlt_Rlt in Hhi.
    rewrite Q2R_Qpower2 in Hhi. apply ln_increasing; [exact P12 | exact Hhi]. }
  assert (EY : 12 * log2R (Q2R r) * ln 2 = 12 * ln (Q2R r)).
  { unfold log2R. field. lra. }
  set (y := 12 * log2R (Q2R r)) in *.
  split; [split|split].
  - apply Rmult_le_reg_r with (ln 2); [exact L2|]. rewrite EY. exact B1.
  - apply Rmult_lt_reg_r with (ln 2); [exact L2|]. rewrite EY. exact B2.
  - intro E. apply Qeq_eqR in E. rewrite Q2R_Qpower2 in E.
    apply Rmult_eq_reg_r with (ln 2); [|lra].
    rewrite EY, <- L12, E. apply ln_powerRZ2.
  - intro Ey. apply eqR_Qeq. rewrite Q2R_Qpower2.
    apply ln_inv; [exact P12 | apply Pk |].
    rewrite L12, ln_powerRZ2, <- EY, Ey. reflexivity.
Qed.

(** The executable conversion computes [int(69 + 12 * log2(r))] over the
    reals. *)
Lemma int_69_12log2_real (r : Q) :
  (0 < r)%Q -> int_69_12log2 r = Rtrunc (69 + 12 * log2R (Q2R r)).
Proof.
  intros Hr. destruct (log2R_12_bounds r Hr) as [[Y1 Y2] Yeq].
  unfold int_69_12log2.
  set (k := Qfloor_log2 (r ^ 12)) in *.
  set (y := 12 * log2R (Q2R r)) in *.
  unfold Rtrunc.
  destruct (Z.leb_spec 0 (69 + k)) as [Hk|Hk].
  - apply IZR_le in Hk. rewrite plus_IZR in Hk.
    destruct (Rle_dec 0 (69 + y)) as [_|Hn]; [|exfalso; lra].
    symmetry. apply Int_part_between. rewrite plus_IZR. lra.
  - assert (Hk' : (69 + k + 1 <= 0)%Z) by lia.
    apply IZR_le in Hk'. rewrite !plus_IZR in Hk'.
    destruct (Rle_dec 0 (69 + y)) as [Hp|_]; [exfalso; lra|].
    destruct (Qeq_bool (r ^ 12) (2 ^ k)) eqn:E.
    + apply Qeq_bool_iff in E. apply Yeq in E.
      rewrite E. replace (- (69 + IZR k)) with (IZR (- (69 + k))).
      * rewrite Int_part_between with (z := (- (69 + k))%Z); [lia|lra].
      * rewrite opp_IZR, plus_IZR. reflexivity.
    + assert (Hne : y <> IZR k).
      { intro Ey. apply Qeq_bool_neq in E. apply E. apply Yeq. exact Ey. }
      rewrite Int_part_between with (z := (- (69 + k + 1))%Z); [lia|].
      rewrite opp_IZR, !plus_IZR. lra.
Qed.

(** [hz_to_midi_note] is [int(69 + 12 * log2(hz / 440))] evaluated over the
    reals, and 0 on [hz <= 0]. *)
Theorem hz_to_midi_note_real (hz : Q) :
  hz_to_midi_note hz = hz_to_midi_note_R (Q2R hz).
Proof.
  unfold hz_to_midi_note, hz_to_midi_note_R.
  destruct (Qle_bool hz 0) eqn:E.
  - apply Qle_bool_iff, Qle_Rle in E. rewrite Q2R_zero in E.
    destruct (Rle_dec (Q2R hz) 0); [reflexivity | contradiction].
  - apply Qle_bool_false_iff in E.
    assert (HR : 0 < Q2R hz) by (rewrite <- Q2R_zero; apply Qlt_Rlt; exact E).
    destruct (Rle_dec (Q2R hz) 0) as [Hle|_]; [exfalso; lra|].
    rewrite int_69_12log2_real.
    + rewrite Q2R_div by (intro H; discriminate H).
      replace (Q2R 440) with 440 by (unfold Q2R; simpl; lra). reflexivity.
    + apply Qlt_shift_div_l; [reflexivity | lra].
Qed.

End RealSemantics.

(** ** Frequency to pitch (C1) *)

Lemma log2R_lower (r : Q) (n : positive) (k : Z) :
  0 < r -> 2 ^ k < Qpower_positive r n ->
  (IZR k < INR (Pos.to_nat n) * log2R (Q2R r))%R.
Proof.
  intros Hr H.
  assert (HrR : (0 < Q2R r)%R) by (rewrite <- Q2R_zero; apply Qlt_Rlt; exact Hr).
  apply Qlt_Rlt in H. rewrite Q2R_Qpower2, Q2R_Qpower_positive in H.
  assert (Pk : (0 < powerRZ 2 k)%R) by (apply powerRZ_lt; lra).
  apply ln_increasing in H; [|exact Pk].
  rewrite ln_powerRZ2, ln_pow in H by exact HrR.
  pose proof ln2_pos as L2.
  apply Rmult_lt_reg_r with (ln 2); [exact L2|].
  unfold log2R.
  replace (INR (Pos.to_nat n) * (ln (Q2R r) / ln 2) * ln 2)%R
    with (INR (Pos.to_nat n) * ln (Q2R r))%R by (field; lra).
  exact H.
Qed.

Lemma Q2R_466_440 : Q2R (466 / 440) = (466 / 440)%R.
Proof.
  rewrite Q2R_div by (intro H; discriminate H).
  unfold Q2R; simpl. lra.
Qed.

(** At 466 Hz the value [69 + 12 * log2(466 / 440)] lies strictly between
    69.5 and 70. *)
Lemma semitone_466_bounds :
  (69 + 1 / 2 < 69 + 12 * log2R (466 / 440) < 70)%R.
Proof.
  rewrite <- Q2R_466_440.
  assert (Hr : 0 < 466 / 440) by reflexivity.
  destruct (log2R_12_bounds (466 / 440) Hr) as [[_ Hhi] _].
  assert (Ek : Qfloor_log2 ((466 / 440) ^ 12) = 0%Z) by (vm_compute; reflexivity).
  rewrite Ek in Hhi.
  assert (Hlo := log2R_lower (466 / 440) 24 1 Hr).
  assert (Hp : 2 ^ 1 < Qpower_positive (466 / 440) 24) by (vm_compute; reflexivity).
  specialize (Hlo Hp).
  replace (INR (Pos.to_nat 24)) with 24%R in Hlo by (simpl; lra).
  lra.
Qed.

(** C1.  [hz_to_midi_note] truncates instead of rounding: at 466 Hz the code
    returns 69 (also in its real-number reading), while the nearest integer
    semitone to [69 + 12 * log2(466 / 440)] is 70 and 69 is not nearest. *)
Theorem hz_to_midi_note_466_truncates :
  hz_to_midi_note 466 = 69%Z
  /\ hz_to_midi_note_R 466 = 69%Z
  /\ nearest_semitone 466 70
  /\ ~ nearest_semitone 466 69.
Proof.
  pose proof semitone_466_bounds as [Hlo Hhi].
  assert (E : hz_to_midi_note 466 = 69%Z) by (vm_compute; reflexivity).
  split; [exact E|]. split.
  - rewrite <- E, hz_to_midi_note_real. f_equal. unfold Q2R; simpl. lra.
  - unfold nearest_semitone. split.
    + apply Rabs_le. lra.
    + intro H. unfold Rabs in H. destruct (Rcase_abs _) in H; lra.
Qed.

(** Whenever the value [69 + 12 * log2(hz / 440)] is non-negative the code
    returns its floor, hence never rounds up. *)
Lemma hz_to_midi_note_floor (hz : Q) :
  0 < hz -> (0 <= 69 + 12 * log2R (Q2R hz / 440))%R ->
  hz_to_midi_note hz = Int_part (69 + 12 * log2R (Q2R hz / 440)).
Proof.
  intros Hhz Hx. rewrite hz_to_midi_note_real. unfold hz_to_midi_note_R.
  assert (HR : (0 < Q2R hz)%R) by (rewrite <- Q2R_zero; apply Qlt_Rlt; exact Hhz).
  destruct (Rle_dec (Q2R hz) 0) as [Hle|_]; [exfalso; lra|].
  unfold Rtrunc. destruct (Rle_dec 0 (69 + 12 * log2R (Q2R hz / 440))); [reflexivity|contradiction].
Qed.

(** Downstream of the truncation: 5 frames at 440 Hz followed by 5 frames at
    466 Hz come out as a single note of pitch 69. *)
Example segment_440_466_single_note :
  segment [] None 0.02 0.01 (repeat (Hz 440) 5 ++ repeat (Hz 466) 5)
  = [mkNote 80 69 (0 * 0.02) (10 * 0.02)].
Proof. vm_compute. reflexivity. Qed.

(** ** Merging (C5, C6) *)

Lemma merge_from_unfold (gap : Q) (prev n : Note) (tl : list Note) :
  merge_from gap prev (n :: tl) =
  if merge_cond gap prev n then merge_from gap (set_end prev (end_ n)) tl
  else prev :: merge_from gap n tl.
Proof. reflexivity. Qed.

(** The first merged note keeps the pitch and the start of the first input
    note; only its end moves. *)
Lemma merge_from_head (gap : Q) (rest : list Note) :
  forall prev, exists h t,
    merge_from gap prev rest = h :: t /\ pitch h = pitch prev /\ start h = start prev.
Proof.
  induction rest as [|n tl IH]; intros prev.
  - exists prev, []. repeat split.
  - rewrite merge_from_unfold. destruct (merge_cond gap prev n).
    + destruct (IH (set_end prev (end_ n))) as (h & t & E & Hp & Hs).
      exists h, t. repeat split; assumption.
    + exists prev, (merge_from gap n tl). repeat split.
Qed.

Lemma merge_cond_head (gap : Q) (prev n h : Note) :
  pitch h = pitch n -> start h = start n ->
  merge_cond gap prev h = merge_cond gap prev n.
Proof. intros Hp Hs. unfold merge_cond. rewrite Hp, Hs. reflexivity. Qed.

(** Running the loop again on its own output changes nothing. *)
Lemma merge_from_fixpoint (gap : Q) (rest : list Note) :
  forall prev h t,
    merge_from gap prev rest = h :: t -> merge_from gap h t = h :: t.
Proof.
  induction rest as [|n tl IH]; intros prev h t E.
  - simpl in E. injection E as <- <-. reflexivity.
  - rewrite merge_from_unfold in E. destruct (merge_cond gap prev n) eqn:C.
    + exact (IH _ _ _ E).
    + injection E as <- <-.
      destruct (merge_from_head gap tl n) as (h' & t' & E' & Hp & Hs).
      rewrite E'. rewrite merge_from_unfold.
      rewrite (merge_cond_head gap prev n h' Hp Hs), C.
      f_equal. exact (IH _ _ _ E').
Qed.

(** C5.  The Merger is idempotent: merging the merged sequence again returns
    it unchanged, for every note list (sorted or not) and every gap
    threshold. *)
Theorem merge_short_splits_idempotent (env : Env) (S : list Note) (gap_thresh : option Q) :
  _merge_short_splits env (_merge_short_splits env S gap_thresh) gap_thresh
  = _merge_short_splits env S gap_thresh.
Proof.
  unfold _merge_short_splits.
  destruct S as [|n0 tl]; [reflexivity|].
  set (gap := match gap_thresh with
              | Some g => g
              | None => _getenv_float (MERGE_GAP_S env) 0.06
              end).
  destruct (merge_from_head gap tl n0) as (h & t & E & _ & _).
  rewrite E. exact (merge_from_fixpoint gap tl n0 h t E).
Qed.

Lemma time_ordered_app_one (l : list Note) (x : Note) :
  time_ordered l -> Forall (fun a => end_ a <= start x) l -> time_ordered (l ++ [x]).
Proof.
  unfold time_ordered. induction 1 as [|a l Ha Hl IH]; intros Hx; simpl.
  - constructor; constructor.
  - inversion Hx as [|? ? Hax Hlx]; subst. constructor.
    + apply Forall_app. split; [exact Ha|]. constructor; [exact Hax|constructor].
    + apply IH. exact Hlx.
Qed.

(** With a negative threshold the merge loop absorbs nothing on a
    time-ordered list. *)
Lemma merge_from_time_ordered (gap : Q) (rest : list Note) :
  gap < 0 -> forall prev, time_ordered (prev :: rest) ->
  merge_from gap prev rest = prev :: rest.
Proof.
  intros Hgap. induction rest as [|n tl IH]; intros prev Hord; [reflexivity|].
  rewrite merge_from_unfold.
  inversion Hord as [|? ? Hprev Hrest]; subst.
  inversion Hprev as [|? ? Hpn _]; subst.
  assert (C : merge_cond gap prev n = false).
  { unfold merge_cond. apply andb_false_iff. right.
    apply Qle_bool_false_iff. lra. }
  rewrite C. f_equal. apply IH. exact Hrest.
Qed.

Section SegmenterOrder.

Variable force_split_phonemes : list string.
Variable rosvot_metadata : option metadata.
Variable time_per_frame : Q.
Variable min_note_duration : Q.
Hypothesis tpf_nonneg : 0 <= time_per_frame.

Lemma frame_time_mono (i : Z) :
  inject_Z i * time_per_frame <= inject_Z (i + 1) * time_per_frame.
Proof. rewrite inject_Z_plus. change (inject_Z 1) with 1. nra. Qed.

Lemma Forall_end_le_weaken (l : list Note) (a b : Q) :
  a <= b -> Forall (fun n => end_ n <= a) l -> Forall (fun n => end_ n <= b) l.
Proof.
  intros Hab H. eapply Forall_impl; [|exact H]. simpl. intros n Hn. lra.
Qed.

Lemma seg_inv_emit (l : list Note) (cur : Z) (s t : Q) :
  time_ordered l -> Forall (fun n => end_ n <= s) l -> s <= t ->
  time_ordered (l ++ [mkNote 80 cur s t])
  /\ Forall (fun n => end_ n <= t) (l ++ [mkNote 80 cur s t]).
Proof.
  intros Hord Hend Hst. split.
  - apply time_ordered_app_one; [exact Hord|]. exact Hend.
  - apply Forall_app. split.
    + apply Forall_end_le_weaken with s; assumption.
    + constructor; [simpl; lra|constructor].
Qed.

Lemma seg_step_inv (i : Z) (st : seg_state) (x : frame) :
  seg_inv time_per_frame i st -> seg_inv time_per_frame (i + 1)
    (seg_step force_split_phonemes rosvot_metadata time_per_frame min_note_duration
              st i x).
Proof.
  intros [Hord Hcur]. pose proof (frame_time_mono i) as Hmono.
  unfold seg_step, seg_inv.
  destruct (voiced x); destruct (current_note st) as [cur|] eqn:Ecur; simpl.
  - destruct Hcur as [Hs Hend].
    destruct (Qlt_bool 0.5 (inject_Z (Z.abs (hz_to_midi_note (hz_value x) - cur)))
              || force_cut_voiced force_split_phonemes rosvot_metadata
                   time_per_frame (inject_Z i * time_per_frame)); simpl.
    + destruct (seg_inv_emit (seg_notes st) cur _ _ Hord Hend Hs) as [H1 H2].
      destruct (Qle_bool min_note_duration _ || _); simpl.
      * split; [exact H1|]. split; [exact Hmono|exact H2].
      * split; [exact Hord|]. split; [exact Hmono|].
        apply Forall_end_le_weaken with (current_start_time st); assumption.
    + rewrite Ecur. split; [exact Hord|]. split; [lra|exact Hend].
  - split; [exact Hord|]. split; [exact Hmono|exact Hcur].
  - destruct Hcur as [Hs Hend].
    destruct (seg_inv_emit (seg_notes st) cur _ _ Hord Hend Hs) as [H1 H2].
    destruct (Qle_bool min_note_duration _ || _); simpl.
    + split; [exact H1|]. apply Forall_end_le_weaken with (inject_Z i * time_per_frame);
        assumption.
    + split; [exact Hord|].
      apply Forall_end_le_weaken with (current_start_time st); [lra|exact Hend].
  - rewrite Ecur. split; [exact Hord|].
    apply Forall_end_le_weaken with (inject_Z i * time_per_frame); assumption.
Qed.

Lemma seg_loop_inv (frames : list frame) :
  forall i st, seg_inv time_per_frame i st ->
  seg_inv time_per_frame (i + Z.of_nat (List.length frames))
    (seg_loop force_split_phonemes rosvot_metadata time_per_frame min_note_duration
              frames i st).
Proof.
  induction frames as [|x tl IH]; intros i st Hinv; simpl List.length.
  - simpl. rewrite Z.add_0_r. exact Hinv.
  - rewrite Nat2Z.inj_succ.
    replace (i + Z.succ (Z.of_nat (List.length tl)))%Z
      with ((i + 1) + Z.of_nat (List.length tl))%Z by lia.
    simpl. apply IH. apply seg_step_inv. exact Hinv.
Qed.

(** The notes of the frame loop and the final flush are time-ordered. *)
Lemma segment_time_ordered (pitch_data : list frame) :
  time_ordered (segment force_split_phonemes rosvot_metadata time_per_frame
                        min_note_duration pitch_data).
Proof.
  unfold segment, seg_finish.
  assert (H0 : seg_inv time_per_frame 0 seg_init).
  { split; [constructor|]. simpl. constructor. }
  pose proof (seg_loop_inv pitch_data 0 seg_init H0) as [Hord Hcur].
  rewrite Z.add_0_l in Hcur.
  destruct (current_note _) as [cur|]; [|exact Hord].
  destruct Hcur as [Hs Hend].
  destruct (Qle_bool _ _); [|exact Hord].
  apply (seg_inv_emit _ cur _ _ Hord Hend Hs).
Qed.

End SegmenterOrder.

(** C6.  The primary pass calls the merge with threshold -1.0; with a
    non-negative frame duration the emitted notes are time-ordered with
    non-negative gaps, so the call returns the Segmenter's notes unchanged. *)
Theorem primary_pass_merge_is_identity (env : Env) (force_split_phonemes : list string)
    (rosvot_metadata : option metadata) (time_per_frame min_note_duration : Q)
    (pitch_data : list frame) :
  0 <= time_per_frame ->
  _merge_short_splits env
    (segment force_split_phonemes rosvot_metadata time_per_frame min_note_duration
             pitch_data) (Some (-(1))%Q)
  = segment force_split_phonemes rosvot_metadata time_per_frame min_note_duration
            pitch_data.
Proof.
  intros Htpf.
  pose proof (segment_time_ordered force_split_phonemes rosvot_metadata
                time_per_frame min_note_duration Htpf pitch_data) as Hord.
  unfold _merge_short_splits.
  destruct (segment _ _ _ _ _) as [|n0 tl]; [reflexivity|].
  apply merge_from_time_ordered; [reflexivity|exact Hord].
Qed.

(** The estimate of the Calibrator is at least 15 ms when it is taken, so the
    frame duration is non-negative whenever the nominal one is. *)
Lemma infer_time_per_frame_nonneg (get_duration : string -> option Q)
    (pitch_data : list frame) (md : option metadata) (default_tpf : Q) :
  0 <= default_tpf ->
  0 <= _infer_time_per_frame get_duration pitch_data md default_tpf.
Proof.
  intros Hd. unfold _infer_time_per_frame.
  destruct md as [m|]; [|exact Hd].
  destruct (wav_fn m) as [fn|]; [|exact Hd].
  destruct (get_duration fn) as [dur|]; [|exact Hd].
  destruct (Qle_bool 0.015 _) eqn:E; simpl; [|exact Hd].
  destruct (Qle_bool _ 0.030); [|exact Hd].
  apply Qle_bool_iff in E. apply Qle_trans with 0.015; [discriminate|exact E].
Qed.

(** With a positive hop length and sample rate, what [create_midi_from_pitch]
    returns, when it returns notes, is the Segmenter's output on the bridged
    track: the merge step changes nothing. *)
Lemma create_midi_from_pitch_is_segment (get_duration : string -> option Q)
    (env : Env) (self : MIDIConverter) (pitch_data : list frame)
    (min_note_duration : option Q) (rosvot_metadata : option metadata)
    (notes : list Note) :
  (0 < hop_length self)%Z -> (0 < sample_rate self)%Z ->
  create_midi_from_pitch get_duration env self pitch_data min_note_duration
                         rosvot_metadata = Some notes ->
  notes =
  segment (FORCE_SPLIT_PHONEMES env) rosvot_metadata
    (_infer_time_per_frame get_duration pitch_data rosvot_metadata
       (inject_Z (hop_length self) / inject_Z (sample_rate self)))
    (match min_note_duration with
     | Some m => m
     | None => _getenv_float (MIN_NOTE_S env) 0.01
     end)
    (_bridge_unvoiced_gaps pitch_data
       (int_of_float
          (_getenv_float (BRIDGE_GAP_MS env) 0.0 / 1000.0
           / _infer_time_per_frame get_duration pitch_data rosvot_metadata
               (inject_Z (hop_length self) / inject_Z (sample_rate self))))).
Proof.
  intros Hhop Hsr. unfold create_midi_from_pitch.
  destruct (sample_rate self =? 0)%Z; [discriminate|].
  destruct (Qeq_bool _ 0); [discriminate|].
  intros H. injection H as <-.
  set (tpf := _infer_time_per_frame get_duration pitch_data rosvot_metadata
                (inject_Z (hop_length self) / inject_Z (sample_rate self))).
  assert (Htpf : 0 <= tpf).
  { apply infer_time_per_frame_nonneg. apply Qle_shift_div_l.
    - change 0 with (inject_Z 0). rewrite <- Zlt_Qlt. exact Hsr.
    - rewrite Qmult_0_l. change 0 with (inject_Z 0). rewrite <- Zle_Qle. lia. }
  unfold _merge_short_splits.
  pose proof (segment_time_ordered (FORCE_SPLIT_PHONEMES env) rosvot_metadata tpf
                (match min_note_duration with
                 | Some m => m
                 | None => _getenv_float (MIN_NOTE_S env) 0.01
                 end) Htpf
                (_bridge_unvoiced_gaps pitch_data
                   (int_of_float (_getenv_float (BRIDGE_GAP_MS env) 0.0 / 1000.0 / tpf))))
    as Hord.
  destruct (segment _ _ _ _ _) as [|n0 tl]; [reflexivity|].
  apply merge_from_time_ordered; [reflexivity|exact Hord].
Qed.

Lemma primary_pass_merge_witness :
  _merge_short_splits default_env
    (segment [] None 0.02 0.01 [Hz 440; Hz 440; Hz 0; Hz 440; Hz 440]) (Some (-(1))%Q)
  = segment [] None 0.02 0.01 [Hz 440; Hz 440; Hz 0; Hz 440; Hz 440].
Proof.
  apply (primary_pass_merge_is_identity default_env [] None 0.02 0.01).
  vm_compute. discriminate.
Defined.

(** ** Gap bridging (C10) *)

Lemma set_range_length (l : list frame) :
  forall k a b v, List.length (set_range l k a b v) = List.length l.
Proof.
  induction l as [|x tl IH]; intros k a b v; simpl; [reflexivity|].
  rewrite IH. reflexivity.
Qed.

Lemma set_range_nth_error (l : list frame) :
  forall k a b v j,
    nth_error (set_range l k a b v) j =
    match nth_error l j with
    | Some x =>
        Some (if (a <=? k + Z.of_nat j)%Z && (k + Z.of_nat j <? b)%Z then v else x)
    | None => None
    end.
Proof.
  induction l as [|x tl IH]; intros k a b v j.
  - destruct j; reflexivity.
  - destruct j as [|j].
    + simpl. rewrite Z.add_0_r. reflexivity.
    + simpl set_range. simpl nth_error. rewrite IH.
      replace (k + 1 + Z.of_nat j)%Z with (k + Z.of_nat (S j))%Z by lia.
      reflexivity.
Qed.

Lemma set_slice_length (f0 : list frame) (a b : Z) (v : frame) :
  List.length (set_slice f0 a b v) = List.length f0.
Proof. apply set_range_length. Qed.

(** [f0[a:b] = v] leaves every index outside [[a, b)] alone, for
    [0 <= a <= len(f0)]. *)
Lemma set_slice_outside (f0 : list frame) (a b : Z) (v : frame) (j : nat) (x : frame) :
  (0 <= a <= Z.of_nat (List.length f0))%Z -> (0 <= b)%Z ->
  nth_error f0 j = Some x ->
  ~ (a <= Z.of_nat j < b)%Z ->
  nth_error (set_slice f0 a b v) j = Some x.
Proof.
  intros Ha Hb Hj Hout. unfold set_slice. rewrite set_range_nth_error, Hj.
  unfold slice_bound.
  destruct (Z.ltb_spec a 0) as [?|_]; [lia|].
  destruct (Z.ltb_spec b 0) as [?|_]; [lia|].
  destruct (Z.leb_spec (Z.min a (Z.of_nat (List.length f0))) (0 + Z.of_nat j));
    destruct (Z.ltb_spec (0 + Z.of_nat j) (Z.min b (Z.of_nat (List.length f0))));
    simpl; try reflexivity.
  exfalso. apply Hout. lia.
Qed.

Lemma bridge_step_inv (orig : list frame) (max_gap_frames : Z) (st : bridge_state)
    (i : nat) (x : frame) :
  nth_error orig i = Some x ->
  bridge_inv orig (Z.of_nat i) st ->
  bridge_inv orig (Z.of_nat i + 1) (bridge_step max_gap_frames st (Z.of_nat i) (voiced x)).
Proof.
  intros Hx (Hlen & Hkeep & Hrun & Hopen).
  assert (Hi : (i < List.length orig)%nat) by (apply nth_error_Some; congruence).
  unfold bridge_step. destruct (voiced x) eqn:Vx; simpl negb; cbv iota.
  - destruct ((0 <? bs_run st)%Z && (bs_run st <=? max_gap_frames)%Z) eqn:Efill.
    + apply andb_true_iff in Efill. destruct Efill as [Hpos _].
      apply Z.ltb_lt in Hpos. destruct (Hopen Hpos) as (Hs0 & Hsum & Hunv).
      split; [|split; [|split]]; simpl.
      * rewrite set_slice_length. exact Hlen.
      * intros j y Hj Vy. apply set_slice_outside.
        -- rewrite Hlen. lia.
        -- lia.
        -- apply Hkeep; assumption.
        -- intros Hin. rewrite (Hunv j y Hin Hj) in Vy. discriminate Vy.
      * lia.
      * lia.
    + split; [|split; [|split]]; simpl; try assumption; lia.
  - split; [|split; [|split]]; simpl; try assumption; [lia|].
    intros _. destruct (Z.eqb_spec (bs_run st) 0) as [E0|N0].
    + split; [lia|]. split; [lia|].
      intros j y Hin Hj. assert (j = i) by lia. subst j.
      rewrite Hx in Hj. injection Hj as <-. exact Vx.
    + assert (Hpos : (0 < bs_run st)%Z) by lia.
      destruct (Hopen Hpos) as (Hs0 & Hsum & Hunv).
      split; [exact Hs0|]. split; [lia|].
      intros j y Hin Hj.
      destruct (Z.eq_dec (Z.of_nat j) (Z.of_nat i)) as [E|N].
      * assert (j = i) by lia. subst j. rewrite Hx in Hj. injection Hj as <-. exact Vx.
      * apply (Hunv j y); [lia|exact Hj].
Qed.

Lemma bridge_loop_inv (orig : list frame) (max_gap_frames : Z) (post : list frame) :
  forall pre st,
    orig = pre ++ post ->
    bridge_inv orig (Z.of_nat (List.length pre)) st ->
    bridge_inv orig (Z.of_nat (List.length orig))
      (bridge_loop max_gap_frames (map voiced post) (Z.of_nat (List.length pre)) st).
Proof.
  induction post as [|x tl IH]; intros pre st Horig Hinv.
  - simpl. rewrite app_nil_r in Horig. subst pre. exact Hinv.
  - simpl map. simpl bridge_loop.
    assert (Hx : nth_error orig (List.length pre) = Some x).
    { rewrite Horig, nth_error_app2 by lia. rewrite Nat.sub_diag. reflexivity. }
    specialize (IH (pre ++ [x]) (bridge_step max_gap_frames st
                                   (Z.of_nat (List.length pre)) (voiced x))).
    rewrite length_app in IH. simpl List.length in IH.
    rewrite Nat2Z.inj_add in IH. simpl Z.of_nat in IH.
    apply IH.
    + rewrite <- app_assoc. exact Horig.
    + apply bridge_step_inv; assumption.
Qed.

(** C10.  The Gap Bridger returns a track of the input's length in which every
    frame that was voiced in the input keeps its input value. *)
Theorem bridge_keeps_voiced_frames (f0 : list frame) (max_gap_frames : Z) :
  List.length (_bridge_unvoiced_gaps f0 max_gap_frames) = List.length f0
  /\ forall (i : nat) (x : frame),
       nth_error f0 i = Some x -> voiced x = true ->
       nth_error (_bridge_unvoiced_gaps f0 max_gap_frames) i = Some x.
Proof.
  unfold _bridge_unvoiced_gaps.
  assert (H0 : bridge_inv f0 (Z.of_nat (List.length (@nil frame)))
                 {| bs_f0 := f0; bs_run := 0; bs_start := -1 |}).
  { split; [reflexivity|]. split; [intros; assumption|]. split; [simpl; lia|].
    simpl. lia. }
  destruct (bridge_loop_inv f0 max_gap_frames f0 [] _ eq_refl H0) as (Hlen & Hkeep & _).
  simpl List.length in Hlen, Hkeep. simpl Z.of_nat in Hlen, Hkeep.
  split; [exact Hlen|exact Hkeep].
Qed.

Lemma bridge_keeps_voiced_witness :
  nth_error (_bridge_unvoiced_gaps scenario_track 2) 12 = Some (Hz 220).
Proof.
  apply (proj2 (bridge_keeps_voiced_frames scenario_track 2) 12%nat (Hz 220)).
  - reflexivity.
  - reflexivity.
Defined.

(** ** The bridging scenario (C4) *)

(** C4.  On 10 frames at 220 Hz, 2 unvoiced frames and 10 frames at 220 Hz,
    with a frame duration of 0.02 s (hop 441 at 22050 Hz) and a bridge limit of
    2 frames (40 ms), the Gap Bridger fills the two frames with 220 Hz and the
    primary pass emits exactly one note, [0, 0.44) at pitch 57. *)
Theorem bridged_scenario_single_note (get_duration : string -> option Q) :
  Forall (fun x => voiced x = true /\ hz_value x == 220)
         (_bridge_unvoiced_gaps scenario_track 2)
  /\ exists n : Note,
       create_midi_from_pitch get_duration
         {| MIN_NOTE_S := None; BRIDGE_GAP_MS := Some 40; MERGE_GAP_S := None;
            FORCE_SPLIT_PHONEMES := [] |}
         {| sample_rate := 22050; hop_length := 441 |}
         scenario_track None None = Some [n]
       /\ pitch n = 57%Z /\ start n == 0 /\ end_ n == 0.44.
Proof.
  split.
  - vm_compute. repeat (constructor; [split; reflexivity|]). constructor.
  - eexists. split; [vm_compute; reflexivity|].
    simpl. repeat split; reflexivity.
Qed.

(** Without bridging the same track gives two notes. *)
Example unbridged_scenario_two_notes :
  segment [] None 0.02 0.01 (_bridge_unvoiced_gaps scenario_track 0)
  = [mkNote 80 57 (0 * 0.02) (10 * 0.02); mkNote 80 57 (12 * 0.02) (22 * 0.02)].
Proof. vm_compute. reflexivity. Qed.

(** ** Closing a run on an unvoiced frame (C2) *)

Section UnvoicedClose.

Variable force_split_phonemes : list string.
Variable rosvot_metadata : option metadata.
Variable time_per_frame : Q.
Variable min_note_duration : Q.

(** The forced cut of the unvoiced branch holds exactly when labels are
    configured, the metadata carries phonemes, and one of them with a
    configured label starts at or after the current time. *)
Lemma force_cut_unvoiced_iff (t : Q) :
  force_cut_unvoiced force_split_phonemes rosvot_metadata t = true <->
  force_split_phonemes <> []
  /\ exists md phs, rosvot_metadata = Some md /\ phonemes md = Some phs
     /\ exists ps pe ph, In (ps, pe, ph) phs /\ t <= ps
                         /\ str_in ph force_split_phonemes = true.
Proof.
  unfold force_cut_unvoiced, force_split_scan.
  destruct force_split_phonemes as [|l ls] eqn:El.
  - split; [discriminate|]. intros [H _]. contradiction.
  - destruct rosvot_metadata as [md|].
    + destruct (phonemes md) as [phs|] eqn:Eph.
      * rewrite existsb_exists. split.
        -- intros ([[ps pe] ph] & Hin & Hc). apply andb_true_iff in Hc.
           destruct Hc as [Ht Hl]. apply Qle_bool_iff in Ht.
           split; [discriminate|]. exists md, phs.
           split; [reflexivity|]. split; [exact Eph|].
           exists ps, pe, ph. split; [exact Hin|]. split; assumption.
        -- intros (_ & md' & phs' & Emd & Ephs & ps & pe & ph & Hin & Ht & Hl).
           injection Emd as <-. rewrite Eph in Ephs. injection Ephs as <-.
           exists (ps, pe, ph). split; [exact Hin|].
           apply andb_true_iff. split; [apply Qle_bool_iff; exact Ht|exact Hl].
      * split; [discriminate|].
        intros (_ & md' & phs' & Emd & Ephs & _). injection Emd as <-. congruence.
    + split; [discriminate|]. intros (_ & md' & phs' & Emd & _). discriminate Emd.
Qed.

Lemma app_one_neq (A : Type) (l : list A) (x : A) : l ++ [x] <> l.
Proof.
  intros H. apply (f_equal (@List.length A)) in H. rewrite length_app in H.
  simpl in H. lia.
Qed.

(** C2, amended.  An unvoiced frame met while a run is open closes the run
    and returns to no open run.  The candidate note is emitted whenever its
    duration reaches [min_note_duration]; it is also emitted, whatever its
    duration, when a phoneme with a configured label starts right at the
    unvoiced frame (at the current time or within one frame after it).  A
    shorter candidate is emitted only if labels are configured and the
    metadata holds a phoneme with a configured label starting at or after the
    current time; with no label configured, or no phonemes in the metadata,
    it is dropped. *)
Theorem unvoiced_frame_closes_run (st : seg_state) (i : Z) (x : frame) (cur : Z) :
  current_note st = Some cur ->
  voiced x = false ->
  current_note (seg_step force_split_phonemes rosvot_metadata time_per_frame
                         min_note_duration st i x) = None
  /\ (seg_notes (seg_step force_split_phonemes rosvot_metadata time_per_frame
                          min_note_duration st i x)
      = seg_notes st
        ++ [mkNote 80 cur (current_start_time st) (inject_Z i * time_per_frame)]
      \/ seg_notes (seg_step force_split_phonemes rosvot_metadata time_per_frame
                             min_note_duration st i x)
         = seg_notes st)
  /\ (min_note_duration <= inject_Z i * time_per_frame - current_start_time st ->
      seg_notes (seg_step force_split_phonemes rosvot_metadata time_per_frame
                          min_note_duration st i x)
      = seg_notes st
        ++ [mkNote 80 cur (current_start_time st) (inject_Z i * time_per_frame)])
  /\ (forall phs ps pe ph,
        force_split_scan force_split_phonemes rosvot_metadata = Some phs ->
        In (ps, pe, ph) phs ->
        str_in ph force_split_phonemes = true ->
        inject_Z i * time_per_frame <= ps ->
        ps <= inject_Z i * time_per_frame + time_per_frame ->
        seg_notes (seg_step force_split_phonemes rosvot_metadata time_per_frame
                            min_note_duration st i x)
        = seg_notes st
          ++ [mkNote 80 cur (current_start_time st) (inject_Z i * time_per_frame)])
  /\ (~ min_note_duration <= inject_Z i * time_per_frame - current_start_time st ->
      seg_notes (seg_step force_split_phonemes rosvot_metadata time_per_frame
                          min_note_duration st i x)
      = seg_notes st
        ++ [mkNote 80 cur (current_start_time st) (inject_Z i * time_per_frame)] ->
      force_split_phonemes <> []
      /\ exists md phs,
           rosvot_metadata = Some md /\ phonemes md = Some phs
           /\ exists ps pe ph,
                In (ps, pe, ph) phs /\ inject_Z i * time_per_frame <= ps
                /\ str_in ph force_split_phonemes = true)
  /\ (~ min_note_duration <= inject_Z i * time_per_frame - current_start_time st ->
      force_split_scan force_split_phonemes rosvot_metadata = None ->
      seg_notes (seg_step force_split_phonemes rosvot_metadata time_per_frame
                          min_note_duration st i x)
      = seg_notes st).
Proof.
  intros Hcur Hx.
  pose proof (force_cut_unvoiced_iff (inject_Z i * time_per_frame)) as Hiff.
  unfold seg_step. rewrite Hx, Hcur.
  set (t := inject_Z i * time_per_frame) in *. cbn [seg_notes current_note].
  set (cand := mkNote 80 cur (current_start_time st) t).
  assert (Hscan : forall phs ps pe ph,
            force_split_scan force_split_phonemes rosvot_metadata = Some phs ->
            In (ps, pe, ph) phs -> str_in ph force_split_phonemes = true ->
            t <= ps ->
            force_cut_unvoiced force_split_phonemes rosvot_metadata t = true).
  { intros phs ps pe ph Hs Hin Hl Ht. unfold force_cut_unvoiced. rewrite Hs.
    apply existsb_exists. exists (ps, pe, ph). split; [exact Hin|].
    apply andb_true_iff. split; [apply Qle_bool_iff; exact Ht|exact Hl]. }
  assert (Hnone : force_split_scan force_split_phonemes rosvot_metadata = None ->
            force_cut_unvoiced force_split_phonemes rosvot_metadata t = false).
  { intros Hs. unfold force_cut_unvoiced. rewrite Hs. reflexivity. }
  destruct (Qle_bool min_note_duration (t - current_start_time st)) eqn:Ed;
    destruct (force_cut_unvoiced force_split_phonemes rosvot_metadata t) eqn:Ef;
    cbn [orb].
  - apply Qle_bool_iff in Ed.
    split; [reflexivity|]. split; [left; reflexivity|]. split; [reflexivity|].
    split; [reflexivity|]. split; intros H; contradiction.
  - apply Qle_bool_iff in Ed.
    split; [reflexivity|]. split; [left; reflexivity|]. split; [reflexivity|].
    split; [reflexivity|]. split; intros H; contradiction.
  - split; [reflexivity|]. split; [left; reflexivity|]. split; [reflexivity|].
    split; [reflexivity|]. split.
    + intros _ _. apply Hiff. reflexivity.
    + intros _ Hs. discriminate (Hnone Hs).
  - split; [reflexivity|]. split; [right; reflexivity|]. split.
    + intros H. apply Qle_bool_iff in H. congruence.
    + split.
      * intros phs ps pe ph Hs Hin Hl Ht _.
        discriminate (Hscan phs ps pe ph Hs Hin Hl Ht).
      * split; [|reflexivity].
        intros _ H. symmetry in H. exfalso. exact (app_one_neq _ _ _ H).
Qed.

End UnvoicedClose.

(** With no forced-cut labels configured the duration gate alone decides. *)
Lemma force_cut_unvoiced_no_labels (md : option metadata) (t : Q) :
  force_cut_unvoiced [] md t = false.
Proof. reflexivity. Qed.

Lemma unvoiced_close_witness :
  current_note (seg_step [] None 0.02 0.01 (mkSeg [] (Some 69%Z) 0) 3 (Hz 0)) = None
  /\ seg_notes (seg_step [] None 0.02 0.01 (mkSeg [] (Some 69%Z) 0) 3 (Hz 0))
     = [mkNote 80 69 0 (3 * 0.02)].
Proof.
  destruct (unvoiced_frame_closes_run [] None 0.02 0.01
              (mkSeg [] (Some 69%Z) 0) 3 (Hz 0) 69 eq_refl eq_refl)
    as (H1 & _ & H2 & _).
  split; [exact H1|].
  apply H2. vm_compute. discriminate.
Defined.

(** C2, as stated, fails: with the label "t" configured and a phoneme "t"
    starting right at the unvoiced frame (0.02 s), a run of one frame
    (0.02 s) closed by that frame is emitted although it is shorter than
    [min_note_duration = 0.05]; without the label it is not. *)
Lemma unvoiced_close_forced_cut_counterexample :
  segment ["t"%string]
          (Some {| wav_fn := None; phonemes := Some [(0.02, 0.1, "t"%string)] |})
          0.02 0.05 [Hz 440; Hz 0]
  = [mkNote 80 69 (0 * 0.02) (1 * 0.02)]
  /\ ~ (0.05 <= 1 * 0.02 - 0 * 0.02)
  /\ segment []
             (Some {| wav_fn := None; phonemes := Some [(0.02, 0.1, "t"%string)] |})
             0.02 0.05 [Hz 440; Hz 0]
     = [].
Proof.
  split; [vm_compute; reflexivity|]. split; [|vm_compute; reflexivity].
  vm_compute. intro H. apply H. reflexivity.
Qed.

(** ** Negative and NaN frames (C7) *)

Lemma same_voicing_as_unvoiced (x : frame) : same_voicing x (as_unvoiced x).
Proof.
  unfold same_voicing, as_unvoiced. destruct (voiced x) eqn:V.
  - split; [congruence|reflexivity].
  - split; [reflexivity|discriminate].
Qed.

Lemma same_voicing_map_as_unvoiced (l : list frame) :
  Forall2 same_voicing l (map as_unvoiced l).
Proof.
  induction l as [|x tl IH]; simpl; constructor.
  - apply same_voicing_as_unvoiced.
  - exact IH.
Qed.

Lemma same_voicing_mask (l l' : list frame) :
  Forall2 same_voicing l l' -> map voiced l = map voiced l'.
Proof.
  induction 1 as [|x y l l' [Hv _] _ IH]; simpl; [reflexivity|].
  rewrite Hv, IH. reflexivity.
Qed.

Lemma same_voicing_pos_or_zero (x y : frame) :
  same_voicing x y -> pos_or_zero x = pos_or_zero y.
Proof.
  intros [Hv He]. destruct (voiced x) eqn:V.
  - rewrite (He eq_refl). reflexivity.
  - symmetry in Hv. destruct x as [q|], y as [q'|]; simpl in *;
      try rewrite V; try rewrite Hv; reflexivity.
Qed.

Lemma same_voicing_frame_at (l l' : list frame) (j : Z) :
  Forall2 same_voicing l l' -> same_voicing (frame_at l j) (frame_at l' j).
Proof.
  intros H. unfold frame_at. generalize (Z.to_nat j).
  induction H as [|x y l l' Hxy _ IH]; intros n.
  - destruct n; split; reflexivity || discriminate.
  - destruct n as [|n]; simpl; [exact Hxy|apply IH].
Qed.

Lemma same_voicing_set_range (l l' : list frame) :
  Forall2 same_voicing l l' ->
  forall k a b v, Forall2 same_voicing (set_range l k a b v) (set_range l' k a b v).
Proof.
  induction 1 as [|x y l l' Hxy _ IH]; intros k a b v; simpl; constructor.
  - destruct ((a <=? k)%Z && (k <? b)%Z); [|exact Hxy]. split; reflexivity.
  - apply IH.
Qed.

Lemma bridge_step_sim (max_gap_frames : Z) (st st' : bridge_state) (i : Z) (x : bool) :
  bridge_sim st st' ->
  bridge_sim (bridge_step max_gap_frames st i x) (bridge_step max_gap_frames st' i x).
Proof.
  intros (Hf & Hr & Hs). unfold bridge_step. rewrite <- Hr, <- Hs.
  destruct (negb x).
  - split; [exact Hf|]. split; reflexivity.
  - destruct ((0 <? bs_run st)%Z && (bs_run st <=? max_gap_frames)%Z).
    + rewrite <- (Forall2_length Hf).
      rewrite <- (same_voicing_pos_or_zero _ _
                    (same_voicing_frame_at _ _ (bs_start st - 1) Hf)).
      rewrite <- (same_voicing_pos_or_zero _ _ (same_voicing_frame_at _ _ i Hf)).
      split; [|split; reflexivity]. simpl. unfold set_slice.
      rewrite <- (Forall2_length Hf). apply same_voicing_set_range. exact Hf.
    + split; [exact Hf|]. split; reflexivity.
Qed.

Lemma bridge_loop_sim (max_gap_frames : Z) (vs : list bool) :
  forall i st st', bridge_sim st st' ->
  bridge_sim (bridge_loop max_gap_frames vs i st) (bridge_loop max_gap_frames vs i st').
Proof.
  induction vs as [|x tl IH]; intros i st st' H; simpl; [exact H|].
  apply IH. apply bridge_step_sim. exact H.
Qed.

Lemma bridge_same_voicing (f0 f0' : list frame) (max_gap_frames : Z) :
  Forall2 same_voicing f0 f0' ->
  Forall2 same_voicing (_bridge_unvoiced_gaps f0 max_gap_frames)
                       (_bridge_unvoiced_gaps f0' max_gap_frames).
Proof.
  intros H. unfold _bridge_unvoiced_gaps. rewrite <- (same_voicing_mask _ _ H).
  apply bridge_loop_sim. split; [exact H|]. split; reflexivity.
Qed.

Section SameVoicing.

Variable force_split_phonemes : list string.
Variable rosvot_metadata : option metadata.
Variable time_per_frame : Q.
Variable min_note_duration : Q.

Lemma seg_step_same_voicing (st : seg_state) (i : Z) (x y : frame) :
  same_voicing x y ->
  seg_step force_split_phonemes rosvot_metadata time_per_frame min_note_duration st i x
  = seg_step force_split_phonemes rosvot_metadata time_per_frame min_note_duration st i y.
Proof.
  intros [Hv He]. unfold seg_step. rewrite <- Hv.
  destruct (voiced x); [|reflexivity]. rewrite (He eq_refl). reflexivity.
Qed.

Lemma seg_loop_same_voicing (l l' : list frame) :
  Forall2 same_voicing l l' ->
  forall i st,
    seg_loop force_split_phonemes rosvot_metadata time_per_frame min_note_duration l i st
    = seg_loop force_split_phonemes rosvot_metadata time_per_frame min_note_duration
               l' i st.
Proof.
  induction 1 as [|x y l l' Hxy _ IH]; intros i st; simpl; [reflexivity|].
  rewrite (seg_step_same_voicing st i x y Hxy). apply IH.
Qed.

Lemma segment_same_voicing (l l' : list frame) :
  Forall2 same_voicing l l' ->
  segment force_split_phonemes rosvot_metadata time_per_frame min_note_duration l
  = segment force_split_phonemes rosvot_metadata time_per_frame min_note_duration l'.
Proof.
  intros H. unfold segment.
  rewrite (Forall2_length H), (seg_loop_same_voicing l l' H). reflexivity.
Qed.

End SameVoicing.

Lemma infer_time_per_frame_length (get_duration : string -> option Q)
    (l l' : list frame) (md : option metadata) (default_tpf : Q) :
  List.length l = List.length l' ->
  _infer_time_per_frame get_duration l md default_tpf
  = _infer_time_per_frame get_duration l' md default_tpf.
Proof. intros H. unfold _infer_time_per_frame. rewrite H. reflexivity. Qed.

(** C7, amended.  A negative or NaN frame value, like 0, fails the voiced
    test and is handled as an unvoiced frame: the Segmenter and the whole
    primary pass give on a track exactly the result (notes, or failure) they
    give on the track with those frames replaced by 0. *)
Theorem non_positive_frames_read_as_unvoiced (pitch_data : list frame) :
  (forall force_split_phonemes rosvot_metadata time_per_frame min_note_duration,
      segment force_split_phonemes rosvot_metadata time_per_frame min_note_duration
              pitch_data
      = segment force_split_phonemes rosvot_metadata time_per_frame min_note_duration
                (map as_unvoiced pitch_data))
  /\ (forall get_duration env self min_note_duration rosvot_metadata,
         create_midi_from_pitch get_duration env self pitch_data
                                min_note_duration rosvot_metadata
         = create_midi_from_pitch get_duration env self (map as_unvoiced pitch_data)
                                  min_note_duration rosvot_metadata).
Proof.
  pose proof (same_voicing_map_as_unvoiced pitch_data) as H.
  split.
  - intros. apply segment_same_voicing. exact H.
  - intros. unfold create_midi_from_pitch.
    rewrite (infer_time_per_frame_length get_duration pitch_data
               (map as_unvoiced pitch_data)) by (symmetry; apply length_map).
    destruct (sample_rate self =? 0)%Z; [reflexivity|].
    destruct (Qeq_bool _ 0); [reflexivity|].
    f_equal. f_equal. apply segment_same_voicing. apply bridge_same_voicing. exact H.
Qed.

(** C7, as stated, fails: a track holding a negative and a NaN frame is
    accepted, and transcribed as the track with zeros in their place. *)
Lemma negative_nan_frames_accepted_counterexample :
  create_midi_from_pitch (fun _ => None) default_env
    {| sample_rate := 22050; hop_length := 441 |}
    [Hz 440; Hz (-5); Hz 440; NaN; Hz 440] None None
  = Some [mkNote 80 69 (0 * (441 / 22050)) (1 * (441 / 22050));
          mkNote 80 69 (2 * (441 / 22050)) (3 * (441 / 22050));
          mkNote 80 69 (4 * (441 / 22050)) (5 * (441 / 22050))]
  /\ create_midi_from_pitch (fun _ => None) default_env
       {| sample_rate := 22050; hop_length := 441 |}
       [Hz 440; Hz (-5); Hz 440; NaN; Hz 440] None None
     = create_midi_from_pitch (fun _ => None) default_env
         {| sample_rate := 22050; hop_length := 441 |}
         [Hz 440; Hz 0; Hz 440; Hz 0; Hz 440] None None.
Proof. split; vm_compute; reflexivity. Qed.

(** ** Calibration (C8) *)

(** C8.  With a wave file named in the metadata and [N >= 1] frames, the
    Calibrator returns [D / N] when the probed duration [D] gives an estimate
    within 15 ms to 30 ms and the nominal duration otherwise; when probing
    fails it returns the nominal duration. *)
Theorem infer_time_per_frame_spec (get_duration : string -> option Q)
    (pitch_data : list frame) (md : metadata) (fn : string) (default_tpf : Q) :
  wav_fn md = Some fn ->
  (1 <= List.length pitch_data)%nat ->
  match get_duration fn with
  | Some D =>
      (0.015 <= D / inject_Z (Z.of_nat (List.length pitch_data)) <= 0.030 ->
       _infer_time_per_frame get_duration pitch_data (Some md) default_tpf
       = D / inject_Z (Z.of_nat (List.length pitch_data)))
      /\ (~ 0.015 <= D / inject_Z (Z.of_nat (List.length pitch_data)) <= 0.030 ->
          _infer_time_per_frame get_duration pitch_data (Some md) default_tpf
          = default_tpf)
  | None =>
      _infer_time_per_frame get_duration pitch_data (Some md) default_tpf = default_tpf
  end.
Proof.
  intros Hfn HN. unfold _infer_time_per_frame. rewrite Hfn.
  destruct (get_duration fn) as [D|]; [|reflexivity].
  rewrite Z.max_r by lia.
  set (est := D / inject_Z (Z.of_nat (List.length pitch_data))).
  destruct (Qle_bool 0.015 est) eqn:E1; destruct (Qle_bool est 0.030) eqn:E2; simpl.
  - split; [reflexivity|]. intros H. exfalso. apply H.
    split; apply Qle_bool_iff; assumption.
  - split; [|reflexivity]. intros [_ H]. apply Qle_bool_iff in H. congruence.
  - split; [|reflexivity]. intros [H _]. apply Qle_bool_iff in H. congruence.
  - split; [|reflexivity]. intros [H _]. apply Qle_bool_iff in H. congruence.
Qed.

Lemma infer_time_per_frame_witness :
  _infer_time_per_frame (fun _ => Some 2) (repeat (Hz 220) 100)
    (Some {| wav_fn := Some "a.wav"%string; phonemes := None |}) (512 / 22050)
  = 2 / inject_Z (Z.of_nat (List.length (repeat (Hz 220) 100))).
Proof.
  apply (infer_time_per_frame_spec (fun _ => Some 2) (repeat (Hz 220) 100)
           {| wav_fn := Some "a.wav"%string; phonemes := None |} "a.wav"%string
           (512 / 22050) eq_refl).
  - simpl. lia.
  - split; vm_compute; discriminate.
Defined.

(** Without metadata, or without a wave file name in it, nothing is probed
    and the nominal duration is kept. *)
Lemma infer_time_per_frame_no_wav (get_duration : string -> option Q)
    (pitch_data : list frame) (md : option metadata) (default_tpf : Q) :
  (md = None \/ exists m, md = Some m /\ wav_fn m = None) ->
  _infer_time_per_frame get_duration pitch_data md default_tpf = default_tpf.
Proof.
  intros [->|(m & -> & H)]; simpl; [reflexivity|]. rewrite H. reflexivity.
Qed.

(** ** Coverage ratio (C9) *)

Lemma sum_overlap_fold (l : list overlap_info) :
  forall acc,
    fold_left (fun a o => a + overlap_duration o) l acc
    == acc + fold_left (fun a o => a + overlap_duration o) l 0.
Proof.
  induction l as [|o tl IH]; intros acc; simpl.
  - ring.
  - rewrite (IH (acc + overlap_duration o)), (IH (0 + overlap_duration o)). ring.
Qed.

Lemma sum_overlap_cons (o : overlap_info) (l : list overlap_info) :
  sum_overlap_duration (o :: l) == overlap_duration o + sum_overlap_duration l.
Proof.
  unfold sum_overlap_duration. simpl. rewrite sum_overlap_fold. ring.
Qed.

(** A note that passes the overlap test contributes its intersection with the
    interval, which is not negative when the note does not end before it
    starts. *)
Lemma overlap_term_inside (n : Note) (s e : Q) :
  start n <= end_ n -> start n < e -> s < end_ n -> s < e ->
  pymin (end_ n) e - pymax (start n) s
  == Qmax 0 (Qmin (end_ n) e - Qmax (start n) s).
Proof.
  intros Hn H1 H2 Hse.
  rewrite <- (pymin_Qmin (end_ n) e), <- (pymax_Qmax (start n) s).
  destruct (pymin_spec (end_ n) e) as (_ & _ & [-> | ->]);
    destruct (pymax_spec (start n) s) as (_ & _ & [-> | ->]);
    symmetry; apply Q.max_r; lra.
Qed.

(** A note that fails the overlap test contributes nothing. *)
Lemma overlap_term_outside (n : Note) (s e : Q) :
  e <= start n \/ end_ n <= s ->
  Qmax 0 (Qmin (end_ n) e - Qmax (start n) s) == 0.
Proof.
  intros H. apply Q.max_l.
  pose proof (Q.le_min_l (end_ n) e). pose proof (Q.le_min_r (end_ n) e).
  pose proof (Q.le_max_l (start n) s). pose proof (Q.le_max_r (start n) s).
  destruct H; lra.
Qed.

(** The code's sum over the overlapping notes is the specification's sum over
    all notes. *)
Lemma sum_overlap_is_spec_overlap (midi_notes : list Note) (s e : Q) :
  s < e -> Forall (fun n => start n <= end_ n) midi_notes ->
  sum_overlap_duration (_find_overlapping_notes midi_notes s e)
  == spec_overlap midi_notes s e.
Proof.
  intros Hse. induction 1 as [|n tl Hn _ IH]; simpl.
  - reflexivity.
  - destruct (Qlt_bool (start n) e) eqn:E1; destruct (Qlt_bool s (end_ n)) eqn:E2; simpl.
    + apply Qlt_bool_iff in E1, E2.
      rewrite sum_overlap_cons. simpl overlap_duration. rewrite IH.
      rewrite (overlap_term_inside n s e Hn E1 E2 Hse). reflexivity.
    + apply Qlt_bool_false_iff in E2.
      rewrite IH, overlap_term_outside by (right; exact E2). ring.
    + apply Qlt_bool_false_iff in E1.
      rewrite IH, overlap_term_outside by (left; exact E1). ring.
    + apply Qlt_bool_false_iff in E1.
      rewrite IH, overlap_term_outside by (left; exact E1). ring.
Qed.

Lemma spec_overlap_nonneg (midi_notes : list Note) (s e : Q) :
  0 <= spec_overlap midi_notes s e.
Proof.
  induction midi_notes as [|n tl IH]; simpl; [lra|].
  pose proof (Q.le_max_l 0 (Qmin (end_ n) e - Qmax (start n) s)). lra.
Qed.

Lemma pymin_one_Qmin (a b c : Q) : a == b -> c == 1 -> pymin a c == Qmin b 1.
Proof.
  intros Hab Hc. rewrite pymin_Qmin.
  destruct (Q.min_spec a c) as [[H1 ->] | [H1 ->]];
    destruct (Q.min_spec b 1) as [[H2 ->] | [H2 ->]]; lra.
Qed.

Lemma Qdiv_nonneg (a b : Q) : 0 <= a -> 0 < b -> 0 <= a / b.
Proof.
  intros Ha Hb. apply Qle_shift_div_l; [exact Hb|]. lra.
Qed.

(** C9.  For an interval [[s, e)] with [s < e] and notes that do not end
    before they start, the coverage ratio is defined, equals
    [min(overlap / (e - s), 1.0)] with [overlap] the sum of the positive
    intersections, and lies in [[0, 1]]. *)
Theorem coverage_ratio_spec (midi_notes : list Note) (s e : Q) :
  s < e ->
  Forall (fun n => start n <= end_ n) midi_notes ->
  exists r : Q,
    coverage_ratio midi_notes s e = Some r
    /\ r == spec_coverage_ratio midi_notes s e
    /\ 0 <= r <= 1.
Proof.
  intros Hse Hnotes.
  pose proof (sum_overlap_is_spec_overlap midi_notes s e Hse Hnotes) as Hsum.
  pose proof (spec_overlap_nonneg midi_notes s e) as Hpos.
  assert (Hratio : 0 <= spec_overlap midi_notes s e / (e - s))
    by (apply Qdiv_nonneg; lra).
  assert (Hspec : 0 <= spec_coverage_ratio midi_notes s e <= 1).
  { unfold spec_coverage_ratio. split.
    - apply Q.min_glb; [exact Hratio|lra].
    - apply Q.le_min_r. }
  unfold coverage_ratio, _calculate_coverage_ratio.
  destruct (_find_overlapping_notes midi_notes s e) as [|o tl] eqn:Eov.
  - exists 0. split; [reflexivity|].
    assert (E0 : spec_overlap midi_notes s e == 0) by (rewrite <- Hsum; reflexivity).
    assert (Er : 0 == spec_coverage_ratio midi_notes s e).
    { unfold spec_coverage_ratio. rewrite E0.
      assert (Ez : 0 / (e - s) == 0) by (unfold Qdiv; apply Qmult_0_l).
      rewrite Ez. symmetry. apply Q.min_l. lra. }
    split; [exact Er|lra].
  - assert (Ent : Qeq_bool (e - s) 0 = false).
    { destruct (Qeq_bool (e - s) 0) eqn:E; [|reflexivity].
      apply Qeq_bool_iff in E. lra. }
    rewrite Ent. eexists. split; [reflexivity|].
    assert (Er : pymin (sum_overlap_duration (o :: tl) / (e - s)) 1.0
                 == spec_coverage_ratio midi_notes s e).
    { unfold spec_coverage_ratio. apply pymin_one_Qmin; [rewrite Hsum; reflexivity|reflexivity]. }
    split; [exact Er|]. rewrite Er. exact Hspec.
Qed.

Lemma coverage_ratio_witness :
  exists r : Q,
    coverage_ratio [mkNote 80 57 0 0.2; mkNote 80 57 0.22 0.44] 0.1 0.3 = Some r
    /\ r == spec_coverage_ratio [mkNote 80 57 0 0.2; mkNote 80 57 0.22 0.44] 0.1 0.3
    /\ 0 <= r <= 1.
Proof.
  apply (coverage_ratio_spec [mkNote 80 57 0 0.2; mkNote 80 57 0.22 0.44] 0.1 0.3).
  - reflexivity.
  - repeat constructor; simpl; vm_compute; discriminate.
Defined.

(** Without the condition on the notes the ratio can leave [[0, 1]]: a note
    whose end precedes its start contributes a negative duration. *)
Example coverage_ratio_inverted_note :
  coverage_ratio [mkNote 80 60 5 3] 0 10 = Some (pymin ((0 + (3 - 5)) / (10 - 0)) 1.0)
  /\ pymin ((0 + (3 - 5)) / (10 - 0)) 1.0 < 0.
Proof. split; vm_compute; reflexivity. Qed.

(** An empty interval that notes straddle makes the ratio fail. *)
Example coverage_ratio_empty_interval :
  coverage_ratio [mkNote 80 60 0 2] 1 1 = None.
Proof. reflexivity. Qed.

(** ** Micro-gap repair (C3) *)

Lemma insert_sorted_In (x y : Note) (l : list Note) :
  In x (insert_sorted y l) <-> x = y \/ In x l.
Proof.
  induction l as [|z tl IH]; simpl.
  - intuition.
  - destruct (key_le y z); simpl; [intuition|]. rewrite IH. intuition.
Qed.

Lemma sorted_by_start_end_In (x : Note) (l : list Note) :
  In x (sorted_by_start_end l) <-> In x l.
Proof.
  induction l as [|y tl IH]; simpl; [reflexivity|].
  rewrite insert_sorted_In, IH. intuition.
Qed.

Lemma key_le_true (x y : Note) : key_le x y = true -> start x <= start y.
Proof.
  unfold key_le. intros H. apply orb_true_iff in H. destruct H as [H|H].
  - apply Qlt_bool_iff in H. lra.
  - apply andb_true_iff in H. destruct H as [H _]. apply Qeq_bool_iff in H. lra.
Qed.

Lemma key_le_false (x y : Note) : key_le x y = false -> start y <= start x.
Proof.
  unfold key_le. intros H. apply orb_false_iff in H. destruct H as [H _].
  apply Qlt_bool_false_iff in H. exact H.
Qed.

Lemma insert_sorted_start_sorted (x : Note) (l : list Note) :
  start_sorted l -> start_sorted (insert_sorted x l).
Proof.
  unfold start_sorted. induction 1 as [|y tl Htl IH Hy]; simpl.
  - constructor; constructor.
  - destruct (key_le x y) eqn:E.
    + apply key_le_true in E. constructor.
      * constructor; assumption.
      * constructor; [exact E|].
        eapply Forall_impl; [|exact Hy]. simpl. intros z Hz. lra.
    + apply key_le_false in E. constructor; [exact IH|].
      apply Forall_forall. intros z Hz. apply insert_sorted_In in Hz.
      destruct Hz as [->|Hz]; [exact E|].
      rewrite Forall_forall in Hy. apply Hy. exact Hz.
Qed.

Lemma sorted_by_start_end_sorted (l : list Note) :
  start_sorted (sorted_by_start_end l).
Proof.
  induction l as [|x tl IH]; simpl.
  - constructor.
  - apply insert_sorted_start_sorted. exact IH.
Qed.

Lemma covers_refl (n : Note) : covers n n.
Proof. unfold covers. repeat split; lra. Qed.

Lemma covers_extend (n m : Note) (e : Q) :
  covers n m -> covers n (set_end m (pymax (end_ m) e)).
Proof.
  intros (Hp & Hs & He). unfold covers. simpl.
  destruct (pymax_spec (end_ m) e) as (H1 & _ & _).
  repeat split; [exact Hp|exact Hs|lra].
Qed.

(** Every note handed to the closing merge is covered by a merged note. *)
Lemma microfix_merge_from_covers (rest : list Note) :
  forall m, start_sorted (m :: rest) ->
  forall x, (covers x m \/ In x rest) ->
  exists y, In y (microfix_merge_from m rest) /\ covers x y.
Proof.
  induction rest as [|n tl IH]; intros m Hs x Hx.
  - destruct Hx as [Hx|[]]. exists m. split; [left; reflexivity|exact Hx].
  - simpl. inversion Hs as [|? ? Hs' Hm]; subst.
    inversion Hs' as [|? ? Hs'' Hn]; subst.
    inversion Hm as [|? ? Hmn Hmtl]; subst.
    destruct ((pitch n =? pitch m)%Z && Qle_bool (start n - end_ m) 0.02) eqn:C.
    + apply andb_true_iff in C. destruct C as [Cp _]. apply Z.eqb_eq in Cp.
      apply IH.
      * constructor; [exact Hs''|exact Hmtl].
      * destruct Hx as [Hx|[<-|Hx]].
        -- left. apply covers_extend. exact Hx.
        -- left. unfold covers. simpl.
           destruct (pymax_spec (end_ m) (end_ n)) as (_ & H2 & _).
           repeat split; [symmetry; exact Cp|exact Hmn|exact H2].
        -- right. exact Hx.
    + destruct Hx as [Hx|[<-|Hx]].
      * exists m. split; [left; reflexivity|exact Hx].
      * destruct (IH n Hs' n (or_introl (covers_refl n))) as (y & Hy & Hc).
        exists y. split; [right; exact Hy|exact Hc].
      * destruct (IH n Hs' x (or_intror Hx)) as (y & Hy & Hc).
        exists y. split; [right; exact Hy|exact Hc].
Qed.

Lemma microfix_merge_covers (l : list Note) (x : Note) :
  start_sorted l -> In x l ->
  exists y, In y (microfix_merge l) /\ covers x y.
Proof.
  intros Hs Hx. destruct l as [|m rest]; [contradiction|].
  apply microfix_merge_from_covers; [exact Hs|].
  destruct Hx as [<-|Hx]; [left; apply covers_refl|right; exact Hx].
Qed.

(** *** The overlap accumulated for an interval *)

Lemma overlap_nonneg (a0 a1 b0 b1 : Q) : 0 <= overlap a0 a1 b0 b1.
Proof. unfold overlap. apply pymax_spec. Qed.

Lemma pymax_le_iff (a b c : Q) : pymax a b <= c <-> a <= c /\ b <= c.
Proof.
  destruct (pymax_spec a b) as (H1 & H2 & [E|E]); rewrite E in *; split;
    intros; try split; lra.
Qed.

Lemma pymin_ge_iff (a b c : Q) : c <= pymin a b <-> c <= a /\ c <= b.
Proof.
  destruct (pymin_spec a b) as (H1 & H2 & [E|E]); rewrite E in *; split;
    intros; try split; lra.
Qed.

(** A smaller interval overlaps a note no more than a larger one. *)
Lemma overlap_mono (s e s' e' b0 b1 : Q) :
  s <= s' -> e' <= e -> overlap s' e' b0 b1 <= overlap s e b0 b1.
Proof.
  intros Hs He. unfold overlap.
  destruct (pymax_spec 0 (pymin e b1 - pymax s b0)) as (G1 & G2 & _).
  apply pymax_le_iff. split; [exact G1|].
  assert (H1 : pymin e' b1 <= pymin e b1).
  { apply pymin_ge_iff. destruct (pymin_spec e' b1) as (A & B & _). split; lra. }
  assert (H2 : pymax s b0 <= pymax s' b0).
  { apply pymax_le_iff. destruct (pymax_spec s' b0) as (A & B & _). split; lra. }
  lra.
Qed.

Lemma overlap_zero_after (s e b0 b1 : Q) : e <= b0 -> overlap s e b0 b1 <= 0.
Proof.
  intros H. unfold overlap. apply pymax_le_iff. split; [lra|].
  destruct (pymin_spec e b1) as (A & _ & _).
  destruct (pymax_spec s b0) as (_ & B & _). lra.
Qed.

Lemma overlap_zero_before (s e b0 b1 : Q) : b1 <= s -> overlap s e b0 b1 <= 0.
Proof.
  intros H. unfold overlap. apply pymax_le_iff. split; [lra|].
  destruct (pymin_spec e b1) as (_ & A & _).
  destruct (pymax_spec s b0) as (B & _ & _). lra.
Qed.

Lemma covered_acc (notes : list Note) (s e : Q) :
  forall cov, covered notes s e cov == cov + covered notes s e 0.
Proof.
  induction notes as [|n tl IH]; intros cov; simpl.
  - ring.
  - destruct (Qle_bool e (start n)); [ring|].
    destruct (Qle_bool (end_ n) s); [apply IH|].
    rewrite (IH (cov + _)), (IH (0 + _)). ring.
Qed.

Lemma covered_nonneg (notes : list Note) (s e : Q) : 0 <= covered notes s e 0.
Proof.
  induction notes as [|n tl IH]; simpl; [lra|].
  destruct (Qle_bool e (start n)); [lra|].
  destruct (Qle_bool (end_ n) s); [exact IH|].
  rewrite covered_acc. pose proof (overlap_nonneg s e (start n) (end_ n)). lra.
Qed.

(** On notes sorted by start, the accumulated overlap bounds the overlap of
    the interval with each single note. *)
Lemma covered_bounds_each (notes : list Note) (s e : Q) :
  start_sorted notes ->
  forall n, In n notes -> overlap s e (start n) (end_ n) <= covered notes s e 0.
Proof.
  unfold start_sorted. induction 1 as [|h tl Htl IH Hh]; intros n Hn; [contradiction|].
  simpl. pose proof (covered_nonneg tl s e) as Hpos.
  assert (Hstart : start h <= start n).
  { destruct Hn as [<-|Hn]; [lra|]. rewrite Forall_forall in Hh. apply Hh. exact Hn. }
  destruct (Qle_bool e (start h)) eqn:E1.
  - apply Qle_bool_iff in E1. apply overlap_zero_after. lra.
  - destruct (Qle_bool (end_ h) s) eqn:E2.
    + apply Qle_bool_iff in E2. destruct Hn as [<-|Hn]; [|apply IH; exact Hn].
      pose proof (overlap_zero_before s e (start h) (end_ h) E2). lra.
    + rewrite covered_acc. pose proof (overlap_nonneg s e (start h) (end_ h)) as Ho.
      destruct Hn as [<-|Hn]; [lra|]. specialize (IH n Hn). lra.
Qed.

Section RepairFacts.

Variable min_phoneme_dur : Q.
Variable max_fill_dur : Q.
Variable min_overlap_for_covered : Q.
Variable max_neighbor_gap : Q.
Variable insert_velocity : Z.

Lemma find_prev_next_spec (notes : list Note) (t : Q) :
  forall prev0 prev nxt,
    find_prev_next notes t prev0 = (prev, nxt) ->
    (forall pv, prev = Some pv -> prev0 = Some pv \/ (In pv notes /\ end_ pv <= t))
    /\ (forall nx, nxt = Some nx -> In nx notes /\ t <= start nx).
Proof.
  induction notes as [|n tl IH]; intros prev0 prev nxt H; simpl in H.
  - injection H as <- <-. split; [intros pv Hpv; left; exact Hpv|discriminate].
  - destruct (Qle_bool (end_ n) t) eqn:E1.
    + apply Qle_bool_iff in E1. destruct (IH _ _ _ H) as [Hp Hn]. split.
      * intros pv Hpv. destruct (Hp pv Hpv) as [Hpv'|[Hin Hle]].
        -- injection Hpv' as <-. right. split; [left; reflexivity|exact E1].
        -- right. split; [right; exact Hin|exact Hle].
      * intros nx Hnx. destruct (Hn nx Hnx) as [Hin Hle].
        split; [right; exact Hin|exact Hle].
    + destruct (Qle_bool t (start n)) eqn:E2.
      * apply Qle_bool_iff in E2. injection H as <- <-. split.
        -- intros pv Hpv. left. exact Hpv.
        -- intros nx Hnx. injection Hnx as <-. split; [left; reflexivity|exact E2].
      * destruct (IH _ _ _ H) as [Hp Hn]. split.
        -- intros pv Hpv. destruct (Hp pv Hpv) as [Hpv'|[Hin Hle]];
             [left; exact Hpv'|right; split; [right; exact Hin|exact Hle]].
        -- intros nx Hnx. destruct (Hn nx Hnx) as [Hin Hle].
           split; [right; exact Hin|exact Hle].
Qed.

(** What holds of a note the loop body decides to insert. *)
Lemma fill_note_some (inst_notes : list Note) (s e : Q) (p : string) (x : Note) :
  fill_note min_phoneme_dur max_fill_dur min_overlap_for_covered max_neighbor_gap
            insert_velocity (sorted_by_start_end inst_notes) (s, e, p) = Some x ->
  clipped_insert min_phoneme_dur min_overlap_for_covered insert_velocity
                 inst_notes s e x.
Proof.
  unfold fill_note, clipped_insert.
  destruct (Qlt_bool max_fill_dur (e - s)); [discriminate|].
  destruct (Qle_bool min_overlap_for_covered
              (covered (sorted_by_start_end inst_notes) s e 0)) eqn:Ecov;
    [discriminate|].
  apply Qle_bool_false_iff in Ecov.
  destruct (find_prev_next (sorted_by_start_end inst_notes) ((s + e) * 0.5) None)
    as [prev nxt] eqn:Efpn.
  destruct (find_prev_next_spec _ _ _ _ _ Efpn) as [Hprev Hnxt].
  set (start_t := match prev with Some pv => pymax s (end_ pv) | None => s end).
  set (end_t := match nxt with Some nx => pymin e (start nx) | None => e end).
  assert (Hst : s <= start_t).
  { unfold start_t. destruct prev; [apply pymax_spec|lra]. }
  assert (Het : end_t <= e).
  { unfold end_t. destruct nxt; [apply pymin_spec|lra]. }
  match goal with
  | |- match ?c with [] => _ | _ :: _ => _ end = _ -> _ => destruct c as [|c0 cs]
  end; [discriminate|].
  destruct (min_by_gap c0 cs) as [[src gap] pit].
  destruct (Qlt_bool max_neighbor_gap gap); [discriminate|].
  destruct (Qlt_bool (end_t - start_t) min_phoneme_dur) eqn:Edur; [discriminate|].
  apply Qlt_bool_false_iff in Edur.
  intros H. injection H as <-. simpl.
  split; [reflexivity|]. split; [exact Hst|]. split; [exact Het|].
  split; [exact Edur|]. split; [|split].
  - intros pv Hpv. subst prev. destruct (Hprev pv eq_refl) as [Hd|[_ Hle]];
      [discriminate Hd|].
    split; [apply pymax_spec|exact Hle].
  - intros nx Hnx. subst nxt. destruct (Hnxt nx eq_refl) as [_ Hle].
    split; [apply pymin_spec|exact Hle].
  - intros n Hn.
    apply Qle_lt_trans with (covered (sorted_by_start_end inst_notes) s e 0);
      [|exact Ecov].
    apply Qle_trans with (overlap s e (start n) (end_ n)).
    + apply overlap_mono; assumption.
    + apply covered_bounds_each; [apply sorted_by_start_end_sorted|].
      apply sorted_by_start_end_In. exact Hn.
Qed.

Lemma insert_loop_spec (notes : list Note) (phones : list phoneme) :
  forall inst_notes inserted,
    insert_loop min_phoneme_dur max_fill_dur min_overlap_for_covered max_neighbor_gap
                insert_velocity notes phones inst_notes inserted
    = (inst_notes
       ++ inserted_notes min_phoneme_dur max_fill_dur min_overlap_for_covered
                         max_neighbor_gap insert_velocity notes phones,
       (inserted
        + Z.of_nat (List.length
            (inserted_notes min_phoneme_dur max_fill_dur min_overlap_for_covered
                            max_neighbor_gap insert_velocity notes phones)))%Z).
Proof.
  induction phones as [|ph tl IH]; intros inst_notes inserted; simpl.
  - rewrite app_nil_r, Z.add_0_r. reflexivity.
  - destruct (fill_note _ _ _ _ _ notes ph) as [note|].
    + rewrite IH, <- app_assoc. simpl. f_equal. lia.
    + rewrite IH. reflexivity.
Qed.

(** The result of the repair in terms of the notes it inserts. *)
Lemma repair_result (inst_notes : list Note) (ts_phonemes : list phoneme) :
  repair_micro_gaps_with_phonemes min_phoneme_dur max_fill_dur
    min_overlap_for_covered max_neighbor_gap insert_velocity inst_notes ts_phonemes
  = match repair_inserted min_phoneme_dur max_fill_dur min_overlap_for_covered
            max_neighbor_gap insert_velocity inst_notes ts_phonemes with
    | [] => (false, inst_notes)
    | ins => (true, microfix_merge (sorted_by_start_end (inst_notes ++ ins)))
    end.
Proof.
  unfold repair_micro_gaps_with_phonemes, repair_inserted.
  destruct (voiced_phones min_phoneme_dur ts_phonemes) as [|ph phs]; [reflexivity|].
  rewrite insert_loop_spec.
  destruct (inserted_notes _ _ _ _ _ _ (ph :: phs)) as [|x ins]; [reflexivity|].
  simpl List.length. rewrite Nat2Z.inj_succ.
  destruct (Z.ltb_spec 0 (0 + Z.succ (Z.of_nat (List.length ins)))); [reflexivity|lia].
Qed.

End RepairFacts.

(** C3, amended.  The repair returns the input notes unchanged when it inserts
    nothing; otherwise it returns the sorted and merged list of the input
    notes followed by the inserted ones.  Every note present before the pass
    is covered by a returned note of its pitch that starts no later and ends
    no earlier (it is never shortened, though it may be absorbed into an
    earlier note of the same pitch).  Every inserted note lies inside its
    phoneme interval, keeps clear of the neighbours found by
    [find_prev_next], and overlaps each note present before the pass by less
    than [min_overlap_for_covered]. *)
Theorem repair_covers_existing_notes (min_phoneme_dur max_fill_dur
    min_overlap_for_covered max_neighbor_gap : Q) (insert_velocity : Z)
    (inst_notes : list Note) (ts_phonemes : list phoneme) :
  repair_micro_gaps_with_phonemes min_phoneme_dur max_fill_dur
    min_overlap_for_covered max_neighbor_gap insert_velocity inst_notes ts_phonemes
  = match repair_inserted min_phoneme_dur max_fill_dur min_overlap_for_covered
            max_neighbor_gap insert_velocity inst_notes ts_phonemes with
    | [] => (false, inst_notes)
    | ins => (true, microfix_merge (sorted_by_start_end (inst_notes ++ ins)))
    end
  /\ (forall n, In n inst_notes ->
        exists m,
          In m (snd (repair_micro_gaps_with_phonemes min_phoneme_dur max_fill_dur
                       min_overlap_for_covered max_neighbor_gap insert_velocity
                       inst_notes ts_phonemes))
          /\ covers n m)
  /\ Forall (fun x =>
               exists s e p,
                 In (s, e, p) (voiced_phones min_phoneme_dur ts_phonemes)
                 /\ clipped_insert min_phoneme_dur min_overlap_for_covered
                                   insert_velocity inst_notes s e x)
            (repair_inserted min_phoneme_dur max_fill_dur min_overlap_for_covered
               max_neighbor_gap insert_velocity inst_notes ts_phonemes).
Proof.
  split; [apply repair_result|]. split.
  - intros n Hn. rewrite repair_result.
    destruct (repair_inserted _ _ _ _ _ _ _) as [|x ins]; simpl.
    + exists n. split; [exact Hn|apply covers_refl].
    + apply microfix_merge_covers; [apply sorted_by_start_end_sorted|].
      apply sorted_by_start_end_In. apply in_or_app. left. exact Hn.
  - apply Forall_forall. intros x Hx. unfold repair_inserted, inserted_notes in Hx.
    apply in_flat_map in Hx. destruct Hx as ([[s e] p] & Hph & Hx).
    destruct (fill_note _ _ _ _ _ _ (s, e, p)) as [note|] eqn:Ef; [|contradiction].
    destruct Hx as [<-|[]].
    exists s, e, p. split; [exact Hph|].
    eapply fill_note_some. exact Ef.
Qed.

(** C3, as stated, fails twice.  (1) Two notes of pitch 57 that are 20 ms
    apart are present before the pass; one insertion elsewhere triggers the
    closing merge and the second note is no longer in the result, which has
    fewer notes than the input.  (2) A 2 ms note straddles the midpoint of the
    phoneme interval; it is neither the previous nor the next neighbour, and
    the inserted note [5.0, 5.2) overlaps it. *)
Lemma repair_removes_and_overlaps_counterexample :
  (repair_default
     [mkNote 80 57 0 0.2; mkNote 80 57 0.22 0.44; mkNote 80 62 4.5 4.98]
     [(5.0, 5.2, "ta"%string)]
   = (true, [mkNote 80 57 0 0.44; mkNote 80 62 4.5 5.2])
   /\ ~ In (mkNote 80 57 0.22 0.44)
          (snd (repair_default
                  [mkNote 80 57 0 0.2; mkNote 80 57 0.22 0.44; mkNote 80 62 4.5 4.98]
                  [(5.0, 5.2, "ta"%string)])))
  /\ (repair_inserted 0.025 0.25 0.01 0.14 64
        [mkNote 80 62 4.5 4.98; mkNote 80 70 5.099 5.101; mkNote 80 64 5.25 5.5]
        [(5.0, 5.2, "ta"%string)]
      = [mkNote 64 62 5.0 5.2]
      /\ 5.0 < 5.101 /\ 5.099 < 5.2).
Proof.
  split; [split|split; [|split]].
  - vm_compute. reflexivity.
  - vm_compute. intros [H|[H|[]]]; discriminate H.
  - vm_compute. reflexivity.
  - reflexivity.
  - reflexivity.
Qed.

Lemma repair_covers_witness :
  exists m,
    In m (snd (repair_micro_gaps_with_phonemes 0.025 0.25 0.01 0.14 64
                 [mkNote 80 57 0 0.2; mkNote 80 57 0.22 0.44; mkNote 80 62 4.5 4.98]
                 [(5.0, 5.2, "ta"%string)]))
    /\ covers (mkNote 80 57 0.22 0.44) m.
Proof.
  apply (proj1 (proj2 (repair_covers_existing_notes 0.025 0.25 0.01 0.14 64
                         [mkNote 80 57 0 0.2; mkNote 80 57 0.22 0.44;
                          mkNote 80 62 4.5 4.98]
                         [(5.0, 5.2, "ta"%string)]))).
  simpl. right. left. reflexivity.
Defined.

(** * Further properties of the engine *)

(** ** Segmenter: empty, gridded and gated output *)

Section SegmenterMore.

Variable force_split_phonemes : list string.
Variable rosvot_metadata : option metadata.
Variable time_per_frame : Q.
Variable min_note_duration : Q.

Lemma seg_loop_unvoiced (frames : list frame) :
  Forall (fun x => voiced x = false) frames ->
  forall i st, current_note st = None ->
    seg_loop force_split_phonemes rosvot_metadata time_per_frame min_note_duration
             frames i st = st.
Proof.
  induction 1 as [|x tl Hx _ IH]; intros i st Hst; simpl; [reflexivity|].
  assert (E : seg_step force_split_phonemes rosvot_metadata time_per_frame
                       min_note_duration st i x = st).
  { unfold seg_step. rewrite Hx, Hst. reflexivity. }
  rewrite E. apply IH. exact Hst.
Qed.

(** A track without a voiced frame (zeros, negative values, NaN, or no frame
    at all) yields no note. *)
Theorem segment_unvoiced_track_empty (pitch_data : list frame) :
  Forall (fun x => voiced x = false) pitch_data ->
  segment force_split_phonemes rosvot_metadata time_per_frame min_note_duration
          pitch_data = [].
Proof.
  intros H. unfold segment. rewrite (seg_loop_unvoiced pitch_data H) by reflexivity.
  reflexivity.
Qed.

Lemma on_grid_weaken (i j : Z) (n : Note) :
  (i <= j)%Z -> on_grid time_per_frame i n -> on_grid time_per_frame j n.
Proof.
  intros Hij (Hv & a & b & Hab & Hb & Hs & He).
  split; [exact Hv|]. exists a, b. repeat split; try assumption; lia.
Qed.

Lemma seg_step_grid (i : Z) (st : seg_state) (x : frame) :
  (0 <= i)%Z -> grid_inv time_per_frame i st ->
  grid_inv time_per_frame (i + 1)
    (seg_step force_split_phonemes rosvot_metadata time_per_frame min_note_duration
              st i x).
Proof.
  intros Hi [Hnotes Hcur].
  assert (Hnotes' : Forall (on_grid time_per_frame (i + 1)) (seg_notes st)).
  { eapply Forall_impl; [|exact Hnotes]. intros n. apply on_grid_weaken. lia. }
  assert (Hemit : forall cur, current_note st = Some cur ->
            Forall (on_grid time_per_frame (i + 1))
              (seg_notes st ++ [mkNote 80 cur (current_start_time st)
                                       (inject_Z i * time_per_frame)])).
  { intros cur Hc. apply Forall_app. split; [exact Hnotes'|].
    constructor; [|constructor]. destruct (Hcur cur Hc) as (a & Ha & Es).
    split; [reflexivity|]. exists a, i. simpl. repeat split; try assumption; lia. }
  assert (Hnew : forall cur : Z, exists a : Z,
            (0 <= a < i + 1)%Z
            /\ inject_Z i * time_per_frame = inject_Z a * time_per_frame).
  { intros _. exists i. split; [lia|reflexivity]. }
  unfold seg_step, grid_inv.
  destruct (voiced x); destruct (current_note st) as [cur|] eqn:Ecur; simpl.
  - destruct (_ || _); simpl.
    + split; [|intros c _; apply Hnew; exact c].
      destruct (_ || _); [apply Hemit; reflexivity|exact Hnotes'].
    + split; [exact Hnotes'|]. intros c Hc. rewrite Ecur in Hc.
      destruct (Hcur c Hc) as (a & Ha & Es). exists a. split; [lia|exact Es].
  - split; [exact Hnotes'|]. intros c _. apply Hnew. exact c.
  - split; [|discriminate].
    destruct (_ || _); [apply Hemit; reflexivity|exact Hnotes'].
  - split; [exact Hnotes'|]. rewrite Ecur. discriminate.
Qed.

Lemma seg_loop_grid (frames : list frame) :
  forall i st, (0 <= i)%Z -> grid_inv time_per_frame i st ->
  grid_inv time_per_frame (i + Z.of_nat (List.length frames))
    (seg_loop force_split_phonemes rosvot_metadata time_per_frame min_note_duration
              frames i st).
Proof.
  induction frames as [|x tl IH]; intros i st Hi Hinv; simpl List.length.
  - simpl. rewrite Z.add_0_r. exact Hinv.
  - rewrite Nat2Z.inj_succ.
    replace (i + Z.succ (Z.of_nat (List.length tl)))%Z
      with ((i + 1) + Z.of_nat (List.length tl))%Z by lia.
    simpl. apply IH; [lia|]. apply seg_step_grid; assumption.
Qed.

Lemma segment_on_grid (pitch_data : list frame) :
  Forall (on_grid time_per_frame (Z.of_nat (List.length pitch_data)))
    (segment force_split_phonemes rosvot_metadata time_per_frame min_note_duration
             pitch_data).
Proof.
  unfold segment, seg_finish.
  assert (H0 : grid_inv time_per_frame 0 seg_init).
  { split; [constructor|]. simpl. discriminate. }
  pose proof (seg_loop_grid pitch_data 0 seg_init (Z.le_refl 0) H0) as [Hn Hc].
  rewrite Z.add_0_l in Hn, Hc.
  destruct (current_note _) as [cur|]; [|exact Hn].
  destruct (Qle_bool _ _); [|exact Hn].
  apply Forall_app. split; [exact Hn|]. constructor; [|constructor].
  destruct (Hc cur eq_refl) as (a & Ha & Es).
  split; [reflexivity|]. exists a, (Z.of_nat (List.length pitch_data)).
  simpl. repeat split; try assumption; lia.
Qed.

(** Every note of the Segmenter has velocity 80 and runs from a frame
    boundary [a * time_per_frame] to a later one [b * time_per_frame], with
    [0 <= a < b <= N] for a track of [N] frames. *)
Theorem segment_notes_on_grid (pitch_data : list frame) :
  Forall (on_grid time_per_frame (Z.of_nat (List.length pitch_data)))
    (segment force_split_phonemes rosvot_metadata time_per_frame min_note_duration
             pitch_data).
Proof. apply segment_on_grid. Qed.

(** With a positive frame duration the output is monophonic: every note ends
    after it starts and no later than any later note starts. *)
Theorem segment_monophonic (pitch_data : list frame) :
  0 < time_per_frame ->
  time_ordered (segment force_split_phonemes rosvot_metadata time_per_frame
                        min_note_duration pitch_data)
  /\ Forall (fun n => start n < end_ n)
       (segment force_split_phonemes rosvot_metadata time_per_frame
                min_note_duration pitch_data).
Proof.
  intros Htpf. split.
  - apply segment_time_ordered. lra.
  - eapply Forall_impl; [|apply segment_on_grid].
    intros n (_ & a & b & Hab & _ & -> & ->).
    apply Qmult_lt_compat_r; [exact Htpf|]. rewrite <- Zlt_Qlt. lia.
Qed.

End SegmenterMore.

Lemma segment_monophonic_witness :
  time_ordered (segment [] None 0.02 0.01 scenario_track)
  /\ Forall (fun n => start n < end_ n) (segment [] None 0.02 0.01 scenario_track).
Proof. apply segment_monophonic. reflexivity. Defined.

Section SegmenterNoLabels.

Variable rosvot_metadata : option metadata.
Variable time_per_frame : Q.
Variable min_note_duration : Q.

Lemma seg_step_gate (i : Z) (st : seg_state) (x : frame) :
  gate_inv min_note_duration st ->
  gate_inv min_note_duration
    (seg_step [] rosvot_metadata time_per_frame min_note_duration st i x).
Proof.
  intros Hg. unfold seg_step, gate_inv.
  change (force_cut_voiced [] rosvot_metadata time_per_frame
            (inject_Z i * time_per_frame)) with false.
  change (force_cut_unvoiced [] rosvot_metadata (inject_Z i * time_per_frame))
    with false.
  rewrite !orb_false_r.
  destruct (voiced x); destruct (current_note st) as [cur|]; simpl; try exact Hg.
  - destruct (Qlt_bool _ _); simpl; [|exact Hg].
    destruct (Qle_bool _ _) eqn:E; [|exact Hg].
    apply Forall_app. split; [exact Hg|]. constructor; [|constructor].
    simpl. apply Qle_bool_iff. exact E.
  - destruct (Qle_bool _ _) eqn:E; [|exact Hg].
    apply Forall_app. split; [exact Hg|]. constructor; [|constructor].
    simpl. apply Qle_bool_iff. exact E.
Qed.

Lemma seg_loop_gate (frames : list frame) :
  forall i st, gate_inv min_note_duration st ->
  gate_inv min_note_duration
    (seg_loop [] rosvot_metadata time_per_frame min_note_duration frames i st).
Proof.
  induction frames as [|x tl IH]; intros i st Hg; simpl; [exact Hg|].
  apply IH. apply seg_step_gate. exact Hg.
Qed.

(** With no forced-cut label configured, no emitted note is shorter than
    [min_note_duration]. *)
Theorem segment_min_duration_without_labels (pitch_data : list frame) :
  Forall (fun n => min_note_duration <= end_ n - start n)
    (segment [] rosvot_metadata time_per_frame min_note_duration pitch_data).
Proof.
  unfold segment, seg_finish.
  pose proof (seg_loop_gate pitch_data 0 seg_init (Forall_nil _)) as Hg.
  unfold gate_inv in Hg.
  destruct (current_note _) as [cur|]; [|exact Hg].
  destruct (Qle_bool _ _) eqn:E; [|exact Hg].
  apply Forall_app. split; [exact Hg|]. constructor; [|constructor].
  simpl. apply Qle_bool_iff. exact E.
Qed.

Lemma seg_loop_constant_pitch (p : Z) (frames : list frame) :
  Forall (fun x => voiced x = true /\ hz_to_midi_note (hz_value x) = p) frames ->
  forall i st, current_note st = Some p ->
    seg_loop [] rosvot_metadata time_per_frame min_note_duration frames i st = st.
Proof.
  induction 1 as [|x tl [Hv Hp] _ IH]; intros i st Hst; simpl; [reflexivity|].
  assert (E : seg_step [] rosvot_metadata time_per_frame min_note_duration st i x = st).
  { unfold seg_step. rewrite Hv, Hp, Hst, Z.sub_diag. reflexivity. }
  rewrite E. apply IH. exact Hst.
Qed.

(** A fully voiced track whose frames all convert to the same pitch [p], with
    no forced-cut label configured, yields exactly one note of pitch [p] over
    the whole track when the track lasts at least [min_note_duration], and no
    note otherwise. *)
Theorem segment_constant_pitch (p : Z) (x0 : frame) (rest : list frame) :
  Forall (fun x => voiced x = true /\ hz_to_midi_note (hz_value x) = p) (x0 :: rest) ->
  segment [] rosvot_metadata time_per_frame min_note_duration (x0 :: rest)
  = if Qle_bool min_note_duration
         (inject_Z (Z.of_nat (List.length (x0 :: rest))) * time_per_frame
          - inject_Z 0 * time_per_frame)
    then [mkNote 80 p (inject_Z 0 * time_per_frame)
            (inject_Z (Z.of_nat (List.length (x0 :: rest))) * time_per_frame)]
    else [].
Proof.
  intros H. inversion H as [|? ? [Hv Hp] Hrest]; subst.
  unfold segment. cbn [seg_loop]. 
  assert (E : seg_step [] rosvot_metadata time_per_frame min_note_duration
                       seg_init 0 x0
              = mkSeg [] (Some (hz_to_midi_note (hz_value x0)))
                      (inject_Z 0 * time_per_frame)).
  { unfold seg_step. rewrite Hv. reflexivity. }
  rewrite E, (seg_loop_constant_pitch _ rest Hrest) by reflexivity.
  unfold seg_finish. cbn [current_note current_start_time seg_notes].
  destruct (Qle_bool _ _); reflexivity.
Qed.

End SegmenterNoLabels.

Lemma segment_unvoiced_track_witness :
  segment ["t"%string] None 0.02 0.01 [Hz 0; Hz (-3); NaN] = [].
Proof.
  apply (segment_unvoiced_track_empty ["t"%string] None 0.02 0.01 [Hz 0; Hz (-3); NaN]).
  repeat constructor.
Defined.

Lemma segment_constant_pitch_witness :
  segment [] None 0.02 0.01 [Hz 220; Hz 221; Hz 222]
  = if Qle_bool 0.01 (inject_Z (Z.of_nat (List.length [Hz 220; Hz 221; Hz 222])) * 0.02
                      - inject_Z 0 * 0.02)
    then [mkNote 80 57 (inject_Z 0 * 0.02)
            (inject_Z (Z.of_nat (List.length [Hz 220; Hz 221; Hz 222])) * 0.02)]
    else [].
Proof.
  apply (segment_constant_pitch None 0.02 0.01 57 (Hz 220) [Hz 221; Hz 222]).
  repeat constructor.
Defined.

(** ** Gap bridging: disabled, and what a rewritten frame holds *)

Lemma bridge_step_disabled (max_gap_frames : Z) (st : bridge_state) (i : Z) (x : bool) :
  (max_gap_frames <= 0)%Z ->
  bs_f0 (bridge_step max_gap_frames st i x) = bs_f0 st.
Proof.
  intros Hmax. unfold bridge_step. destruct (negb x); [reflexivity|].
  destruct (Z.ltb_spec 0 (bs_run st)); destruct (Z.leb_spec (bs_run st) max_gap_frames);
    simpl; try reflexivity; lia.
Qed.

Lemma bridge_loop_disabled (max_gap_frames : Z) (vs : list bool) :
  (max_gap_frames <= 0)%Z ->
  forall i st, bs_f0 (bridge_loop max_gap_frames vs i st) = bs_f0 st.
Proof.
  intros Hmax. induction vs as [|x tl IH]; intros i st; simpl; [reflexivity|].
  rewrite IH. apply bridge_step_disabled. exact Hmax.
Qed.

(** With a gap limit of zero frames (the default [BRIDGE_GAP_MS = 0]) or a
    negative one, the Gap Bridger returns its input. *)
Theorem bridge_disabled_is_identity (f0 : list frame) (max_gap_frames : Z) :
  (max_gap_frames <= 0)%Z -> _bridge_unvoiced_gaps f0 max_gap_frames = f0.
Proof.
  intros Hmax. unfold _bridge_unvoiced_gaps.
  rewrite bridge_loop_disabled by exact Hmax. reflexivity.
Qed.

Lemma bridge_disabled_witness :
  _bridge_unvoiced_gaps scenario_track 0 = scenario_track.
Proof. apply bridge_disabled_is_identity. lia. Defined.

Lemma kept_or_filled_set_range (orig cur : list frame) :
  Forall2 kept_or_filled orig cur ->
  forall k a b q, 1e-6 <= q ->
    Forall2 kept_or_filled orig (set_range cur k a b (Hz q)).
Proof.
  induction 1 as [|x y orig cur Hxy _ IH]; intros k a b q Hq; simpl; constructor.
  - destruct ((a <=? k)%Z && (k <? b)%Z); [|exact Hxy].
    right. exists q. split; [reflexivity|exact Hq].
  - apply IH. exact Hq.
Qed.

Lemma bridge_step_kept_or_filled (orig : list frame) (max_gap_frames : Z)
    (st : bridge_state) (i : Z) (x : bool) :
  Forall2 kept_or_filled orig (bs_f0 st) ->
  Forall2 kept_or_filled orig (bs_f0 (bridge_step max_gap_frames st i x)).
Proof.
  intros H. unfold bridge_step. destruct (negb x); [exact H|].
  destruct (_ && _); [|exact H]. simpl. unfold set_slice.
  apply kept_or_filled_set_range; [exact H|]. apply pymax_spec.
Qed.

Lemma bridge_loop_kept_or_filled (orig : list frame) (max_gap_frames : Z)
    (vs : list bool) :
  forall i st, Forall2 kept_or_filled orig (bs_f0 st) ->
  Forall2 kept_or_filled orig (bs_f0 (bridge_loop max_gap_frames vs i st)).
Proof.
  induction vs as [|x tl IH]; intros i st H; simpl; [exact H|].
  apply IH. apply bridge_step_kept_or_filled. exact H.
Qed.

Lemma Forall2_nth_error_both (A B : Type) (R : A -> B -> Prop) (l : list A)
    (l' : list B) :
  Forall2 R l l' ->
  forall i x y, nth_error l i = Some x -> nth_error l' i = Some y -> R x y.
Proof.
  induction 1 as [|a b l l' Hab _ IH]; intros i x y Hx Hy.
  - destruct i; discriminate Hx.
  - destruct i as [|i]; simpl in Hx, Hy.
    + injection Hx as <-. injection Hy as <-. exact Hab.
    + exact (IH i x y Hx Hy).
Qed.

(** A frame the Gap Bridger rewrites was unvoiced in the input and is voiced
    in the result, with a value of at least [1e-6]; every other frame is
    returned as it was.  So bridging never turns a frame unvoiced. *)
Theorem bridge_rewrites_unvoiced_to_voiced (f0 : list frame) (max_gap_frames : Z)
    (i : nat) (x y : frame) :
  nth_error f0 i = Some x ->
  nth_error (_bridge_unvoiced_gaps f0 max_gap_frames) i = Some y ->
  y = x \/ (voiced x = false /\ voiced y = true /\ exists q, y = Hz q /\ 1e-6 <= q).
Proof.
  intros Hx Hy.
  assert (H0 : Forall2 kept_or_filled f0 f0).
  { clear. induction f0; constructor; [left; reflexivity|assumption]. }
  pose proof (bridge_loop_kept_or_filled f0 max_gap_frames (map voiced f0) 0
                {| bs_f0 := f0; bs_run := 0; bs_start := -1 |} H0) as HF.
  fold (_bridge_unvoiced_gaps f0 max_gap_frames) in HF.
  destruct (Forall2_nth_error_both _ _ _ _ _ HF i x y Hx Hy) as [E|(q & E & Hq)];
    [left; exact E|].
  destruct (voiced x) eqn:Vx.
  - left.
    assert (Hinit : bridge_inv f0 (Z.of_nat (List.length (@nil frame)))
                      {| bs_f0 := f0; bs_run := 0; bs_start := -1 |}).
    { split; [reflexivity|]. split; [intros; assumption|]. split; [simpl; lia|].
      simpl. lia. }
    destruct (bridge_loop_inv f0 max_gap_frames f0 [] _ eq_refl Hinit)
      as (_ & Hkeep & _).
    simpl List.length in Hkeep. simpl Z.of_nat in Hkeep.
    fold (_bridge_unvoiced_gaps f0 max_gap_frames) in Hkeep.
    rewrite (Hkeep i x Hx Vx) in Hy. injection Hy as <-. reflexivity.
  - right. split; [reflexivity|]. split.
    + subst y. simpl. apply Qlt_bool_iff.
      apply Qlt_le_trans with 1e-6; [reflexivity|exact Hq].
    + exists q. split; assumption.
Qed.

Lemma bridge_rewrites_witness :
  Hz (440 # 2) = Hz 0
  \/ (voiced (Hz 0) = false /\ voiced (Hz (440 # 2)) = true
      /\ exists q, Hz (440 # 2) = Hz q /\ 1e-6 <= q).
Proof.
  apply (bridge_rewrites_unvoiced_to_voiced scenario_track 2 10 (Hz 0) (Hz (440 # 2)));
    vm_compute; reflexivity.
Defined.

(** ** The archived Segmenter against the current one *)

Lemma legacy_seg_step_eq (md : option metadata) (time_per_frame min_note_duration : Q)
    (st : seg_state) (i : Z) (x : frame) :
  legacy_seg_step time_per_frame min_note_duration st i x
  = seg_step [] md time_per_frame min_note_duration st i x.
Proof.
  unfold legacy_seg_step, seg_step.
  change (force_cut_voiced [] md time_per_frame (inject_Z i * time_per_frame))
    with false.
  change (force_cut_unvoiced [] md (inject_Z i * time_per_frame)) with false.
  destruct (voiced x); destruct (current_note st); rewrite ?orb_false_r; reflexivity.
Qed.

Lemma legacy_seg_loop_eq (md : option metadata) (time_per_frame min_note_duration : Q)
    (frames : list frame) :
  forall i st,
    legacy_seg_loop time_per_frame min_note_duration frames i st
    = seg_loop [] md time_per_frame min_note_duration frames i st.
Proof.
  induction frames as [|x tl IH]; intros i st; simpl; [reflexivity|].
  rewrite (legacy_seg_step_eq md). apply IH.
Qed.

(** The archived Segmenter emits exactly the notes of the current Segmenter
    run with no forced-cut label. *)
Lemma legacy_segment_eq (md : option metadata) (time_per_frame min_note_duration : Q)
    (pitch_data : list frame) :
  legacy_segment time_per_frame min_note_duration pitch_data
  = segment [] md time_per_frame min_note_duration pitch_data.
Proof.
  unfold legacy_segment, segment. rewrite (legacy_seg_loop_eq md). reflexivity.
Qed.

Lemma force_split_scan_no_metadata (labels : list string) :
  force_split_scan labels None = None.
Proof. destruct labels; reflexivity. Qed.

Lemma seg_step_no_metadata (labels : list string) (time_per_frame min_note_duration : Q)
    (st : seg_state) (i : Z) (x : frame) :
  seg_step labels None time_per_frame min_note_duration st i x
  = seg_step [] None time_per_frame min_note_duration st i x.
Proof.
  unfold seg_step, force_cut_voiced, force_cut_unvoiced.
  rewrite force_split_scan_no_metadata. reflexivity.
Qed.

Lemma segment_no_metadata (labels : list string) (time_per_frame min_note_duration : Q)
    (pitch_data : list frame) :
  segment labels None time_per_frame min_note_duration pitch_data
  = segment [] None time_per_frame min_note_duration pitch_data.
Proof.
  unfold segment. f_equal.
  generalize 0%Z, seg_init.
  induction pitch_data as [|x tl IH]; intros i st; simpl; [reflexivity|].
  rewrite seg_step_no_metadata. apply IH.
Qed.

(** With a positive hop length and sample rate, no metadata and bridging left
    at its default (disabled), the current primary pass returns exactly the
    notes of the archived [create_midi_from_pitch] for the same minimum note
    duration, whatever forced-cut labels are configured. *)
Theorem primary_pass_matches_archived (get_duration : string -> option Q)
    (env : Env) (self : MIDIConverter) (pitch_data : list frame)
    (min_note_duration : Q) :
  (0 < hop_length self)%Z -> (0 < sample_rate self)%Z ->
  BRIDGE_GAP_MS env = None ->
  create_midi_from_pitch get_duration env self pitch_data (Some min_note_duration) None
  = legacy_create_midi_from_pitch self pitch_data min_note_duration.
Proof.
  intros Hhop Hsr Hb. unfold create_midi_from_pitch, legacy_create_midi_from_pitch.
  destruct (Z.eqb_spec (sample_rate self) 0) as [E|_]; [lia|].
  rewrite Hb. simpl _infer_time_per_frame. simpl _getenv_float.
  set (tpf := inject_Z (hop_length self) / inject_Z (sample_rate self)).
  assert (Htpf : 0 < tpf).
  { apply Qlt_shift_div_l.
    - change 0 with (inject_Z 0). rewrite <- Zlt_Qlt. exact Hsr.
    - rewrite Qmult_0_l. change 0 with (inject_Z 0). rewrite <- Zlt_Qlt. exact Hhop. }
  destruct (Qeq_bool tpf 0) eqn:E0.
  { apply Qeq_bool_iff in E0. lra. }
  assert (Hgap : int_of_float (0.0 / 1000.0 / tpf) = 0%Z).
  { assert (E00 : 0.0 / 1000.0 == 0) by reflexivity.
    assert (Ez : 0.0 / 1000.0 / tpf == 0).
    { rewrite E00. unfold Qdiv. apply Qmult_0_l. }
    unfold int_of_float.
    destruct (Qle_bool 0 _).
    - rewrite (Qfloor_comp _ _ Ez). reflexivity.
    - rewrite (Qceiling_comp _ _ Ez). reflexivity. }
  rewrite Hgap. unfold _bridge_unvoiced_gaps.
  rewrite bridge_loop_disabled by lia. cbn [bs_f0].
  f_equal. rewrite segment_no_metadata, (legacy_segment_eq None).
  pose proof (segment_time_ordered [] None tpf min_note_duration
                (Qlt_le_weak _ _ Htpf) pitch_data) as Hord.
  unfold _merge_short_splits.
  destruct (segment _ _ _ _ _) as [|n0 tl]; [reflexivity|].
  apply merge_from_time_ordered; [reflexivity|exact Hord].
Qed.

Lemma primary_pass_matches_archived_witness :
  create_midi_from_pitch (fun _ => None) default_env
    {| sample_rate := 22050; hop_length := 441 |} scenario_track (Some 0.1) None
  = legacy_create_midi_from_pitch
      {| sample_rate := 22050; hop_length := 441 |} scenario_track 0.1.
Proof.
  apply primary_pass_matches_archived; reflexivity.
Defined.

(** ** Merger: what the merged list looks like *)

Lemma merge_from_no_adjacent (gap : Q) (rest : list Note) :
  forall prev, no_adjacent (merge_cond gap) (merge_from gap prev rest).
Proof.
  induction rest as [|n tl IH]; intros prev.
  - simpl. split; exact I.
  - rewrite merge_from_unfold. destruct (merge_cond gap prev n) eqn:C; [apply IH|].
    destruct (merge_from_head gap tl n) as (h & t & E & Hp & Hs).
    pose proof (IH n) as Hn. rewrite E in *. simpl. split; [|exact Hn].
    rewrite (merge_cond_head gap prev n h Hp Hs). exact C.
Qed.

Lemma merge_from_length (gap : Q) (rest : list Note) :
  forall prev, (List.length (merge_from gap prev rest) <= S (List.length rest))%nat.
Proof.
  induction rest as [|n tl IH]; intros prev; simpl; [lia|].
  destruct (_ && _); simpl.
  - specialize (IH (set_end prev (end_ n))). lia.
  - specialize (IH n). lia.
Qed.

(** After merging, no note is followed by a note of the same pitch within the
    gap threshold, and the list has not grown. *)
Theorem merge_short_splits_leaves_no_mergeable_pair (env : Env) (notes : list Note)
    (gap_thresh : option Q) :
  no_adjacent (merge_cond (resolved_gap env gap_thresh))
              (_merge_short_splits env notes gap_thresh)
  /\ (List.length (_merge_short_splits env notes gap_thresh) <= List.length notes)%nat.
Proof.
  unfold _merge_short_splits. fold (resolved_gap env gap_thresh).
  destruct notes as [|n0 tl]; [split; [exact I|reflexivity]|].
  split; [apply merge_from_no_adjacent|apply merge_from_length].
Qed.

Lemma time_ordered_set_end (prev n : Note) (tl : list Note) :
  time_ordered (prev :: n :: tl) -> time_ordered (set_end prev (end_ n) :: tl).
Proof.
  unfold time_ordered. intros H.
  inversion H as [|? ? Hprev Hrest]; subst.
  inversion Hrest as [|? ? Hn Htl]; subst.
  constructor; [|exact Htl]. exact Hn.
Qed.

Lemma merge_from_covers (gap : Q) (rest : list Note) :
  forall prev,
    time_ordered (prev :: rest) ->
    Forall (fun n => start n <= end_ n) (prev :: rest) ->
    forall x, covers x prev \/ In x rest ->
    exists y, In y (merge_from gap prev rest) /\ covers x y.
Proof.
  induction rest as [|n tl IH]; intros prev Hord Hval x Hx.
  - destruct Hx as [Hx|[]]. exists prev. split; [left; reflexivity|exact Hx].
  - rewrite merge_from_unfold.
    inversion Hord as [|? ? Hprev Hrest]; subst.
    inversion Hprev as [|? ? Hpn _]; subst.
    inversion Hval as [|? ? Hvp Hvrest]; subst.
    inversion Hvrest as [|? ? Hvn Hvtl]; subst.
    destruct (merge_cond gap prev n) eqn:C.
    + unfold merge_cond in C. apply andb_true_iff in C. destruct C as [Cp _].
      apply Z.eqb_eq in Cp.
      apply IH.
      * apply time_ordered_set_end. exact Hord.
      * constructor; [simpl; lra|exact Hvtl].
      * destruct Hx as [(Hp & Hs & He)|[<-|Hx]].
        -- left. unfold covers. simpl. repeat split; [exact Hp|exact Hs|lra].
        -- left. unfold covers. simpl. repeat split; [symmetry; exact Cp|lra|lra].
        -- right. exact Hx.
    + destruct Hx as [Hx|[<-|Hx]].
      * exists prev. split; [left; reflexivity|exact Hx].
      * destruct (IH n Hrest Hvrest n (or_introl (covers_refl n))) as (y & Hy & Hc).
        exists y. split; [right; exact Hy|exact Hc].
      * destruct (IH n Hrest Hvrest x (or_intror Hx)) as (y & Hy & Hc).
        exists y. split; [right; exact Hy|exact Hc].
Qed.

(** On a time-ordered sequence of notes that do not end before they start,
    merging loses nothing: every input note is covered by a merged note of
    its pitch that starts no later and ends no earlier. *)
Theorem merge_short_splits_covers_input (env : Env) (notes : list Note)
    (gap_thresh : option Q) (n : Note) :
  time_ordered notes ->
  Forall (fun a => start a <= end_ a) notes ->
  In n notes ->
  exists m, In m (_merge_short_splits env notes gap_thresh) /\ covers n m.
Proof.
  intros Hord Hval Hn. unfold _merge_short_splits.
  destruct notes as [|n0 tl]; [contradiction|].
  apply merge_from_covers; [exact Hord|exact Hval|].
  destruct Hn as [<-|Hn]; [left; apply covers_refl|right; exact Hn].
Qed.

Lemma merge_short_splits_covers_witness :
  exists m,
    In m (_merge_short_splits default_env
            [mkNote 80 57 0 0.2; mkNote 80 57 0.22 0.44] None)
    /\ covers (mkNote 80 57 0.22 0.44) m.
Proof.
  apply (merge_short_splits_covers_input default_env
           [mkNote 80 57 0 0.2; mkNote 80 57 0.22 0.44] None
           (mkNote 80 57 0.22 0.44)).
  - repeat constructor; vm_compute; discriminate.
  - repeat constructor; vm_compute; discriminate.
  - simpl. right. left. reflexivity.
Defined.

(** On overlapping notes the merge can shorten: the absorbing note takes the
    end of the absorbed one even when that end is earlier. *)
Example merge_short_splits_can_shorten :
  _merge_short_splits default_env [mkNote 80 60 0 10; mkNote 80 60 1 2] None
  = [mkNote 80 60 0 2].
Proof. reflexivity. Qed.

(** ** Repair: borrowed pitch, sorted result, empty input *)

Lemma min_by_gap_In (cs : list candidate) :
  forall best, In (min_by_gap best cs) (best :: cs).
Proof.
  induction cs as [|c tl IH]; intros best; simpl; [left; reflexivity|].
  destruct (Qlt_bool _ _).
  - right. apply IH.
  - destruct (IH best) as [H|H]; [left; exact H|right; right; exact H].
Qed.

Section RepairMore.

Variable min_phoneme_dur : Q.
Variable max_fill_dur : Q.
Variable min_overlap_for_covered : Q.
Variable max_neighbor_gap : Q.
Variable insert_velocity : Z.

Lemma fill_note_borrowed (notes : list Note) (s e : Q) (p : string) (x : Note) :
  fill_note min_phoneme_dur max_fill_dur min_overlap_for_covered max_neighbor_gap
            insert_velocity notes (s, e, p) = Some x ->
  borrowed_pitch max_fill_dur max_neighbor_gap notes s e x.
Proof.
  unfold fill_note, borrowed_pitch.
  destruct (Qlt_bool max_fill_dur (e - s)) eqn:Efill; [discriminate|].
  apply Qlt_bool_false_iff in Efill.
  destruct (Qle_bool min_overlap_for_covered (covered notes s e 0)); [discriminate|].
  destruct (find_prev_next notes ((s + e) * 0.5) None) as [prev nxt] eqn:Efpn.
  destruct (find_prev_next_spec _ _ _ _ _ Efpn) as [Hprev Hnxt].
  set (start_t := match prev with Some pv => pymax s (end_ pv) | None => s end).
  set (end_t := match nxt with Some nx => pymin e (start nx) | None => e end).
  assert (Hst : s <= start_t).
  { unfold start_t. destruct prev; [apply pymax_spec|lra]. }
  assert (Het : end_t <= e).
  { unfold end_t. destruct nxt; [apply pymin_spec|lra]. }
  set (cands := (match prev with
                 | Some pv => [("prev"%string, pymax 0 (s - end_ pv), pitch pv)]
                 | None => []
                 end)
                ++ (match nxt with
                    | Some nx => [("next"%string, pymax 0 (start nx - e), pitch nx)]
                    | None => []
                    end)).
  assert (Hc : forall c, In c cands ->
            exists n, In n notes /\ snd c = pitch n
              /\ ((end_ n <= (s + e) * 0.5 /\ s - end_ n <= cand_gap c)
                  \/ ((s + e) * 0.5 <= start n /\ start n - e <= cand_gap c))).
  { intros c Hin. unfold cands in Hin. apply in_app_or in Hin.
    destruct Hin as [Hin|Hin].
    - destruct prev as [pv|]; [|contradiction]. destruct Hin as [<-|[]].
      destruct (Hprev pv eq_refl) as [Hd|[Hi Hle]]; [discriminate Hd|].
      exists pv. split; [exact Hi|]. split; [reflexivity|]. left.
      split; [exact Hle|]. unfold cand_gap. simpl. apply pymax_spec.
    - destruct nxt as [nx|]; [|contradiction]. destruct Hin as [<-|[]].
      destruct (Hnxt nx eq_refl) as [Hi Hle].
      exists nx. split; [exact Hi|]. split; [reflexivity|]. right.
      split; [exact Hle|]. unfold cand_gap. simpl. apply pymax_spec. }
  fold cands. destruct cands as [|c0 cs] eqn:Ecands; [discriminate|].
  pose proof (min_by_gap_In cs c0) as Hmin.
  destruct (min_by_gap c0 cs) as [[src gap] pit].
  destruct (Hc _ Hmin) as (n & Hn & Hp & Hside).
  destruct (Qlt_bool max_neighbor_gap gap) eqn:Egap; [discriminate|].
  apply Qlt_bool_false_iff in Egap.
  destruct (Qlt_bool (end_t - start_t) min_phoneme_dur); [discriminate|].
  intros H. injection H as <-. simpl. split; [lra|].
  exists n. split; [exact Hn|]. split; [exact Hp|].
  unfold cand_gap in Hside. simpl in Hside.
  destruct Hside as [[H1 H2]|[H1 H2]]; [left|right]; split; try assumption; lra.
Qed.

(** Every note the repair inserts is no longer than [max_fill_dur] and takes
    its pitch from a note present before the pass that lies wholly before or
    wholly after the midpoint of the phoneme interval, at most
    [max_neighbor_gap] away from the interval. *)
Theorem repair_inserted_pitch_is_borrowed (inst_notes : list Note)
    (ts_phonemes : list phoneme) :
  Forall (fun x =>
            exists s e p,
              In (s, e, p) (voiced_phones min_phoneme_dur ts_phonemes)
              /\ borrowed_pitch max_fill_dur max_neighbor_gap inst_notes s e x)
         (repair_inserted min_phoneme_dur max_fill_dur min_overlap_for_covered
            max_neighbor_gap insert_velocity inst_notes ts_phonemes).
Proof.
  apply Forall_forall. intros x Hx. unfold repair_inserted, inserted_notes in Hx.
  apply in_flat_map in Hx. destruct Hx as ([[s e] p] & Hph & Hx).
  destruct (fill_note _ _ _ _ _ _ (s, e, p)) as [note|] eqn:Ef; [|contradiction].
  destruct Hx as [<-|[]].
  exists s, e, p. split; [exact Hph|].
  destruct (fill_note_borrowed _ _ _ _ _ Ef) as (Hd & n & Hn & Hrest).
  split; [exact Hd|]. exists n. split; [|exact Hrest].
  apply sorted_by_start_end_In. exact Hn.
Qed.

(** With no note in the file there is no neighbour to borrow from: nothing is
    inserted, whatever the phonemes. *)
Theorem repair_without_notes (ts_phonemes : list phoneme) :
  repair_micro_gaps_with_phonemes min_phoneme_dur max_fill_dur
    min_overlap_for_covered max_neighbor_gap insert_velocity [] ts_phonemes
  = (false, []).
Proof.
  rewrite repair_result.
  assert (E : repair_inserted min_phoneme_dur max_fill_dur min_overlap_for_covered
                max_neighbor_gap insert_velocity [] ts_phonemes = []).
  { unfold repair_inserted, inserted_notes. simpl sorted_by_start_end.
    induction (voiced_phones min_phoneme_dur ts_phonemes) as [|[[s e] p] tl IH];
      [reflexivity|].
    simpl. rewrite IH.
    destruct (Qlt_bool max_fill_dur (e - s)); [reflexivity|].
    destruct (Qle_bool min_overlap_for_covered 0); reflexivity. }
  rewrite E. reflexivity.
Qed.

End RepairMore.

Lemma microfix_merge_from_head (rest : list Note) :
  forall m, exists h t,
    microfix_merge_from m rest = h :: t /\ pitch h = pitch m /\ start h = start m.
Proof.
  induction rest as [|n tl IH]; intros m; simpl.
  - exists m, []. repeat split.
  - destruct (_ && _).
    + destruct (IH (set_end m (pymax (end_ m) (end_ n)))) as (h & t & E & Hp & Hs).
      exists h, t. repeat split; assumption.
    + exists m, (microfix_merge_from n tl). repeat split.
Qed.

Lemma microfix_merge_from_starts (rest : list Note) :
  forall m y, In y (microfix_merge_from m rest) ->
  exists z, In z (m :: rest) /\ start y = start z.
Proof.
  induction rest as [|n tl IH]; intros m y Hy; simpl in Hy.
  - destruct Hy as [<-|[]]. exists m. split; [left; reflexivity|reflexivity].
  - destruct (_ && _).
    + destruct (IH _ y Hy) as (z & [<-|Hz] & E).
      * exists m. split; [left; reflexivity|exact E].
      * exists z. split; [right; right; exact Hz|exact E].
    + destruct Hy as [<-|Hy]; [exists m; split; [left; reflexivity|reflexivity]|].
      destruct (IH _ y Hy) as (z & Hz & E). exists z. split; [right; exact Hz|exact E].
Qed.

Lemma microfix_merge_from_sorted (rest : list Note) :
  forall m, start_sorted (m :: rest) -> start_sorted (microfix_merge_from m rest).
Proof.
  unfold start_sorted. induction rest as [|n tl IH]; intros m Hs; simpl.
  - exact Hs.
  - inversion Hs as [|? ? Hs' Hm]; subst.
    inversion Hs' as [|? ? Hs'' Hn]; subst.
    inversion Hm as [|? ? Hmn Hmtl]; subst.
    destruct (_ && _).
    + apply IH. constructor; [exact Hs''|exact Hmtl].
    + constructor; [apply IH; exact Hs'|].
      apply Forall_forall. intros y Hy.
      destruct (microfix_merge_from_starts tl n y Hy) as (z & Hz & E).
      rewrite E. rewrite Forall_forall in Hm. apply Hm. exact Hz.
Qed.

Lemma microfix_merge_from_no_adjacent (rest : list Note) :
  forall m, no_adjacent microfix_cond (microfix_merge_from m rest).
Proof.
  induction rest as [|n tl IH]; intros m.
  - simpl. split; exact I.
  - simpl. destruct ((pitch n =? pitch m)%Z && Qle_bool (start n - end_ m) 0.02) eqn:C;
      [apply IH|].
    destruct (microfix_merge_from_head tl n) as (h & t & E & Hp & Hs).
    pose proof (IH n) as Hn. rewrite E in *. simpl. split; [|exact Hn].
    unfold microfix_cond. rewrite Hp, Hs. exact C.
Qed.

(** When the repair inserts at least one note, the list it writes is sorted by
    start time and no note is followed by a note of the same pitch starting
    within 20 ms of its end. *)
Theorem repair_result_sorted_and_merged (min_phoneme_dur max_fill_dur
    min_overlap_for_covered max_neighbor_gap : Q) (insert_velocity : Z)
    (inst_notes : list Note) (ts_phonemes : list phoneme) :
  fst (repair_micro_gaps_with_phonemes min_phoneme_dur max_fill_dur
         min_overlap_for_covered max_neighbor_gap insert_velocity inst_notes
         ts_phonemes) = true ->
  start_sorted (snd (repair_micro_gaps_with_phonemes min_phoneme_dur max_fill_dur
                       min_overlap_for_covered max_neighbor_gap insert_velocity
                       inst_notes ts_phonemes))
  /\ no_adjacent microfix_cond
       (snd (repair_micro_gaps_with_phonemes min_phoneme_dur max_fill_dur
               min_overlap_for_covered max_neighbor_gap insert_velocity
               inst_notes ts_phonemes)).
Proof.
  rewrite repair_result.
  destruct (repair_inserted _ _ _ _ _ _ _) as [|x ins]; [discriminate|].
  intros _. cbn [snd]. unfold microfix_merge.
  pose proof (sorted_by_start_end_sorted (inst_notes ++ x :: ins)) as Hs.
  destruct (sorted_by_start_end (inst_notes ++ x :: ins)) as [|n0 tl].
  - split; [constructor|exact I].
  - split; [apply microfix_merge_from_sorted; exact Hs|
            apply microfix_merge_from_no_adjacent].
Qed.

Lemma repair_result_sorted_witness :
  start_sorted (snd (repair_micro_gaps_with_phonemes 0.025 0.25 0.01 0.14 64
                       [mkNote 80 62 4.5 4.98; mkNote 80 57 0 0.2]
                       [(5.0, 5.2, "ta"%string)]))
  /\ no_adjacent microfix_cond
       (snd (repair_micro_gaps_with_phonemes 0.025 0.25 0.01 0.14 64
               [mkNote 80 62 4.5 4.98; mkNote 80 57 0 0.2]
               [(5.0, 5.2, "ta"%string)])).
Proof.
  apply (repair_result_sorted_and_merged 0.025 0.25 0.01 0.14 64
           [mkNote 80 62 4.5 4.98; mkNote 80 57 0 0.2] [(5.0, 5.2, "ta"%string)]).
  vm_compute. reflexivity.
Defined.

(** ** Frequency to pitch: order and range *)

Section PitchOrder.
Local Open Scope R_scope.

Lemma Int_part_le (x y : R) : x <= y -> (Int_part x <= Int_part y)%Z.
Proof.
  intros Hxy. destruct (base_Int_part x) as [Hx _]. destruct (base_Int_part y) as [_ Hy].
  assert (H : IZR (Int_part x) < IZR (Int_part y + 1)) by (rewrite plus_IZR; lra).
  apply lt_IZR in H. lia.
Qed.

Lemma Int_part_nonneg (x : R) : 0 <= x -> (0 <= Int_part x)%Z.
Proof.
  intros Hx. destruct (base_Int_part x) as [_ H].
  assert (H' : IZR (-1) < IZR (Int_part x)) by lra.
  apply lt_IZR in H'. lia.
Qed.

Lemma Rtrunc_le (x y : R) : x <= y -> (Rtrunc x <= Rtrunc y)%Z.
Proof.
  intros Hxy. unfold Rtrunc.
  destruct (Rle_dec 0 x) as [Hx|Hx]; destruct (Rle_dec 0 y) as [Hy|Hy].
  - apply Int_part_le. exact Hxy.
  - exfalso. lra.
  - assert (H1 : (0 <= Int_part (- x))%Z) by (apply Int_part_nonneg; lra).
    assert (H2 : (0 <= Int_part y)%Z) by (apply Int_part_nonneg; exact Hy).
    lia.
  - assert (H : (Int_part (- y) <= Int_part (- x))%Z) by (apply Int_part_le; lra).
    lia.
Qed.

Lemma log2R_le (x y : R) : 0 < x -> x <= y -> log2R x <= log2R y.
Proof.
  intros Hx Hxy. unfold log2R. pose proof ln2_pos as L2.
  apply Rmult_le_compat_r; [left; apply Rinv_0_lt_compat; exact L2|].
  destruct Hxy as [Hlt|Heq]; [left; apply ln_increasing; assumption|].
  rewrite Heq. right. reflexivity.
Qed.

Lemma hz_to_midi_note_R_pos (hz : R) :
  0 < hz -> hz_to_midi_note_R hz = Rtrunc (69 + 12 * log2R (hz / 440)).
Proof.
  intros H. unfold hz_to_midi_note_R.
  destruct (Rle_dec hz 0) as [Hle|_]; [exfalso; lra|reflexivity].
Qed.

End PitchOrder.

Lemma hz_to_midi_note_le (hz1 hz2 : Q) :
  0 < hz1 -> hz1 <= hz2 -> (hz_to_midi_note hz1 <= hz_to_midi_note hz2)%Z.
Proof.
  intros H1 H12.
  assert (R1 : (0 < Q2R hz1)%R) by (rewrite <- Q2R_zero; apply Qlt_Rlt; exact H1).
  assert (R12 : (Q2R hz1 <= Q2R hz2)%R) by (apply Qle_Rle; exact H12).
  rewrite !hz_to_midi_note_real, !hz_to_midi_note_R_pos by lra.
  apply Rtrunc_le.
  assert (Hm : (log2R (Q2R hz1 / 440) <= log2R (Q2R hz2 / 440))%R).
  { apply log2R_le; unfold Rdiv.
    - apply Rmult_lt_0_compat; lra.
    - apply Rmult_le_compat_r; lra. }
  lra.
Qed.

(** On voiced frequencies the conversion is monotone: a higher frequency never
    gets a lower pitch. *)
Theorem hz_to_midi_note_monotone (hz1 hz2 : Q) :
  0 < hz1 -> hz1 <= hz2 -> (hz_to_midi_note hz1 <= hz_to_midi_note hz2)%Z.
Proof. apply hz_to_midi_note_le. Qed.

Lemma hz_to_midi_note_monotone_witness :
  (hz_to_midi_note 440 <= hz_to_midi_note 466)%Z.
Proof. apply hz_to_midi_note_monotone; [reflexivity|vm_compute; discriminate]. Defined.

(** Frequencies from 8.18 Hz to 13289 Hz convert to a valid MIDI note number,
    0 to 127. *)
Theorem hz_to_midi_note_midi_range (hz : Q) :
  8.18 <= hz -> hz <= 13289 -> (0 <= hz_to_midi_note hz <= 127)%Z.
Proof.
  intros Hlo Hhi.
  assert (E1 : hz_to_midi_note 8.18 = 0%Z) by (vm_compute; reflexivity).
  assert (E2 : hz_to_midi_note 13289 = 127%Z) by (vm_compute; reflexivity).
  split.
  - rewrite <- E1. apply hz_to_midi_note_le; [reflexivity|exact Hlo].
  - rewrite <- E2. apply hz_to_midi_note_le; [|exact Hhi].
    apply Qlt_le_trans with 8.18; [reflexivity|exact Hlo].
Qed.

Lemma hz_to_midi_note_midi_range_witness : (0 <= hz_to_midi_note 220 <= 127)%Z.
Proof. apply hz_to_midi_note_midi_range; vm_compute; discriminate. Defined.

(** Below 8.18 Hz the order breaks at zero: an unvoiced 0 Hz maps to pitch 0
    while a positive frequency near zero maps to a negative pitch. *)
Example hz_to_midi_note_low_frequency :
  hz_to_midi_note 0 = 0%Z /\ hz_to_midi_note 1 = (-36)%Z.
Proof. split; vm_compute; reflexivity. Qed.

(** ** Calibrator: the range of the result *)

(** Whatever is probed, the frame duration returned is the nominal one or lies
    between 15 ms and 30 ms. *)
Theorem infer_time_per_frame_range (get_duration : string -> option Q)
    (pitch_data : list frame) (md : option metadata) (default_tpf : Q) :
  _infer_time_per_frame get_duration pitch_data md default_tpf = default_tpf
  \/ 0.015 <= _infer_time_per_frame get_duration pitch_data md default_tpf <= 0.030.
Proof.
  unfold _infer_time_per_frame.
  destruct md as [m|]; [|left; reflexivity].
  destruct (wav_fn m) as [fn|]; [|left; reflexivity].
  destruct (get_duration fn) as [dur|]; [|left; reflexivity].
  destruct (Qle_bool 0.015 _) eqn:E1; simpl; [|left; reflexivity].
  destruct (Qle_bool _ 0.030) eqn:E2; [|left; reflexivity].
  right. split; apply Qle_bool_iff; assumption.
Qed.

(** ** Coverage analysis: full, empty and missing *)

Lemma spec_overlap_ge_term (midi_notes : list Note) (s e : Q) (n : Note) :
  In n midi_notes ->
  Qmax 0 (Qmin (end_ n) e - Qmax (start n) s) <= spec_overlap midi_notes s e.
Proof.
  induction midi_notes as [|h tl IH]; intros Hn; [contradiction|].
  simpl. pose proof (spec_overlap_nonneg tl s e) as Hpos.
  destruct Hn as [<-|Hn].
  - lra.
  - specialize (IH Hn).
    pose proof (Q.le_max_l 0 (Qmin (end_ h) e - Qmax (start h) s)). lra.
Qed.

Lemma coverage_ratio_unfold (midi_notes : list Note) (s e : Q) :
  s < e ->
  coverage_ratio midi_notes s e
  = match _find_overlapping_notes midi_notes s e with
    | [] => Some 0
    | o :: tl => Some (pymin (sum_overlap_duration (o :: tl) / (e - s)) 1.0)
    end.
Proof.
  intros Hse. unfold coverage_ratio, _calculate_coverage_ratio.
  destruct (_find_overlapping_notes midi_notes s e) as [|o tl]; [reflexivity|].
  destruct (Qeq_bool (e - s) 0) eqn:E; [|reflexivity].
  apply Qeq_bool_iff in E. lra.
Qed.

Lemma coverage_ratio_full_lemma (midi_notes : list Note) (s e : Q) (n : Note) :
  s < e ->
  Forall (fun a => start a <= end_ a) midi_notes ->
  In n midi_notes -> start n <= s -> e <= end_ n ->
  exists r, coverage_ratio midi_notes s e = Some r /\ r == 1.
Proof.
  intros Hse Hval Hn Hs He.
  pose proof (sum_overlap_is_spec_overlap midi_notes s e Hse Hval) as Hsum.
  pose proof (spec_overlap_ge_term midi_notes s e n Hn) as Hterm.
  assert (Hfull : e - s <= spec_overlap midi_notes s e).
  { apply Qle_trans with (Qmax 0 (Qmin (end_ n) e - Qmax (start n) s)); [|exact Hterm].
    apply Qle_trans with (Qmin (end_ n) e - Qmax (start n) s); [|apply Q.le_max_r].
    rewrite (Q.min_r (end_ n) e He), (Q.max_r (start n) s Hs). lra. }
  rewrite coverage_ratio_unfold by exact Hse.
  destruct (_find_overlapping_notes midi_notes s e) as [|o tl].
  - exfalso. assert (E0 : spec_overlap midi_notes s e == 0) by (rewrite <- Hsum; reflexivity).
    lra.
  - eexists. split; [reflexivity|].
    assert (Hge : 1 <= sum_overlap_duration (o :: tl) / (e - s)).
    { apply Qle_shift_div_l; [lra|]. rewrite Hsum. lra. }
    destruct (pymin_spec (sum_overlap_duration (o :: tl) / (e - s)) 1.0)
      as (H1 & H2 & [E|E]); rewrite E in *.
    + assert (H10 : 1.0 == 1) by reflexivity. lra.
    + reflexivity.
Qed.

(** An interval lying wholly inside one note has coverage ratio 1, whatever
    the other notes are. *)
Theorem coverage_ratio_full (midi_notes : list Note) (s e : Q) (n : Note) :
  s < e ->
  Forall (fun a => start a <= end_ a) midi_notes ->
  In n midi_notes -> start n <= s -> e <= end_ n ->
  exists r, coverage_ratio midi_notes s e = Some r /\ r == 1.
Proof. apply coverage_ratio_full_lemma. Qed.

Lemma coverage_ratio_full_witness :
  exists r, coverage_ratio [mkNote 80 57 0 0.2; mkNote 80 62 4.5 5.2] 5.0 5.2 = Some r
            /\ r == 1.
Proof.
  apply (coverage_ratio_full [mkNote 80 57 0 0.2; mkNote 80 62 4.5 5.2] 5.0 5.2
           (mkNote 80 62 4.5 5.2)).
  - reflexivity.
  - repeat constructor; vm_compute; discriminate.
  - simpl. right. left. reflexivity.
  - vm_compute. discriminate.
  - vm_compute. discriminate.
Defined.

Lemma overlapping_durations_positive (midi_notes : list Note) (s e : Q) :
  s < e -> Forall (fun a => start a < end_ a) midi_notes ->
  Forall (fun o => 0 < overlap_duration o) (_find_overlapping_notes midi_notes s e).
Proof.
  intros Hse. induction 1 as [|n tl Hn _ IH]; simpl; [constructor|].
  destruct (Qlt_bool (start n) e) eqn:E1; destruct (Qlt_bool s (end_ n)) eqn:E2;
    simpl; try exact IH.
  apply Qlt_bool_iff in E1, E2. constructor; [|exact IH]. simpl.
  destruct (pymin_spec (end_ n) e) as (_ & _ & [-> | ->]);
    destruct (pymax_spec (start n) s) as (_ & _ & [-> | ->]); lra.
Qed.

Lemma sum_overlap_positive (l : list overlap_info) :
  l <> [] -> Forall (fun o => 0 < overlap_duration o) l -> 0 < sum_overlap_duration l.
Proof.
  intros Hne H. induction H as [|o tl Ho Htl IH]; [contradiction|].
  rewrite sum_overlap_cons. destruct tl as [|o' tl'].
  - unfold sum_overlap_duration. simpl. lra.
  - assert (0 < sum_overlap_duration (o' :: tl')) by (apply IH; discriminate). lra.
Qed.

(** For notes that end after they start, the coverage ratio of an interval is
    positive exactly when some note overlaps it, that is, when the report
    says [has_midi]. *)
Theorem coverage_ratio_positive_iff_overlap (midi_notes : list Note) (s e : Q) :
  s < e ->
  Forall (fun a => start a < end_ a) midi_notes ->
  exists r,
    coverage_ratio midi_notes s e = Some r
    /\ (0 < r <-> _find_overlapping_notes midi_notes s e <> []).
Proof.
  intros Hse Hval. rewrite coverage_ratio_unfold by exact Hse.
  pose proof (overlapping_durations_positive midi_notes s e Hse Hval) as Hpos.
  destruct (_find_overlapping_notes midi_notes s e) as [|o tl].
  - exists 0. split; [reflexivity|]. split; [intros H; lra|intros H; contradiction].
  - eexists. split; [reflexivity|]. split; [intros _; discriminate|intros _].
    assert (Hs : 0 < sum_overlap_duration (o :: tl))
      by (apply sum_overlap_positive; [discriminate|exact Hpos]).
    assert (Hd : 0 < sum_overlap_duration (o :: tl) / (e - s)).
    { apply Qlt_shift_div_l; lra. }
    destruct (pymin_spec (sum_overlap_duration (o :: tl) / (e - s)) 1.0)
      as (_ & _ & [E|E]); rewrite E; [exact Hd|reflexivity].
Qed.

Lemma coverage_ratio_positive_witness :
  exists r,
    coverage_ratio [mkNote 80 57 0 0.2] 0.1 0.3 = Some r
    /\ (0 < r <-> _find_overlapping_notes [mkNote 80 57 0 0.2] 0.1 0.3 <> []).
Proof.
  apply coverage_ratio_positive_iff_overlap.
  - reflexivity.
  - repeat constructor.
Defined.

Lemma find_missing_segments_sound (midi_notes : list Note) (phs : list phoneme) :
  forall ms, _find_missing_segments midi_notes phs = Some ms ->
  Forall (fun seg =>
            ms_phoneme seg <> "SP"%string
            /\ In (ms_start seg, ms_end seg, ms_phoneme seg) phs
            /\ coverage_ratio midi_notes (ms_start seg) (ms_end seg)
               = Some (ms_coverage_ratio seg)
            /\ ms_coverage_ratio seg < 0.1
            /\ ms_duration seg = ms_end seg - ms_start seg
            /\ (0 < ms_coverage_ratio seg -> ms_reason seg = "low_coverage"%string)
            /\ (ms_coverage_ratio seg <= 0 -> ms_reason seg = "no_midi"%string)) ms.
Proof.
  induction phs as [|[[s e] p] tl IH]; intros ms H; simpl in H.
  - injection H as <-. constructor.
  - assert (Hweak : forall ms', _find_missing_segments midi_notes tl = Some ms' ->
              Forall (fun seg =>
                ms_phoneme seg <> "SP"%string
                /\ In (ms_start seg, ms_end seg, ms_phoneme seg) ((s, e, p) :: tl)
                /\ coverage_ratio midi_notes (ms_start seg) (ms_end seg)
                   = Some (ms_coverage_ratio seg)
                /\ ms_coverage_ratio seg < 0.1
                /\ ms_duration seg = ms_end seg - ms_start seg
                /\ (0 < ms_coverage_ratio seg -> ms_reason seg = "low_coverage"%string)
            /\ (ms_coverage_ratio seg <= 0 -> ms_reason seg = "no_midi"%string))
                ms').
    { intros ms' H'. eapply Forall_impl; [|exact (IH ms' H')].
      intros seg (A & B & C). split; [exact A|]. split; [right; exact B|exact C]. }
    destruct (String.eqb_spec p "SP") as [Esp|Nsp]; [exact (Hweak ms H)|].
    destruct (coverage_ratio midi_notes s e) as [r|] eqn:Er; [|discriminate].
    destruct (_find_missing_segments midi_notes tl) as [rest|]; [|discriminate].
    destruct (Qlt_bool r 0.1) eqn:Elt.
    + injection H as <-. constructor; [|apply Hweak; reflexivity].
      apply Qlt_bool_iff in Elt. simpl.
      split; [exact Nsp|]. split; [left; reflexivity|]. split; [exact Er|].
      split; [exact Elt|]. split; [reflexivity|].
      destruct (Qlt_bool 0 r) eqn:E0.
      * apply Qlt_bool_iff in E0. split; [reflexivity|intros; lra].
      * apply Qlt_bool_false_iff in E0. split; [intros; lra|reflexivity].
    + injection H as <-. apply Hweak. reflexivity.
Qed.

Lemma find_missing_segments_complete (midi_notes : list Note) (phs : list phoneme) :
  forall ms, _find_missing_segments midi_notes phs = Some ms ->
  forall s e p r,
    In (s, e, p) phs -> p <> "SP"%string ->
    coverage_ratio midi_notes s e = Some r -> r < 0.1 ->
    exists seg, In seg ms /\ ms_start seg = s /\ ms_end seg = e
                /\ ms_phoneme seg = p /\ ms_coverage_ratio seg = r.
Proof.
  induction phs as [|[[s0 e0] p0] tl IH]; intros ms H s e p r Hin Hp Hr Hlt;
    [contradiction|].
  simpl in H.
  destruct (String.eqb_spec p0 "SP") as [Esp|Nsp].
  - destruct Hin as [Heq|Hin]; [injection Heq as <- <- <-; contradiction|].
    exact (IH ms H s e p r Hin Hp Hr Hlt).
  - destruct (coverage_ratio midi_notes s0 e0) as [r0|] eqn:Er0; [|discriminate].
    destruct (_find_missing_segments midi_notes tl) as [rest|]; [|discriminate].
    destruct Hin as [Heq|Hin].
    + injection Heq as <- <- <-. rewrite Hr in Er0. injection Er0 as <-.
      apply Qlt_bool_iff in Hlt. rewrite Hlt in H. injection H as <-.
      eexists. split; [left; reflexivity|]. simpl. repeat split.
    + destruct (IH rest eq_refl s e p r Hin Hp Hr Hlt) as (seg & Hseg & Hrest).
      exists seg. split; [|exact Hrest].
      destruct (Qlt_bool r0 0.1); injection H as <-; [right; exact Hseg|exact Hseg].
Qed.

(** The missing segments are exactly the phonemes not labelled [SP] whose
    coverage ratio is below 0.1; each is reported with that ratio, its
    duration, and the reason [low_coverage] when the ratio is positive,
    [no_midi] when it is not. *)
Theorem find_missing_segments_spec (midi_notes : list Note) (phs : list phoneme)
    (ms : list missing_segment) :
  _find_missing_segments midi_notes phs = Some ms ->
  Forall (fun seg =>
            ms_phoneme seg <> "SP"%string
            /\ In (ms_start seg, ms_end seg, ms_phoneme seg) phs
            /\ coverage_ratio midi_notes (ms_start seg) (ms_end seg)
               = Some (ms_coverage_ratio seg)
            /\ ms_coverage_ratio seg < 0.1
            /\ ms_duration seg = ms_end seg - ms_start seg
            /\ (0 < ms_coverage_ratio seg -> ms_reason seg = "low_coverage"%string)
            /\ (ms_coverage_ratio seg <= 0 -> ms_reason seg = "no_midi"%string)) ms
  /\ (forall s e p r,
        In (s, e, p) phs -> p <> "SP"%string ->
        coverage_ratio midi_notes s e = Some r -> r < 0.1 ->
        exists seg, In seg ms /\ ms_start seg = s /\ ms_end seg = e
                    /\ ms_phoneme seg = p /\ ms_coverage_ratio seg = r).
Proof.
  intros H. split.
  - apply find_missing_segments_sound. exact H.
  - apply find_missing_segments_complete. exact H.
Qed.

Lemma find_missing_segments_witness :
  Forall (fun seg =>
            ms_phoneme seg <> "SP"%string
            /\ In (ms_start seg, ms_end seg, ms_phoneme seg)
                  [(0, 1, "SP"%string); (5.0, 5.2, "ta"%string)]
            /\ coverage_ratio [mkNote 80 57 0 0.2] (ms_start seg) (ms_end seg)
               = Some (ms_coverage_ratio seg)
            /\ ms_coverage_ratio seg < 0.1
            /\ ms_duration seg = ms_end seg - ms_start seg
            /\ (0 < ms_coverage_ratio seg -> ms_reason seg = "low_coverage"%string)
            /\ (ms_coverage_ratio seg <= 0 -> ms_reason seg = "no_midi"%string))
         [mkMissing 5.0 5.2 (5.2 - 5.0) "ta" 0 "no_midi"].
Proof.
  apply (proj1 (find_missing_segments_spec [mkNote 80 57 0 0.2]
                  [(0, 1, "SP"%string); (5.0, 5.2, "ta"%string)]
                  [mkMissing 5.0 5.2 (5.2 - 5.0) "ta" 0 "no_midi"] eq_refl)).
Defined.

(** A phoneme lying wholly inside a note is never reported missing. *)
Theorem covered_phoneme_not_missing (midi_notes : list Note) (phs : list phoneme)
    (ms : list missing_segment) (seg : missing_segment) (n : Note) :
  _find_missing_segments midi_notes phs = Some ms ->
  Forall (fun a => start a <= end_ a) midi_notes ->
  In n midi_notes ->
  ms_start seg < ms_end seg -> start n <= ms_start seg -> ms_end seg <= end_ n ->
  ~ In seg ms.
Proof.
  intros H Hval Hn Hse Hs He Hin.
  pose proof (find_missing_segments_sound midi_notes phs ms H) as Hsound.
  rewrite Forall_forall in Hsound.
  destruct (Hsound seg Hin) as (_ & _ & Hr & Hlt & _).
  destruct (coverage_ratio_full_lemma midi_notes _ _ n Hse Hval Hn Hs He)
    as (r & Er & E1).
  rewrite Er in Hr. injection Hr as Hr. rewrite <- Hr in Hlt.
  assert (H01 : 0.1 < 1) by reflexivity. lra.
Qed.

Lemma covered_phoneme_not_missing_witness :
  ~ In (mkMissing 0.05 0.15 (0.15 - 0.05) "ta" 1 "low_coverage")
       [mkMissing 5.0 5.2 (5.2 - 5.0) "ta" 0 "no_midi"].
Proof.
  apply (covered_phoneme_not_missing [mkNote 80 57 0 0.2]
           [(0.05, 0.15, "ta"%string); (5.0, 5.2, "ta"%string)]
           [mkMissing 5.0 5.2 (5.2 - 5.0) "ta" 0 "no_midi"]
           (mkMissing 0.05 0.15 (0.15 - 0.05) "ta" 1 "low_coverage")
           (mkNote 80 57 0 0.2)).
  - vm_compute. reflexivity.
  - repeat constructor; vm_compute; discriminate.
  - left. reflexivity.
  - reflexivity.
  - vm_compute. discriminate.
  - vm_compute. discriminate.
Defined.

(** ** Statistics of the coverage report *)

Lemma coverage_loop_length (midi_notes : list Note) (items : list phoneme) :
  forall i l, coverage_loop midi_notes items i = Some l ->
  (List.length l <= List.length items)%nat.
Proof.
  induction items as [|[[s e] p] tl IH]; intros i l H; simpl in H.
  - injection H as <-. simpl. lia.
  - destruct (String.eqb p "SP").
    + specialize (IH _ _ H). simpl. lia.
    + destruct (_calculate_coverage_ratio s e _); [|discriminate].
      destruct (coverage_loop midi_notes tl (i + 1)) as [rest|] eqn:E; [|discriminate].
      injection H as <-. specialize (IH _ _ E). simpl. lia.
Qed.

Lemma find_missing_segments_length (midi_notes : list Note) (phs : list phoneme) :
  forall ms, _find_missing_segments midi_notes phs = Some ms ->
  (List.length ms <= List.length phs)%nat.
Proof.
  induction phs as [|[[s e] p] tl IH]; intros ms H; simpl in H.
  - injection H as <-. simpl. lia.
  - destruct (String.eqb p "SP").
    + specialize (IH _ H). simpl. lia.
    + destruct (coverage_ratio midi_notes s e) as [r|]; [|discriminate].
      destruct (_find_missing_segments midi_notes tl) as [rest|]; [|discriminate].
      specialize (IH _ eq_refl).
      destruct (Qlt_bool r 0.1); injection H as <-; simpl; lia.
Qed.

Lemma count_with_midi_bounds (l : list coverage_info) :
  (0 <= count_with_midi l <= Z.of_nat (List.length l))%Z.
Proof.
  unfold count_with_midi. pose proof (filter_length_le has_midi l). lia.
Qed.

Lemma success_rate_bounds (l : list coverage_info) : 0 <= success_rate l <= 1.
Proof.
  unfold success_rate. destruct l as [|c tl]; [split; discriminate|].
  pose proof (count_with_midi_bounds (c :: tl)) as [H0 H1].
  set (k := count_with_midi (c :: tl)) in *.
  set (len := Z.of_nat (List.length (c :: tl))) in *.
  assert (Hlen : (0 < len)%Z) by (unfold len; simpl List.length; lia).
  assert (Hl : 0 < inject_Z len) by (change 0 with (inject_Z 0); rewrite <- Zlt_Qlt; exact Hlen).
  split.
  - apply Qle_shift_div_l; [exact Hl|]. rewrite Qmult_0_l.
    change 0 with (inject_Z 0). rewrite <- Zle_Qle. exact H0.
  - apply Qle_shift_div_r; [exact Hl|]. rewrite Qmult_1_l.
    rewrite <- Zle_Qle. exact H1.
Qed.

(** In a report, both success rates lie between 0 and 1, the words and
    phonemes with MIDI never outnumber the words and phonemes of the
    timestamps, and neither do the missing segments. *)
Theorem analyze_coverage_statistics_bounds (ts : option timestamps)
    (midi_notes : list Note) (res : analysis_results) :
  analyze_coverage ts midi_notes = Some (Some res) ->
  0 <= word_success_rate (stats res) <= 1
  /\ 0 <= phoneme_success_rate (stats res) <= 1
  /\ (0 <= words_with_midi (stats res) <= total_words res)%Z
  /\ (0 <= phonemes_with_midi (stats res) <= total_phonemes res)%Z
  /\ (0 <= missing_segments_count (stats res) <= total_phonemes res)%Z.
Proof.
  unfold analyze_coverage. destruct ts as [t|]; [|discriminate].
  destruct midi_notes as [|n0 ns]; [discriminate|].
  destruct (coverage_loop (n0 :: ns) (ts_words t) 0) as [wc|] eqn:Ew; [|discriminate].
  destruct (coverage_loop (n0 :: ns) (ts_phonemes t) 0) as [pc|] eqn:Ep; [|discriminate].
  destruct (_find_missing_segments (n0 :: ns) (ts_phonemes t)) as [ms|] eqn:Em;
    [|discriminate].
  intros H. injection H as <-. simpl.
  pose proof (coverage_loop_length _ _ _ _ Ew) as Lw.
  pose proof (coverage_loop_length _ _ _ _ Ep) as Lp.
  pose proof (find_missing_segments_length _ _ _ Em) as Lm.
  pose proof (count_with_midi_bounds wc). pose proof (count_with_midi_bounds pc).
  split; [apply success_rate_bounds|]. split; [apply success_rate_bounds|].
  repeat split; lia.
Qed.

Lemma analyze_coverage_statistics_witness :
  exists res,
    analyze_coverage (Some (mkTimestamps [(0, 0.2, "sa"%string)]
                                         [(0, 0.1, "s"%string); (0.1, 0.2, "a"%string)]))
                     [mkNote 80 57 0.1 0.2] = Some (Some res)
    /\ 0 <= word_success_rate (stats res) <= 1
    /\ (0 <= missing_segments_count (stats res) <= total_phonemes res)%Z.
Proof.
  eexists. split; [vm_compute; reflexivity|].
  match goal with
  | |- context [stats ?r] =>
      destruct (analyze_coverage_statistics_bounds
                  (Some (mkTimestamps [(0, 0.2, "sa"%string)]
                           [(0, 0.1, "s"%string); (0.1, 0.2, "a"%string)]))
                  [mkNote 80 57 0.1 0.2] r) as (H1 & _ & _ & _ & H5)
  end.
  - vm_compute. reflexivity.
  - split; [exact H1|exact H5].
Defined.

(** ** Ticks and project notes *)

Lemma int_of_float_le (x y : Q) : x <= y -> (int_of_float x <= int_of_float y)%Z.
Proof.
  intros Hxy. unfold int_of_float.
  destruct (Qle_bool 0 x) eqn:Ex; destruct (Qle_bool 0 y) eqn:Ey.
  - apply Qfloor_resp_le. exact Hxy.
  - apply Qle_bool_iff in Ex. apply Qle_bool_false_iff in Ey. lra.
  - apply Qle_bool_false_iff in Ex. apply Qle_bool_iff in Ey.
    assert (H1 : (Qceiling x <= Qceiling 0)%Z) by (apply Qceiling_resp_le; lra).
    assert (H2 : (Qfloor 0 <= Qfloor y)%Z) by (apply Qfloor_resp_le; exact Ey).
    change (Qceiling 0) with 0%Z in H1. change (Qfloor 0) with 0%Z in H2. lia.
  - apply Qceiling_resp_le. exact Hxy.
Qed.

(** With a non-negative tempo and resolution, a later time never gets an
    earlier tick. *)
Theorem seconds_to_ticks_monotone (s1 s2 tempo : Q) (ticks_per_quarter : Z) :
  0 <= tempo -> (0 <= ticks_per_quarter)%Z -> s1 <= s2 ->
  (seconds_to_ticks s1 tempo ticks_per_quarter
   <= seconds_to_ticks s2 tempo ticks_per_quarter)%Z.
Proof.
  intros Ht Hq Hs. unfold seconds_to_ticks. apply int_of_float_le.
  assert (Hq' : 0 <= inject_Z ticks_per_quarter)
    by (change 0 with (inject_Z 0); rewrite <- Zle_Qle; exact Hq).
  assert (Ht' : 0 <= tempo / 60.0) by (apply Qle_shift_div_l; [reflexivity|lra]).
  apply Qmult_le_compat_r; [|exact Hq'].
  apply Qmult_le_compat_r; [exact Hs|exact Ht'].
Qed.

Lemma seconds_to_ticks_monotone_witness :
  (seconds_to_ticks 0.5 136.0 480 <= seconds_to_ticks 1.25 136.0 480)%Z.
Proof.
  apply seconds_to_ticks_monotone; [vm_compute; discriminate|lia|vm_compute; discriminate].
Defined.

Lemma merge_overlapping_from_pos (rest : list vpr_note) :
  forall cur y, In y (merge_overlapping_from cur rest) ->
  exists z, In z (cur :: rest) /\ pos y = pos z.
Proof.
  induction rest as [|n tl IH]; intros cur y Hy; simpl in Hy.
  - destruct Hy as [<-|[]]. exists cur. split; [left; reflexivity|reflexivity].
  - destruct (_ && _).
    + destruct (IH _ y Hy) as (z & [<-|Hz] & E).
      * exists cur. split; [left; reflexivity|exact E].
      * exists z. split; [right; right; exact Hz|exact E].
    + destruct Hy as [<-|Hy]; [exists cur; split; [left; reflexivity|reflexivity]|].
      destruct (IH _ y Hy) as (z & Hz & E). exists z. split; [right; exact Hz|exact E].
Qed.

Lemma merge_overlapping_from_sorted (v : Z) (rest : list vpr_note) :
  forall cur,
    pos_sorted (cur :: rest) ->
    Forall (fun n => (0 < duration n)%Z /\ vpr_velocity n = v) (cur :: rest) ->
    pos_sorted (merge_overlapping_from cur rest)
    /\ Forall (fun n => (0 < duration n)%Z /\ vpr_velocity n = v)
              (merge_overlapping_from cur rest).
Proof.
  unfold pos_sorted. induction rest as [|n tl IH]; intros cur Hs Hd; simpl.
  - split; assumption.
  - inversion Hs as [|? ? Hs' Hc]; subst.
    inversion Hs' as [|? ? Hs'' Hn]; subst.
    inversion Hc as [|? ? Hcn Hctl]; subst.
    inversion Hd as [|? ? [Hdc Hvc] Hd']; subst.
    inversion Hd' as [|? ? [Hdn Hvn] Hd'']; subst.
    destruct (_ && _).
    + apply IH.
      * constructor; [exact Hs''|exact Hctl].
      * constructor; [|exact Hd'']. simpl. split; [lia|reflexivity].
    + destruct (IH n Hs' Hd') as [IH1 IH2]. split.
      * constructor; [exact IH1|].
        apply Forall_forall. intros y Hy.
        destruct (merge_overlapping_from_pos tl n y Hy) as (z & Hz & E).
        rewrite E. rewrite Forall_forall in Hc. apply Hc. exact Hz.
      * constructor; [split; [exact Hdc|reflexivity]|exact IH2].
Qed.

Lemma merge_overlapping_from_length (rest : list vpr_note) :
  forall cur, (List.length (merge_overlapping_from cur rest) <= S (List.length rest))%nat.
Proof.
  induction rest as [|n tl IH]; intros cur; simpl; [lia|].
  destruct (_ && _); simpl.
  - match goal with |- (List.length (merge_overlapping_from ?c tl) <= _)%nat =>
      specialize (IH c) end. lia.
  - specialize (IH n). lia.
Qed.

Lemma merge_overlapping_notes_length (l : list vpr_note) :
  (List.length (merge_overlapping_notes l) <= List.length l)%nat.
Proof.
  destruct l as [|n0 tl]; [simpl; lia|]. apply merge_overlapping_from_length.
Qed.

Lemma merge_overlapping_from_positive (rest : list vpr_note) :
  forall cur,
    pos_sorted (cur :: rest) ->
    Forall (fun n => (0 < duration n)%Z) (cur :: rest) ->
    pos_sorted (merge_overlapping_from cur rest)
    /\ Forall (fun n => (0 < duration n)%Z) (merge_overlapping_from cur rest).
Proof.
  unfold pos_sorted. induction rest as [|n tl IH]; intros cur Hs Hd; simpl.
  - split; assumption.
  - inversion Hs as [|? ? Hs' Hc]; subst.
    inversion Hs' as [|? ? Hs'' Hn]; subst.
    inversion Hc as [|? ? Hcn Hctl]; subst.
    inversion Hd as [|? ? Hdc Hd']; subst.
    inversion Hd' as [|? ? Hdn Hd'']; subst.
    destruct (_ && _).
    + apply IH; [constructor; [exact Hs''|exact Hctl]|].
      constructor; [simpl; lia|exact Hd''].
    + destruct (IH n Hs' Hd') as [IH1 IH2]. split.
      * constructor; [exact IH1|].
        apply Forall_forall. intros y Hy.
        destruct (merge_overlapping_from_pos tl n y Hy) as (z & Hz & E).
        rewrite E. rewrite Forall_forall in Hc. apply Hc. exact Hz.
      * constructor; assumption.
Qed.

(** On notes in order of position with positive durations,
    [merge_overlapping_notes] returns notes in order of position with
    positive durations, and no more notes than it was given. *)
Theorem merge_overlapping_notes_sorted (notes : list vpr_note) :
  pos_sorted notes ->
  Forall (fun n => (0 < duration n)%Z) notes ->
  pos_sorted (merge_overlapping_notes notes)
  /\ Forall (fun n => (0 < duration n)%Z) (merge_overlapping_notes notes)
  /\ (List.length (merge_overlapping_notes notes) <= List.length notes)%nat.
Proof.
  intros Hs Hd.
  assert (H : pos_sorted (merge_overlapping_notes notes)
              /\ Forall (fun n => (0 < duration n)%Z) (merge_overlapping_notes notes)).
  { destruct notes as [|n0 tl]; [split; assumption|].
    apply merge_overlapping_from_positive; assumption. }
  destruct H as [H1 H2].
  split; [exact H1|]. split; [exact H2|apply merge_overlapping_notes_length].
Qed.

Lemma merge_overlapping_notes_witness :
  pos_sorted (merge_overlapping_notes
                [mkVprNote 0 480 60 "sa" "s a" 64; mkVprNote 500 460 60 "ku" "k u" 64])
  /\ Forall (fun n => (0 < duration n)%Z)
       (merge_overlapping_notes
          [mkVprNote 0 480 60 "sa" "s a" 64; mkVprNote 500 460 60 "ku" "k u" 64])
  /\ (List.length
        (merge_overlapping_notes
           [mkVprNote 0 480 60 "sa" "s a" 64; mkVprNote 500 460 60 "ku" "k u" 64])
      <= List.length [mkVprNote 0 480 60 "sa" "s a" 64;
                      mkVprNote 500 460 60 "ku" "k u" 64])%nat.
Proof.
  apply merge_overlapping_notes_sorted.
  - repeat constructor; simpl; lia.
  - repeat constructor.
Defined.

Lemma insert_by_pos_In (x y : vpr_note) (l : list vpr_note) :
  In x (insert_by_pos y l) <-> x = y \/ In x l.
Proof.
  induction l as [|z tl IH]; simpl.
  - intuition.
  - destruct (pos y <=? pos z)%Z; simpl; [intuition|]. rewrite IH. intuition.
Qed.

Lemma sort_by_pos_In (x : vpr_note) (l : list vpr_note) :
  In x (sort_by_pos l) <-> In x l.
Proof.
  induction l as [|y tl IH]; simpl; [reflexivity|].
  rewrite insert_by_pos_In, IH. intuition.
Qed.

Lemma insert_by_pos_length (x : vpr_note) (l : list vpr_note) :
  List.length (insert_by_pos x l) = S (List.length l).
Proof.
  induction l as [|y tl IH]; simpl; [reflexivity|].
  destruct (pos x <=? pos y)%Z; simpl; [reflexivity|]. rewrite IH. reflexivity.
Qed.

Lemma sort_by_pos_length (l : list vpr_note) :
  List.length (sort_by_pos l) = List.length l.
Proof.
  induction l as [|y tl IH]; simpl; [reflexivity|].
  rewrite insert_by_pos_length, IH. reflexivity.
Qed.

Lemma insert_by_pos_sorted (x : vpr_note) (l : list vpr_note) :
  pos_sorted l -> pos_sorted (insert_by_pos x l).
Proof.
  unfold pos_sorted. induction 1 as [|y tl Htl IH Hy]; simpl.
  - constructor; constructor.
  - destruct (Z.leb_spec (pos x) (pos y)) as [E|E].
    + constructor; [constructor; assumption|].
      constructor; [exact E|].
      eapply Forall_impl; [|exact Hy]. simpl. intros z Hz. lia.
    + constructor; [exact IH|].
      apply Forall_forall. intros z Hz. apply insert_by_pos_In in Hz.
      destruct Hz as [->|Hz]; [lia|].
      rewrite Forall_forall in Hy. apply Hy. exact Hz.
Qed.

Lemma sort_by_pos_sorted (l : list vpr_note) : pos_sorted (sort_by_pos l).
Proof.
  induction l as [|x tl IH]; simpl; [constructor|].
  apply insert_by_pos_sorted. exact IH.
Qed.

Section ExtractFacts.

Variable get_phoneme : string -> string.

Lemma note_of_word_some (tempo : Q) (w : word_data) (n : vpr_note) :
  note_of_word get_phoneme tempo w = Some n ->
  (0 < duration n)%Z /\ vpr_velocity n = 64%Z /\ wd_has_midi w = Some true.
Proof.
  unfold note_of_word.
  destruct (wd_has_midi w) as [[|]|]; simpl; try discriminate.
  destruct (match wd_midi_notes w with Some l => l | None => [] end) as [|m ms];
    [discriminate|].
  match goal with
  | |- context [(?d <=? 0)%Z] => destruct (Z.leb_spec d 0) as [E|E]
  end; [discriminate|].
  intros H. injection H as <-. simpl. repeat split. exact E.
Qed.

(** The notes extracted from a report are in order of position, each with a
    positive duration in ticks and velocity 64. *)
Theorem extract_notes_sorted_positive (word_coverage_ : list word_data) (tempo : Q) :
  pos_sorted (extract_notes_from_json get_phoneme word_coverage_ tempo)
  /\ Forall (fun n => (0 < duration n)%Z /\ vpr_velocity n = 64%Z)
       (extract_notes_from_json get_phoneme word_coverage_ tempo).
Proof.
  unfold extract_notes_from_json.
  set (raw := flat_map _ word_coverage_).
  assert (Hraw : Forall (fun n => (0 < duration n)%Z /\ vpr_velocity n = 64%Z) raw).
  { apply Forall_forall. intros n Hn. unfold raw in Hn. apply in_flat_map in Hn.
    destruct Hn as (w & _ & Hn).
    destruct (note_of_word get_phoneme tempo w) as [m|] eqn:E; [|contradiction].
    destruct Hn as [<-|[]]. destruct (note_of_word_some tempo w m E) as (A & B & _).
    split; assumption. }
  assert (Hsorted : Forall (fun n => (0 < duration n)%Z /\ vpr_velocity n = 64%Z)
                      (sort_by_pos raw)).
  { apply Forall_forall. intros n Hn. apply (proj1 (sort_by_pos_In n raw)) in Hn.
    rewrite Forall_forall in Hraw. apply Hraw. exact Hn. }
  pose proof (sort_by_pos_sorted raw) as Hs.
  unfold merge_overlapping_notes.
  destruct (sort_by_pos raw) as [|n0 tl]; [split; [constructor|constructor]|].
  apply merge_overlapping_from_sorted; assumption.
Qed.

(** Fed with the word entries of an analysis, the extraction yields at most
    as many notes as there are words with MIDI. *)
Theorem extract_notes_at_most_words_with_midi (wc : list coverage_info) (tempo : Q) :
  (Z.of_nat (List.length
               (extract_notes_from_json get_phoneme (map word_data_of wc) tempo))
   <= count_with_midi wc)%Z.
Proof.
  unfold extract_notes_from_json, count_with_midi.
  set (raw := flat_map _ (map word_data_of wc)).
  pose proof (merge_overlapping_notes_length (sort_by_pos raw)) as H1.
  rewrite sort_by_pos_length in H1.
  assert (H2 : (List.length raw <= List.length (filter has_midi wc))%nat).
  { unfold raw. clear. induction wc as [|c tl IH]; simpl; [lia|].
    rewrite length_app.
    destruct (note_of_word get_phoneme tempo (word_data_of c)) as [n|] eqn:E.
    - apply note_of_word_some in E. destruct E as (_ & _ & E). simpl in E.
      injection E as E. rewrite E. simpl. lia.
    - destruct (has_midi c); simpl; lia. }
  lia.
Qed.

End ExtractFacts.
